(** * Tilerama: street-network graphs, checked against their specification

    A shallow embedding of the TypeScript sources (graph builder, simplifier,
    consolidator, truncator, router, statistics and GraphML codec) together
    with the properties the specification states about them.

    Numbers are IEEE-754 binary64 values, as in JavaScript: the kernel's
    primitive floats.  Plain objects used as dictionaries keep the property
    order of the language (integer-like keys first, in ascending order, then
    the other keys in insertion order); only own properties are modelled, the
    prototype chain is not.  The graph container is the [graphology]
    multigraph restricted to the operations the sources call. *)

From Stdlib Require Import Floats ZArith NArith Ascii String List Lia Bool.
From stdpp Require Import base decidable option list gmap strings pretty relations.

Local Open Scope string_scope.
Local Open Scope list_scope.
Local Set Warnings "-register-all".

(** ** JavaScript values *)

Inductive value : Type :=
| VUndefined
| VNull
| VBool (b : bool)
| VNum (x : float)
| VStr (s : string)
| VArr (items : list value)
| VObj (props : list (string * value)).

Definition dquote : string := String (ascii_of_nat 34) EmptyString.
Definition backslash : string := String (ascii_of_nat 92) EmptyString.

Fixpoint join (sep : string) (l : list string) : string :=
  match l with
  | [] => ""
  | [s] => s
  | s :: r => s +:+ sep +:+ join sep r
  end.

(** IEEE comparisons as the language exposes them ([<], [>], [<=]); each is
    false as soon as one operand is NaN. *)
Definition js_lt (a b : float) : bool := PrimFloat.ltb a b.
Definition js_gt (a b : float) : bool := PrimFloat.ltb b a.
Definition js_le (a b : float) : bool := PrimFloat.leb a b.
Definition is_finite (x : float) : bool :=
  negb (PrimFloat.is_nan x) && negb (PrimFloat.is_infinity x).
Definition is_zero (x : float) : bool :=
  match PrimFloat.classify x with PZero | NZero => true | _ => false end.

(** [Math.min] of two numbers: NaN is contagious and [-0] is below [+0]. *)
Definition math_min (a b : float) : float :=
  if PrimFloat.is_nan a || PrimFloat.is_nan b then nan
  else if PrimFloat.ltb a b then a
  else if PrimFloat.ltb b a then b
  else match PrimFloat.classify a with NZero => a | _ => b end.

(** What the language provides and the model takes as given: the two
    conversions between numbers and text ([StringToNumber] and
    [Number::toString]) and the identity of references. *)
Class Runtime : Type := {
  string_to_number : string -> float;
  number_to_string : float -> string;
  (* whether two arrays or objects are the same reference, which a model
     of values cannot tell *)
  same_object : value -> value -> bool
}.

Section Conversions.
Context `{Runtime}.

(** [String(v)]. *)
Fixpoint to_string (v : value) : string :=
  match v with
  | VUndefined => "undefined"
  | VNull => "null"
  | VBool true => "true"
  | VBool false => "false"
  | VNum x => number_to_string x
  | VStr s => s
  | VArr items =>
      join "," (map (fun w => match w with
                              | VUndefined | VNull => ""
                              | _ => to_string w
                              end) items)
  | VObj _ => "[object Object]"
  end.

(** [Number(v)]. *)
Definition to_number (v : value) : float :=
  match v with
  | VUndefined => nan
  | VNull => 0%float
  | VBool true => 1%float
  | VBool false => 0%float
  | VNum x => x
  | VStr s => string_to_number s
  | VArr _ | VObj _ => string_to_number (to_string v)
  end.

(** [v > bound] and [v < bound] for a numeric bound: the left operand is
    converted with [Number]. *)
Definition value_gt (v : value) (bound : float) : bool := js_gt (to_number v) bound.
Definition value_lt (v : value) (bound : float) : bool := js_lt (to_number v) bound.



End Conversions.

(** Truthiness, as tested by [if (v)]. *)
Definition truthy (v : value) : bool :=
  match v with
  | VUndefined | VNull => false
  | VBool b => b
  | VNum x => negb (is_zero x || PrimFloat.is_nan x)
  | VStr s => negb (String.eqb s "")
  | VArr _ | VObj _ => true
  end.

(** ** Property order of plain objects *)

Definition digit_of (c : ascii) : option N :=
  let n := N_of_ascii c in
  if ((48 <=? n) && (n <=? 57))%N then Some (n - 48)%N else None.

Fixpoint digits_value (s : string) (acc : N) : option N :=
  match s with
  | EmptyString => Some acc
  | String c r =>
      match digit_of c with
      | Some d => digits_value r (acc * 10 + d)%N
      | None => None
      end
  end.

(** A key is an array index when it is the canonical decimal form of an
    integer below [2^32 - 1]. *)
Definition array_index (s : string) : option N :=
  match s with
  | EmptyString => None
  | String c r =>
      if Ascii.eqb c "0"%char && negb (String.eqb r "") then None
      else match digits_value s 0 with
           | Some n => if (n <=? 4294967294)%N then Some n else None
           | None => None
           end
  end.

Section Obj.
Context {V : Type}.

Definition jsobj := list (string * V).

Fixpoint obj_get (k : string) (o : list (string * V)) : option V :=
  match o with
  | [] => None
  | (k', v) :: r => if String.eqb k k' then Some v else obj_get k r
  end.

Definition obj_has (k : string) (o : list (string * V)) : bool :=
  match obj_get k o with Some _ => true | None => false end.

Fixpoint obj_replace (k : string) (v : V) (o : list (string * V)) : list (string * V) :=
  match o with
  | [] => []
  | (k', v') :: r =>
      if String.eqb k k' then (k', v) :: r else (k', v') :: obj_replace k v r
  end.

(** Position of a fresh index key: before the first key that is not an
    index or is a larger index. *)
Fixpoint obj_place_index (i : N) (k : string) (v : V) (o : list (string * V))
  : list (string * V) :=
  match o with
  | [] => [(k, v)]
  | (k', v') :: r =>
      match array_index k' with
      | Some j => if (j <? i)%N then (k', v') :: obj_place_index i k v r
                  else (k, v) :: (k', v') :: r
      | None => (k, v) :: (k', v') :: r
      end
  end.

(** [o[k] = v]. *)
Definition obj_set (k : string) (v : V) (o : list (string * V)) : list (string * V) :=
  if obj_has k o then obj_replace k v o
  else match array_index k with
       | Some i => obj_place_index i k v o
       | None => o ++ [(k, v)]
       end.

(** [delete o[k]]. *)
Fixpoint obj_delete (k : string) (o : list (string * V)) : list (string * V) :=
  match o with
  | [] => []
  | (k', v') :: r => if String.eqb k k' then r else (k', v') :: obj_delete k r
  end.

Definition obj_keys (o : list (string * V)) : list string := map fst o.
Definition obj_values (o : list (string * V)) : list V := map snd o.

(** [{...a, ...b}] and [Object.assign(a, b)]. *)
Definition obj_assign (a b : list (string * V)) : list (string * V) :=
  fold_left (fun acc kv => obj_set (fst kv) (snd kv) acc) b a.

Definition obj_spread (a : list (string * V)) : list (string * V) := obj_assign [] a.

End Obj.

Abbreviation attrs := (list (string * value)).

(** A [Set] of strings, iterated in insertion order. *)
Definition set_has (x : string) (s : list string) : bool :=
  existsb (String.eqb x) s.
Definition set_add (x : string) (s : list string) : list string :=
  if set_has x s then s else s ++ [x].
Definition set_of_list (l : list string) : list string :=
  fold_left (fun acc x => set_add x acc) l [].

(** The keys of a dictionary built by inserting [l] in order. *)
Definition key_order (l : list string) : list string :=
  obj_keys (fold_left (fun acc k => obj_set k tt acc) l []).

(** ** Errors *)

Inductive error : Type :=
| AlreadySimplified      (* simplify_graph on a simplified graph *)
| NotFoundGraphError     (* graphology: a node or an edge is missing *)
| UsageGraphError        (* graphology: the node already exists *)
| InvalidLineString      (* turf: a line string needs two positions *)
| EmptyResponse          (* builder: no element in the responses *)
| CacheOnlyInterrupt     (* builder: settings.cache_only_mode *)
| TypeError               (* a property of undefined is read *)
| FuelExhausted.         (* a loop or recursion ran past the bound the model follows *)

Inductive result (A : Type) : Type :=
| Ok (a : A)
| Err (e : error).
Arguments Ok {A} a.
Arguments Err {A} e.

#[global] Instance result_ret : MRet result := fun _ a => Ok a.
#[global] Instance result_bind : MBind result :=
  fun _ _ f m => match m with Ok a => f a | Err e => Err e end.

Definition is_ok {A} (r : result A) : bool :=
  match r with Ok _ => true | Err _ => false end.

(** [for (const x of l) body(x)] threading a state through a fallible body. *)
Fixpoint for_each {A S : Type} (body : S -> A -> result S) (l : list A) (s : S)
  : result S :=
  match l with
  | [] => Ok s
  | x :: r => s' ← body s x; for_each body r s'
  end.

(** ** The multigraph (graphology's MultiDirectedGraph) *)

Record edge : Type := Edge {
  e_key : nat;
  e_src : string;
  e_tgt : string;
  e_attrs : attrs
}.

(** Nodes and edges are kept in insertion order, which is the order in which
    graphology iterates them; [g_next_key] numbers the keys it generates. *)
Record graph : Type := Graph {
  g_attrs : attrs;
  g_nodes : list (string * attrs);
  g_edges : list edge;
  g_next_key : nat
}.

Definition empty_graph : graph := Graph [] [] [] 0.

Definition order (G : graph) : nat := length (g_nodes G).
Definition size (G : graph) : nat := length (g_edges G).
Definition nodes (G : graph) : list string := map fst (g_nodes G).
Definition hasNode (G : graph) (n : string) : bool := obj_has n (g_nodes G).

Definition getAttribute (G : graph) (k : string) : value :=
  default VUndefined (obj_get k (g_attrs G)).
Definition setAttribute (G : graph) (k : string) (v : value) : graph :=
  Graph (obj_set k v (g_attrs G)) (g_nodes G) (g_edges G) (g_next_key G).

Definition require_node (G : graph) (n : string) : result unit :=
  if hasNode G n then Ok tt else Err NotFoundGraphError.

Definition getNodeAttributes (G : graph) (n : string) : result attrs :=
  match obj_get n (g_nodes G) with
  | Some a => Ok a
  | None => Err NotFoundGraphError
  end.



Definition addNode (G : graph) (n : string) (a : attrs) : result graph :=
  if hasNode G n then Err UsageGraphError
  else Ok (Graph (g_attrs G) (g_nodes G ++ [(n, a)]) (g_edges G) (g_next_key G)).

Definition touches (n : string) (e : edge) : bool :=
  String.eqb (e_src e) n || String.eqb (e_tgt e) n.

(** [G.dropNode(n)] also drops every edge attached to [n]. *)
Definition dropNode (G : graph) (n : string) : result graph :=
  if hasNode G n then
    Ok (Graph (g_attrs G) (obj_delete n (g_nodes G))
              (filter (fun e => negb (touches n e)) (g_edges G)) (g_next_key G))
  else Err NotFoundGraphError.

(** [G.addEdge(u, v, a)]: both ends must exist; the key is generated. *)
Definition addEdge (G : graph) (u v : string) (a : attrs) : result graph :=
  if hasNode G u && hasNode G v then
    Ok (Graph (g_attrs G) (g_nodes G)
              (g_edges G ++ [Edge (g_next_key G) u v a]) (S (g_next_key G)))
  else Err NotFoundGraphError.

Definition out_edges (G : graph) (n : string) : list edge :=
  filter (fun e => String.eqb (e_src e) n) (g_edges G).
Definition in_edges (G : graph) (n : string) : list edge :=
  filter (fun e => String.eqb (e_tgt e) n) (g_edges G).

(** Neighbours are the keys of the node's adjacency dictionaries. *)
Definition outNeighbors (G : graph) (n : string) : result (list string) :=
  _ ← require_node G n; Ok (key_order (map e_tgt (out_edges G n))).
Definition inNeighbors (G : graph) (n : string) : result (list string) :=
  _ ← require_node G n; Ok (key_order (map e_src (in_edges G n))).
Definition neighbors (G : graph) (n : string) : result (list string) :=
  ins ← inNeighbors G n; outs ← outNeighbors G n;
  Ok (ins ++ filter (fun m => negb (set_has m ins)) outs).

Definition inDegree (G : graph) (n : string) : result nat :=
  _ ← require_node G n; Ok (length (in_edges G n)).
Definition outDegree (G : graph) (n : string) : result nat :=
  _ ← require_node G n; Ok (length (out_edges G n)).
Definition degree (G : graph) (n : string) : result nat :=
  i ← inDegree G n; o ← outDegree G n; Ok (i + o).

Definition joins (u v : string) (e : edge) : bool :=
  String.eqb (e_src e) u && String.eqb (e_tgt e) v.

(** [G.hasEdge(u, v)] and [G.edges(u, v)]: the edges going from [u] to [v]. *)
Definition hasEdge (G : graph) (u v : string) : bool :=
  existsb (joins u v) (g_edges G).

(** What graphology maintains: node keys are distinct and every edge joins
    two nodes of the graph. *)
Definition wf_graph (G : graph) : Prop :=
  NoDup (nodes G)
  /\ forall e, e ∈ g_edges G -> e_src e ∈ nodes G /\ e_tgt e ∈ nodes G.

Definition wf_graphb (G : graph) : bool :=
  bool_decide (NoDup (nodes G))
  && forallb (fun e => hasNode G (e_src e) && hasNode G (e_tgt e)) (g_edges G).

(** ** Simplifier: the endpoint predicate (simplification.ts) *)

Definition _is_endpoint (G : graph) (node : string) : result bool :=
  ins ← inNeighbors G node;
  outs ← outNeighbors G node;
  let neighbours := set_of_list (ins ++ outs) in
  let n := length neighbours in
  d ← degree G node;
  (* Rule 1: self-loop *)
  if set_has node neighbours then Ok true else
  (* Rule 2: no incoming or no outgoing *)
  i ← inDegree G node;
  o ← outDegree G node;
  if Nat.eqb i 0 || Nat.eqb o 0 then Ok true else
  (* Rule 3: not exactly 2 neighbours and degree 2 or 4 *)
  if negb (Nat.eqb n 2 && (Nat.eqb d 2 || Nat.eqb d 4)) then Ok true else
  Ok false.

(** The endpoint rule in the words of the specification: [D] is the total
    degree, parallel edges counted; [N] the number of distinct neighbours
    other than the node itself. *)
Definition spec_has_self_loop (G : graph) (n : string) : Prop :=
  exists e, e ∈ g_edges G /\ e_src e = n /\ e_tgt e = n.
Definition spec_in_degree (G : graph) (n : string) : nat :=
  length (filter (fun e => e_tgt e = n) (g_edges G)).
Definition spec_out_degree (G : graph) (n : string) : nat :=
  length (filter (fun e => e_src e = n) (g_edges G)).
Definition spec_total_degree (G : graph) (n : string) : nat :=
  spec_in_degree G n + spec_out_degree G n.
Definition spec_neighbours (G : graph) (n : string) : list string :=
  remove_dups
    (filter (fun m => m <> n)
       (map e_src (filter (fun e => e_tgt e = n) (g_edges G))
        ++ map e_tgt (filter (fun e => e_src e = n) (g_edges G)))).
Definition spec_interstitial (G : graph) (n : string) : Prop :=
  length (spec_neighbours G n) = 2
  /\ (spec_total_degree G n = 2 \/ spec_total_degree G n = 4).

(** ** Statistics: streets per node (stats.ts)

    The counts are whole numbers; they are kept as naturals and turned into
    numbers when they are stored as attributes. *)






(** ** Connected components (utils_graph.ts) *)

Definition pop {A} (l : list A) : option (A * list A) :=
  match rev l with
  | [] => None
  | x :: r => Some (x, rev r)
  end.

Definition visit_neighbor (st : list string * list string) (neighbor : string)
  : list string * list string :=
  let '(visited, stack) := st in
  if set_has neighbor visited then (visited, stack)
  else (set_add neighbor visited, stack ++ [neighbor]).

(** The [while (stack.length > 0)] loop of the depth-first search. *)
Fixpoint component_loop (fuel : nat) (G : graph)
    (visited stack component : list string)
  : result (list string * list string) :=
  match pop stack with
  | None => Ok (visited, component)
  | Some (current, stack') =>
      match fuel with
      | 0 => Err FuelExhausted
      | S fuel' =>
          ns ← neighbors G current;
          let '(visited', stack'') := fold_left visit_neighbor ns (visited, stack') in
          component_loop fuel' G visited' stack'' (component ++ [current])
      end
  end.

Definition weaklyConnectedComponents (G : graph) : result (list (list string)) :=
  r ← for_each (fun (st : list string * list (list string)) node =>
         let '(visited, components) := st in
         if set_has node visited then Ok (visited, components)
         else
           '(visited', component) ←
             component_loop (order G) G (set_add node visited) [node] [];
           Ok (visited', components ++ [component]))
       (nodes G) ([], []);
  Ok (snd r).

(** The nodes the search has not reached yet: with the stack they bound the
    number of iterations left. *)
Definition unvisited (G : graph) (visited : list string) : list string :=
  filter (fun n => n ∉ visited) (nodes G).

Definition pick_largest (components : list (list string)) : list string :=
  match components with
  | [] => []
  | c :: r =>
      fold_left (fun best c' => if Nat.ltb (length best) (length c') then c' else best) r c
  end.

(** [get_largest_component(G)] with its default [strongly = false]. *)
Definition get_largest_component (G : graph) : result graph :=
  if Nat.eqb (order G) 0 then Ok G else
  components ← weaklyConnectedComponents G;
  if Nat.eqb (length components) 0 then Ok G else
  let nodesToKeep := set_of_list (pick_largest components) in
  for_each (fun H node => if negb (set_has node nodesToKeep) then dropNode H node
                          else Ok H)
           (nodes G) G.

(** ** Truncation by bounding box (truncate.ts) *)

(** What the geometry libraries decide: whether the line through the given
    coordinates intersects the box, and the parsing of well-known text. *)
Class Geometry : Type := {
  line_intersects_bbox : list value -> float * float * float * float -> bool;
  wkt_parse : string -> option value
}.

Definition attr (a : attrs) (k : string) : value :=
  default VUndefined (obj_get k a).

Definition is_defined (v : value) : bool :=
  match v with VUndefined => false | _ => true end.

Definition array_items (v : value) : option (list value) :=
  match v with VArr l => Some l | _ => None end.

Definition line_string_coordinates (geo : value) : option (list value) :=
  match geo with
  | VObj props =>
      match attr props "type", attr props "coordinates" with
      | VStr "LineString", VArr l => Some l
      | _, _ => None
      end
  | _ => None
  end.

Section Truncate.
Context `{Runtime} `{Geometry}.

Definition outside_bbox (bbox : float * float * float * float) (a : attrs) : bool :=
  let '(north, south, east, west) := bbox in
  let y := attr a "y" in
  let x := attr a "x" in
  value_gt y north || value_lt y south || value_gt x east || value_lt x west.

Definition edge_coordinates (G : graph) (e : edge) : result (list value) :=
  let geometry := attr (e_attrs e) "geometry" in
  let coordinates :=
    if truthy geometry then
      match line_string_coordinates geometry with
      | Some l => l
      | None =>
          match geometry with
          | VStr s =>
              match wkt_parse s with
              | Some geo => default [] (line_string_coordinates geo)
              | None => []
              end
          | VArr l => l
          | _ => []
          end
      end
    else [] in
  if Nat.ltb (length coordinates) 2 then
    u ← getNodeAttributes G (e_src e);
    v ← getNodeAttributes G (e_tgt e);
    if is_defined (attr u "x") && is_defined (attr u "y")
       && is_defined (attr v "x") && is_defined (attr v "y")
       && is_finite (to_number (attr u "x")) && is_finite (to_number (attr u "y"))
       && is_finite (to_number (attr v "x")) && is_finite (to_number (attr v "y"))
    then Ok [VArr [VNum (to_number (attr u "x")); VNum (to_number (attr u "y"))];
             VArr [VNum (to_number (attr v "x")); VNum (to_number (attr v "y"))]]
    else Ok coordinates
  else Ok coordinates.

Definition reprieve (G : graph) (bbox : float * float * float * float)
    (outside : list string) (keepOutside : list string) (e : edge)
  : result (list string) :=
  if negb (set_has (e_src e) outside) && negb (set_has (e_tgt e) outside)
  then Ok keepOutside
  else
    coordinates ← edge_coordinates G e;
    if Nat.ltb (length coordinates) 2 then Ok keepOutside
    else if line_intersects_bbox coordinates bbox then
      let k1 := if set_has (e_src e) outside then set_add (e_src e) keepOutside
                else keepOutside in
      Ok (if set_has (e_tgt e) outside then set_add (e_tgt e) k1 else k1)
    else Ok keepOutside.

Definition drop_if_present (G : graph) (node : string) : result graph :=
  if hasNode G node then dropNode G node else Ok G.

Definition truncate_graph_bbox (G : graph) (bbox : float * float * float * float)
    (truncate_by_edge retain_all : bool) : result graph :=
  let nodes_to_remove0 :=
    map fst (filter (fun na => outside_bbox bbox (snd na)) (g_nodes G)) in
  nodes_to_remove ←
    (if truncate_by_edge then
       let outside := set_of_list nodes_to_remove0 in
       keepOutside ← for_each (reprieve G bbox outside) (g_edges G) [];
       Ok (filter (fun n => negb (set_has n keepOutside)) nodes_to_remove0)
     else Ok nodes_to_remove0);
  G' ← for_each drop_if_present nodes_to_remove G;
  if negb retain_all then get_largest_component G' else Ok G'.

End Truncate.

(** ** Distances (distance.ts) *)

(** The transcendental functions of the language's [Math] object. *)
Class MathLib : Type := {
  math_sin : float -> float;
  math_cos : float -> float;
  math_asin : float -> float
}.

Definition math_pi : float := 0x1.921fb54442d18p+1%float.
Definition EARTH_RADIUS_M : float := 6371009%float.

Section Distance.
Context `{MathLib}.

Definition great_circle (lat1 lon1 lat2 lon2 : float) : float :=
  let y1 := (lat1 * math_pi / 180)%float in
  let y2 := (lat2 * math_pi / 180)%float in
  let delta_y := (y2 - y1)%float in
  let x1 := (lon1 * math_pi / 180)%float in
  let x2 := (lon2 * math_pi / 180)%float in
  let delta_x := (x2 - x1)%float in
  let sy := math_sin (delta_y / 2)%float in
  let sx := math_sin (delta_x / 2)%float in
  let h := (sy * sy + math_cos y1 * math_cos y2 * (sx * sx))%float in
  let h_clamped := math_min 1%float h in
  let arc := (2 * math_asin (PrimFloat.sqrt h_clamped))%float in
  (arc * EARTH_RADIUS_M)%float.

Definition euclidean (y1 x1 y2 x2 : float) : float :=
  PrimFloat.sqrt ((x1 - x2) * (x1 - x2) + (y1 - y2) * (y1 - y2))%float.

End Distance.

(** ** Builder (graph.ts) *)

(** Modelled from the spec: the settings module is not among the sources;
    these are the fields the builder reads from the single settings surface
    ("default CRS, bidirectional network-type set", the global override
    "treat all as oneway", the selected tags). *)
Record Settings : Type := {
  all_oneway : bool;
  cache_only_mode : bool;
  default_crs : string;
  useful_tags_node : list string;
  useful_tags_way : list string;
  bidirectional_network_types : list string
}.

(** Elements of a response.  Identifiers are the integers of the corpus;
    [toString] on them is their decimal form. *)
Inductive element : Type :=
| OSMNode (id : Z) (lat lon : float) (tags : option (list (string * string)))
| OSMWay (id : Z) (nds : list Z) (tags : option (list (string * string)))
| OSMOther (id : Z).

Definition id_key (id : Z) : string := pretty id.

Definition num_of_Z (z : Z) : float :=
  match z with
  | Z0 => 0%float
  | Zpos _ => PrimFloat.of_uint63 (Uint63.of_Z z)
  | Zneg _ => PrimFloat.opp (PrimFloat.of_uint63 (Uint63.of_Z (Z.opp z)))
  end.

(** A path: the way's attributes, with its ordered node list kept apart
    (the code stores it under ["nodes"] and takes it out before use). *)
Record path : Type := Path {
  path_nodes : list Z;
  path_attrs : attrs
}.

Definition copy_tags (useful : list string) (tags : option (list (string * string)))
    (a : attrs) : attrs :=
  match tags with
  | None => a
  | Some t =>
      fold_left (fun acc useful_tag =>
                   match obj_get useful_tag t with
                   | Some v => obj_set useful_tag (VStr v) acc
                   | None => acc
                   end) useful a
  end.

(** [arr.filter((item, pos) => pos === 0 || item !== arr[pos - 1])]. *)
Fixpoint drop_repeats (prev : option Z) (l : list Z) : list Z :=
  match l with
  | [] => []
  | x :: r =>
      match prev with
      | Some p => if Z.eqb x p then drop_repeats (Some x) r
                  else x :: drop_repeats (Some x) r
      | None => x :: drop_repeats (Some x) r
      end
  end.

Definition value_in (v : value) (s : list string) : bool :=
  match v with VStr x => set_has x s | _ => false end.

Definition oneway_values : list string := ["yes"; "true"; "1"; "-1"; "reverse"; "T"; "F"].
Definition reversed_values : list string := ["-1"; "reverse"; "T"].

(** [zip(nodes, nodes[1:])]. *)
Fixpoint consecutive (l : list Z) : list (Z * Z) :=
  match l with
  | u :: (v :: _) as r => (u, v) :: consecutive r
  | _ => []
  end.

Section Builder.
Context (settings : Settings).

Definition _convert_node (lat lon : float) (tags : option (list (string * string)))
  : attrs :=
  copy_tags (useful_tags_node settings) tags [("y", VNum lat); ("x", VNum lon)].

Definition _convert_path (id : Z) (nds : list Z) (tags : option (list (string * string)))
  : path :=
  Path (drop_repeats None nds)
       (copy_tags (useful_tags_way settings) tags [("osmid", VNum (num_of_Z id))]).

Definition _parse_nodes_paths (elements : list element)
  : list (string * attrs) * list (string * path) :=
  fold_left (fun (acc : list (string * attrs) * list (string * path)) el =>
               let '(nodes, paths) := acc in
               match el with
               | OSMNode id lat lon tags =>
                   (obj_set (id_key id) (_convert_node lat lon tags) nodes, paths)
               | OSMWay id nds tags =>
                   (nodes, obj_set (id_key id) (_convert_path id nds tags) paths)
               | OSMOther _ => (nodes, paths)
               end) elements ([], []).

Definition _is_path_one_way (a : attrs) (bidirectional : bool) (oneway_values : list string)
  : bool :=
  (* rule 1 *)
  if all_oneway settings then true
  (* rule 2 *)
  else if bidirectional then false
  (* rule 3 *)
  else if obj_has "oneway" a && value_in (attr a "oneway") oneway_values then true
  (* rule 4 *)
  else if obj_has "junction" a
          && match attr a "junction" with
             | VStr j => String.eqb j "roundabout"
             | _ => false
             end then true
  else false.

Definition _is_path_reversed (a : attrs) (reversed_values : list string) : bool :=
  obj_has "oneway" a && value_in (attr a "oneway") reversed_values.

Definition add_path (bidirectional : bool) (G : graph) (p : path) : result graph :=
  let a0 := path_attrs p in
  let is_one_way := _is_path_one_way a0 bidirectional oneway_values in
  let nodes :=
    if is_one_way && _is_path_reversed a0 reversed_values
    then rev (path_nodes p) else path_nodes p in
  let a1 := if negb (all_oneway settings)
            then obj_set "oneway" (VBool is_one_way) a0 else a0 in
  let edges := consecutive nodes in
  let a2 := obj_set "reversed" (VBool false) a1 in
  G1 ← for_each (fun G uv => addEdge G (id_key (fst uv)) (id_key (snd uv)) (obj_spread a2))
                edges G;
  if negb is_one_way then
    let a3 := obj_set "reversed" (VBool true) a2 in
    for_each (fun G uv => addEdge G (id_key (snd uv)) (id_key (fst uv)) (obj_spread a3))
             edges G1
  else Ok G1.

Definition _add_paths (G : graph) (paths : list path) (bidirectional : bool)
  : result graph :=
  for_each (add_path bidirectional) paths G.

End Builder.

Definition setEdgeAttribute (G : graph) (key : nat) (k : string) (v : value) : result graph :=
  if existsb (fun e => Nat.eqb (e_key e) key) (g_edges G) then
    Ok (Graph (g_attrs G) (g_nodes G)
              (map (fun e => if Nat.eqb (e_key e) key
                             then Edge (e_key e) (e_src e) (e_tgt e)
                                       (obj_set k v (e_attrs e))
                             else e) (g_edges G))
              (g_next_key G))
  else Err NotFoundGraphError.

Section CreateGraph.
Context `{Runtime} `{MathLib} (settings : Settings).

(** [add_edge_lengths(G)] over all the edges (distance.ts). *)
Definition add_edge_lengths (G : graph) : result graph :=
  for_each (fun G e =>
              uNode ← getNodeAttributes G (e_src e);
              vNode ← getNodeAttributes G (e_tgt e);
              if is_defined (attr uNode "y") && is_defined (attr uNode "x")
                 && is_defined (attr vNode "y") && is_defined (attr vNode "x")
              then
                let dist := great_circle (to_number (attr uNode "y"))
                                         (to_number (attr uNode "x"))
                                         (to_number (attr vNode "y"))
                                         (to_number (attr vNode "x")) in
                setEdgeAttribute G (e_key e) "length" (VNum dist)
              else Ok G)
           (g_edges G) G.

(** [_create_graph(response_jsons, bidirectional)]; [now] is the clock
    reading stored as [created_date]. *)
Definition _create_graph (now : string) (response_jsons : list (list element))
    (bidirectional : bool) : result graph :=
  let '(nodes, paths) :=
    fold_left (fun (acc : list (string * attrs) * list (string * path)) response_json =>
                 if negb (cache_only_mode settings) then
                   let '(nodes_temp, paths_temp) := _parse_nodes_paths settings response_json in
                   (obj_assign (fst acc) nodes_temp, obj_assign (snd acc) paths_temp)
                 else acc) response_jsons ([], []) in
  if cache_only_mode settings then Err CacheOnlyInterrupt else
  if Nat.eqb (length nodes) 0 && Nat.eqb (length paths) 0 then Err EmptyResponse else
  let G0 := setAttribute
              (setAttribute
                 (setAttribute empty_graph "created_date" (VStr now))
                 "created_with" (VStr "Tilerama"))
              "crs" (VStr (default_crs settings)) in
  G1 ← for_each (fun G nd => addNode G (fst nd) (snd nd)) nodes G0;
  G2 ← _add_paths settings G1 (obj_values paths) bidirectional;
  if Nat.ltb 0 (size G2) then add_edge_lengths G2 else Ok G2.

End CreateGraph.

(** What the oneway scenario observes of an edge. *)
Definition edge_view (e : edge) : string * string * value :=
  (e_src e, e_tgt e, attr (e_attrs e) "reversed").

(** The seed scenario of the specification: the way [1, 2, 3] tagged
    [highway=residential], [oneway=-1], with its three nodes. *)
Definition oneway_scenario (c1 c2 c3 : float * float) (way_id : Z) : list element :=
  [ OSMNode 1 (fst c1) (snd c1) None;
    OSMNode 2 (fst c2) (snd c2) None;
    OSMNode 3 (fst c3) (snd c3) None;
    OSMWay way_id [1; 2; 3]%Z (Some [("highway", "residential"); ("oneway", "-1")]) ].

(** ** Simplifier (simplification.ts) *)

(** In-place operations on the graph: a computation receives the graph and
    leaves the graph it reached, with its outcome.  An operation that throws
    leaves the graph as it found it. *)
Definition St (A : Type) : Type := graph -> graph * result A.

Definition st_ret {A} (a : A) : St A := fun G => (G, Ok a).

#[global] Instance St_ret : MRet St := @st_ret.


Definition includes (x : string) (l : list string) : bool := existsb (String.eqb x) l.

(** [_build_path]: the loop runs at most 10000 times, then gives [null]. *)
Fixpoint build_path_loop (count : nat) (G : graph) (endpoint : string)
    (endpoints : list string) (path : list string) (successor : string)
  : result (option (list string)) :=
  match count with
  | 0 => Ok None
  | S count' =>
      successors ← outNeighbors G successor;
      if set_has successor endpoints then Ok (Some path) else
      let valid_successors := filter (fun n => negb (includes n path)) successors in
      match valid_successors with
      | [next] => build_path_loop count' G endpoint endpoints (path ++ [next]) next
      | [] => if includes endpoint successors then Ok (Some (path ++ [endpoint]))
              else Ok (Some path)
      | _ => Ok (Some path)
      end
  end.

(** 10000 *)
Definition step_limit : nat := 100 * 100.

Definition _build_path (G : graph) (endpoint endpoint_successor : string)
    (endpoints : list string) : result (option (list string)) :=
  build_path_loop step_limit G endpoint endpoints [endpoint; endpoint_successor]
                  endpoint_successor.




Section Simplify.
Context `{Runtime}.










End Simplify.

(** ** Consolidator (simplification.ts, projection.ts) *)








Section Consolidate.
Context `{Runtime} `{MathLib}.











End Consolidate.


(** A node of the source graph has its representative in the new graph. *)
Definition mapped (newG : graph) (repMap : list (string * string)) (n : string) : Prop :=
  exists r, obj_get n repMap = Some r /\ hasNode newG r = true.



(** ** GraphML codec: how attribute values are written (simplification.ts) *)

Definition hex_digit (n : nat) : string :=
  String (ascii_of_nat (if Nat.ltb n 10 then 48 + n else 87 + n)) EmptyString.

(** [QuoteJSONString]: the escapes of [JSON.stringify] for a string. *)
Definition json_escape (c : ascii) : string :=
  let n := nat_of_ascii c in
  if Nat.eqb n 8 then backslash +:+ "b"
  else if Nat.eqb n 9 then backslash +:+ "t"
  else if Nat.eqb n 10 then backslash +:+ "n"
  else if Nat.eqb n 12 then backslash +:+ "f"
  else if Nat.eqb n 13 then backslash +:+ "r"
  else if Nat.eqb n 34 then backslash +:+ dquote
  else if Nat.eqb n 92 then backslash +:+ backslash
  else if Nat.ltb n 32 then
    backslash +:+ "u00" +:+ hex_digit (Nat.div n 16) +:+ hex_digit (Nat.modulo n 16)
  else String c EmptyString.

Fixpoint json_escape_all (s : string) : string :=
  match s with
  | EmptyString => ""
  | String c r => json_escape c +:+ json_escape_all r
  end.

Definition json_quote (s : string) : string := dquote +:+ json_escape_all s +:+ dquote.

Section Codec.
Context `{Runtime}.

(** [JSON.stringify(v)] without indentation; [None] is its [undefined]. *)
Fixpoint json_stringify (v : value) : option string :=
  match v with
  | VUndefined => None
  | VNull => Some "null"
  | VBool true => Some "true"
  | VBool false => Some "false"
  | VNum x => Some (if is_finite x then number_to_string x else "null")
  | VStr s => Some (json_quote s)
  | VArr items =>
      Some ("[" +:+ join "," (map (fun w => default "null" (json_stringify w)) items)
            +:+ "]")
  | VObj props =>
      Some ("{" +:+ join "," (flat_map (fun kv =>
                                let '(k, w) := kv in
                                match json_stringify w with
                                | Some t => [json_quote k +:+ ":" +:+ t]
                                | None => []
                                end) props)
            +:+ "}")
  end.

Definition stringifyValue (value : value) : string :=
  match value with
  | VBool b => if b then "True" else "False"
  | VArr _ | VObj _ => default "undefined" (json_stringify value)
  | _ => to_string value
  end.

(** The loop of [save_graphml] over the attributes of one edge. *)
Definition stringify_attributes (a : attrs) : attrs :=
  fold_left (fun acc kv => obj_set (fst kv) (VStr (stringifyValue (snd kv))) acc) a a.

End Codec.

(** ** Routing: k shortest paths (routing.ts) *)

(** [Record<string, Record<string, number>>]. *)
Abbreviation adjacency := (list (string * list (string * float))).

Section Routing.
Context `{Runtime}.

Definition _build_adj (G : graph) (weight : string) : adjacency :=
  fold_left (fun (adj : adjacency) e =>
               let u := e_src e in
               let v := e_tgt e in
               let w := match attr (e_attrs e) weight with
                        | VUndefined => 1%float
                        | x => to_number x
                        end in
               if negb (is_finite w) then adj
               else
                 let row := default [] (obj_get u adj) in
                 (* keep minimal weight if multiple edges *)
                 obj_set u (obj_set v (math_min (default infinity (obj_get v row)) w) row)
                         adj)
            (g_edges G) [].

End Routing.

Definition edge_key (u v : string) : string := u +:+ "->" +:+ v.

(** The scan of [dist] for the closest node not visited yet. *)
Definition pick_current (dist : list (string * float)) (visited : list string)
  : option string * float :=
  fold_left (fun (acc : option string * float) (nd : string * float) =>
               if negb (set_has (fst nd) visited) && js_lt (snd nd) (snd acc)
               then (Some (fst nd), snd nd) else acc)
            dist (None, infinity).

Definition relax (current : string) (best : float) (dest : string)
    (ignoredEdges ignoredNodes : list string)
    (st : list (string * float) * list (string * string)) (vw : string * float)
  : list (string * float) * list (string * string) :=
  let '(dist, prev) := st in
  let '(v, w) := vw in
  if set_has v ignoredNodes && negb (String.eqb v dest) then st
  else if set_has (edge_key current v) ignoredEdges then st
  else
    let nd := (best + w)%float in
    if js_lt nd (default infinity (obj_get v dist))
    then (obj_set v nd dist, obj_set v current prev)
    else st.

Fixpoint dijkstra_loop (fuel : nat) (adj : adjacency) (dest : string)
    (ignoredEdges ignoredNodes : list string)
    (dist : list (string * float)) (prev : list (string * string)) (visited : list string)
  : result (list (string * float) * list (string * string)) :=
  match fuel with
  | 0 => Err FuelExhausted
  | S fuel' =>
      match pick_current dist visited with
      | (None, _) => Ok (dist, prev)
      | (Some current, best) =>
          if String.eqb current dest then Ok (dist, prev)
          else
            let visited' := set_add current visited in
            match obj_get current adj with
            | None => dijkstra_loop fuel' adj dest ignoredEdges ignoredNodes
                                    dist prev visited'
            | Some neighbors =>
                let '(dist', prev') :=
                  fold_left (relax current best dest ignoredEdges ignoredNodes)
                            neighbors (dist, prev) in
                dijkstra_loop fuel' adj dest ignoredEdges ignoredNodes
                              dist' prev' visited'
            end
      end
  end.

(** The walk back along [prev]; it does not end when [prev] has a cycle. *)
Fixpoint walk_back (fuel : nat) (prev : list (string * string)) (cur : string)
    (path : list string) : result (list string) :=
  match fuel with
  | 0 => Err FuelExhausted
  | S fuel' =>
      let path' := cur :: path in
      match obj_get cur prev with
      | None => Ok path'
      | Some p => walk_back fuel' prev p path'
      end
  end.

(** Every node the search can reach: the origin and the targets of [adj]. *)
Definition reachable_bound (adj : adjacency) : nat :=
  S (length (flat_map (fun row => map fst (snd row)) adj)).

(** [None] is the [null] of the source. *)
Definition _dijkstra_with_ignores (adj : adjacency) (orig dest : string)
    (ignoredEdges ignoredNodes : list string) : result (option (list string)) :=
  '(dist, prev) ← dijkstra_loop (S (reachable_bound adj)) adj dest ignoredEdges ignoredNodes
                    [(orig, 0%float)] [] [];
  if negb (obj_has dest dist) then Ok None
  else path ← walk_back (S (length prev)) prev dest []; Ok (Some path).

Fixpoint _path_cost_from (adj : adjacency) (path : list string) (cost : float) : float :=
  match path with
  | u :: (v :: _) as rest =>
      let w := match obj_get u adj with
               | Some row => default 1%float (obj_get v row)
               | None => 1%float
               end in
      _path_cost_from adj rest (cost + w)%float
  | _ => cost
  end.
Definition _path_cost (adj : adjacency) (path : list string) : float :=
  _path_cost_from adj path 0%float.

(** [p.length === q.length && p.every((v, idx) => v === q[idx])]. *)
Definition same_path (p q : list string) : bool :=
  Nat.eqb (length p) (length q)
  && forallb (fun vw => String.eqb (fst vw) (snd vw)) (combine p q).

(** [B.sort((a, b) => a.cost - b.cost)]: a stable sort. *)
Fixpoint sort_insert_cost (x : list string * float) (l : list (list string * float))
  : list (list string * float) :=
  match l with
  | [] => [x]
  | y :: r => if js_lt (snd x - snd y)%float 0%float then x :: l
              else y :: sort_insert_cost x r
  end.
Definition sort_by_cost (B : list (list string * float)) : list (list string * float) :=
  fold_left (fun acc x => sort_insert_cost x acc) B [].

(** The edges leaving the spur node on the paths of [A] that share the root. *)
Definition ignored_edges (A : list (list string)) (root_path : list string) (i : nat)
  : list string :=
  fold_left (fun ignoredEdges p =>
               if Nat.ltb i (length p)
                  && forallb (fun vw => String.eqb (fst vw) (snd vw))
                             (combine (firstn (i + 1) p) root_path)
               then set_add (edge_key (default "undefined" (p !! i))
                                      (default "undefined" (p !! (i + 1))))
                            ignoredEdges
               else ignoredEdges)
            A [].

(** One spur node of the previous path. *)
Definition spur_step (adj : adjacency) (dest : string) (A : list (list string))
    (prev_path : list string) (B : list (list string * float)) (i : nat)
  : result (list (list string * float)) :=
  let spur_node := default "undefined" (prev_path !! i) in
  let root_path := firstn (i + 1) prev_path in
  let ignoredEdges := ignored_edges A root_path i in
  let ignoredNodes := set_of_list (removelast root_path) in
  spur_path ← _dijkstra_with_ignores adj spur_node dest ignoredEdges ignoredNodes;
  match spur_path with
  | Some spur_path =>
      let total_path := removelast root_path ++ spur_path in
      let cost := _path_cost adj total_path in
      (* avoid duplicates *)
      Ok (if negb (existsb (fun b => same_path (fst b) total_path) B)
          then B ++ [(total_path, cost)] else B)
  | None => Ok B
  end.

(** The loop over [ki], with [n] rounds left. *)
Fixpoint yen_loop (n : nat) (adj : adjacency) (dest : string) (ki : nat)
    (A : list (list string)) (B : list (list string * float))
  : result (list (list string)) :=
  match n with
  | 0 => Ok A
  | S n' =>
      let prev_path := default [] (A !! (ki - 1)) in
      B1 ← for_each (spur_step adj dest A prev_path) (seq 0 (length prev_path - 1)) B;
      match sort_by_cost B1 with
      | [] => Ok A
      | best :: B2 => yen_loop n' adj dest (S ki) (A ++ [fst best]) B2
      end
  end.

Section KShortest.
Context `{Runtime}.

(** Compute k-shortest loopless paths using Yen's algorithm. *)
Definition k_shortest_paths (G : graph) (orig dest : string) (k : nat) (weight : string)
  : result (list (list string)) :=
  if Nat.ltb k 1 then Ok []
  else
    let adj := _build_adj G weight in
    first ← _dijkstra_with_ignores adj orig dest [] [];
    match first with
    | None => Ok []
    | Some first => yen_loop (k - 1) adj dest 1 [first] []
    end.

End KShortest.

(** The nodes met when walking back along [prev], from a node to one that
    has no predecessor. *)
Inductive chain (prev : list (string * string)) : list string -> Prop :=
| chain_end x : obj_get x prev = None -> chain prev [x]
| chain_step x p r :
    obj_get x prev = Some p -> chain prev (p :: r) -> chain prev (x :: p :: r).



(** * Concrete instances

    The closed statements at the end run the definitions on explicit graphs.
    Their attribute values are numbers, booleans and strings that are never
    converted from text, arrays or objects, so the conversions of the runtime
    are not consulted; neither are the geometry predicates (no run below asks
    for [truncate_by_edge]) nor the trigonometric functions, which only feed
    the [length] attribute. *)

Definition plain_runtime : Runtime :=
  {| string_to_number := fun _ => nan;
     number_to_string := fun _ => "";
     same_object := fun _ _ => false |}.

Definition plain_geometry : Geometry :=
  {| line_intersects_bbox := fun _ _ => false;
     wkt_parse := fun _ => None |}.

Definition plain_math : MathLib :=
  {| math_sin := fun x => x; math_cos := fun x => x; math_asin := fun x => x |}.

Definition drive_settings : Settings :=
  {| all_oneway := false;
     cache_only_mode := false;
     default_crs := "epsg:4326";
     useful_tags_node := ["highway"; "ref"];
     useful_tags_way := ["highway"; "name"; "oneway"; "junction"; "maxspeed"];
     bidirectional_network_types := ["walk"] |}.

(** a -> b -> c, one way. *)
Definition chain_graph : graph :=
  Graph [("crs", VStr "epsg:4326")]
        [("a", [("x", VNum 0); ("y", VNum 0)]);
         ("b", [("x", VNum 0.5); ("y", VNum 0.5)]);
         ("c", [("x", VNum 2); ("y", VNum 2)])]
        [Edge 0 "a" "b" [("length", VNum 1)]; Edge 1 "b" "c" [("length", VNum 1)]]
        2.


(** One node without coordinates, and one node with a latitude only. *)
Definition no_coordinates : graph := Graph [] [("n1", [])] [] 0.
Definition latitude_only : graph := Graph [] [("n1", [("y", VNum 5)])] [] 0.


(** A detour that pays: the second edge of the route through [C] has a
    negative weight. *)
Definition detour : graph :=
  Graph [] [("A", []); ("B", []); ("C", []); ("D", [])]
        [Edge 0 "A" "B" [("length", VNum 1)]; Edge 1 "B" "D" [("length", VNum 1)];
         Edge 2 "A" "C" [("length", VNum 5)]; Edge 3 "C" "D" [("length", VNum (-10))]]
        4.


(** ** GraphML codec: booleans and markup (simplification.ts) *)

(** [_convert_bool_string]; [None] stands for the error it throws
    ("Invalid literal for boolean"). *)
Definition _convert_bool_string (value : value) : option bool :=
  match value with
  | VBool b => Some b
  | VStr s =>
      if String.eqb s "True" || String.eqb s "true" then Some true
      else if String.eqb s "False" || String.eqb s "false" then Some false
      else None
  | _ => None
  end.

Definition escape_char (c : ascii) : string :=
  if Ascii.eqb c "<" then "&lt;"
  else if Ascii.eqb c ">" then "&gt;"
  else if Ascii.eqb c "&" then "&amp;"
  else if Ascii.eqb c "'" then "&apos;"
  else if Ascii.eqb c (ascii_of_nat 34) then "&quot;"
  else String c EmptyString.

(** [escapeXML]: every markup character is replaced by its entity. *)
Fixpoint escapeXML (str : string) : string :=
  match str with
  | EmptyString => ""
  | String c r => escape_char c +:+ escapeXML r
  end.

(** Whether a character occurs in a text. *)
Fixpoint occurs (c : ascii) (s : string) : bool :=
  match s with
  | EmptyString => false
  | String c' r => Ascii.eqb c c' || occurs c r
  end.

(** ** Routing: what a path is made of *)

(** The consecutive pairs of a path. *)
Fixpoint steps (l : list string) : list (string * string) :=
  match l with
  | u :: (v :: _) as r => (u, v) :: steps r
  | _ => []
  end.


Section EdgeWeight.
Context `{Runtime}.


End EdgeWeight.

(** ** Connectivity *)

(** Two nodes joined by an edge, in one direction or the other. *)
Definition linked (G : graph) (u v : string) : Prop :=
  exists e, e ∈ g_edges G
    /\ ((e_src e = u /\ e_tgt e = v) \/ (e_src e = v /\ e_tgt e = u)).

(** ** Consolidation: the nodes of the result *)




(** ** Builder: what the responses hold and what a path becomes *)

Definition response_node (rs : list (list element)) (id : Z) (lat lon : float)
    (tags : option (list (string * string))) : Prop :=
  exists r, r ∈ rs /\ OSMNode id lat lon tags ∈ r.

Definition response_way (rs : list (list element)) (id : Z) (nds : list Z)
    (tags : option (list (string * string))) : Prop :=
  exists r, r ∈ rs /\ OSMWay id nds tags ∈ r.

(** The nodes and paths collected from the responses, as the first loop of
    [_create_graph] leaves them when the cache-only mode is off. *)
Definition collect_elements (settings : Settings) (response_jsons : list (list element))
  : list (string * attrs) * list (string * path) :=
  fold_left (fun (acc : list (string * attrs) * list (string * path)) response_json =>
               let '(nodes_temp, paths_temp) := _parse_nodes_paths settings response_json in
               (obj_assign (fst acc) nodes_temp, obj_assign (snd acc) paths_temp))
            response_jsons ([], []).

Section PathEdges.
Context (settings : Settings) (bidirectional : bool) (p : path).

Definition path_one_way : bool :=
  _is_path_one_way settings (path_attrs p) bidirectional oneway_values.

(** The node sequence in the order the edges are emitted. *)
Definition path_order : list Z :=
  if path_one_way && _is_path_reversed (path_attrs p) reversed_values
  then rev (path_nodes p) else path_nodes p.

(** The attributes of the path when its edges are emitted, without the
    flag [reversed]. *)
Definition path_base : attrs :=
  if negb (all_oneway settings)
  then obj_set "oneway" (VBool path_one_way) (path_attrs p) else path_attrs p.

Definition forward_attrs : attrs :=
  obj_spread (obj_set "reversed" (VBool false) path_base).
Definition backward_attrs : attrs :=
  obj_spread (obj_set "reversed" (VBool true)
                (obj_set "reversed" (VBool false) path_base)).

(** Ends and attributes of the edges of the path, in the order they are
    added. *)
Definition path_triples : list (string * string * attrs) :=
  map (fun uv => (id_key (fst uv), id_key (snd uv), forward_attrs))
      (consecutive path_order)
  ++ (if negb path_one_way
      then map (fun uv => (id_key (snd uv), id_key (fst uv), backward_attrs))
               (consecutive path_order)
      else []).
End PathEdges.

Definition edge_triple (e : edge) : string * string * attrs :=
  (e_src e, e_tgt e, e_attrs e).

(** Edge keys are below the next key and pairwise distinct. *)
Definition keys_fresh (G : graph) : Prop :=
  NoDup (map e_key (g_edges G))
  /\ forall e, e ∈ g_edges G -> e_key e < g_next_key G.

(** An object keyed by identifiers holds exactly the values [src] gives. *)
Definition keyed {V} (src : Z -> V -> Prop) (o : list (string * V)) : Prop :=
  NoDup (map fst o)
  /\ (forall k v, obj_get k o = Some v -> exists id, src id v /\ k = id_key id)
  /\ (forall id v, src id v -> is_Some (obj_get (id_key id) o)).

Definition node_source (settings : Settings) (rs : list (list element))
    (id : Z) (a : attrs) : Prop :=
  exists lat lon tags,
    response_node rs id lat lon tags /\ a = _convert_node settings lat lon tags.

Definition way_source (settings : Settings) (rs : list (list element))
    (id : Z) (p : path) : Prop :=
  exists nds tags,
    response_way rs id nds tags /\ p = _convert_path settings id nds tags.

Section Stamped.
Context `{Runtime} `{MathLib}.

(** The edge once [add_edge_lengths] has visited it. *)
Definition stamped (G : graph) (e : edge) : edge :=
  match getNodeAttributes G (e_src e), getNodeAttributes G (e_tgt e) with
  | Ok uNode, Ok vNode =>
      if is_defined (attr uNode "y") && is_defined (attr uNode "x")
         && is_defined (attr vNode "y") && is_defined (attr vNode "x")
      then Edge (e_key e) (e_src e) (e_tgt e)
                (obj_set "length"
                   (VNum (great_circle (to_number (attr uNode "y"))
                                       (to_number (attr uNode "x"))
                                       (to_number (attr vNode "y"))
                                       (to_number (attr vNode "x"))))
                   (e_attrs e))
      else e
  | _, _ => e
  end.
End Stamped.

(** Two nodes and a two-way street between them, as one response. *)
Definition two_way_response : list element :=
  [ OSMNode 1 0%float 0%float None;
    OSMNode 2 0%float 1%float None;
    OSMWay 7 [1; 2]%Z (Some [("highway", "residential")]) ].

(** ** Truncation by network distance (truncate.ts) *)


Section TruncateDist.
Context `{Runtime}.






End TruncateDist.



(** ** Statistics: street segments (stats.ts) *)

(** [u < v ? `${u}|${v}` : `${v}|${u}`] *)
Definition segment_key (u v : string) : string :=
  if String.ltb u v then u +:+ "|" +:+ v else v +:+ "|" +:+ u.

(** Count undirected street segments (reciprocal directed edges count
    once). *)
Definition street_segment_count (G : graph) : nat :=
  snd (fold_left (fun (st : list string * nat) e =>
                    let key := segment_key (e_src e) (e_tgt e) in
                    if negb (set_has key (fst st))
                    then (set_add key (fst st), S (snd st))
                    else st)
                 (g_edges G) ([], 0)).

(** Two edges between the same two nodes, in the same direction or not. *)
Definition same_segment (e1 e2 : edge) : Prop :=
  (e_src e1 = e_src e2 /\ e_tgt e1 = e_tgt e2)
  \/ (e_src e1 = e_tgt e2 /\ e_tgt e1 = e_src e2).


(** A street between two nodes: two parallel edges one way, one edge back. *)
Definition two_way_street : graph :=
  Graph [] [("a", []); ("b", [])]
        [Edge 0 "a" "b" []; Edge 1 "b" "a" []; Edge 2 "a" "b" []] 3.

(** ** Conversion to a graph without parallel edges *)

Section ToDigraph.
Context `{Runtime}.






End ToDigraph.


(** The state of the conversion once the pairs [done] have been treated:
    the keys recorded are theirs, and the new graph has one edge for each
    of them that is joined in [G], copied from the edge the scan of the
    parallel edges picks. *)
Section DigraphInv.
Context `{Runtime}.

End DigraphInv.

(** ** Validation of a graph *)

(** [validate_graph] returns nothing or throws with the messages joined. *)
Inductive verdict : Type :=
| Valid
| Invalid (messages : list string).

Definition is_number (v : value) : bool :=
  match v with VNum _ => true | _ => false end.

(** [isNaN(v)] for a value that is a number. *)
Definition number_is_nan (v : value) : bool :=
  match v with VNum x => PrimFloat.is_nan x | _ => false end.

Definition count_where {A} (p : A -> bool) (l : list A) : nat :=
  length (List.filter p l).

Section Validate.
Context `{Runtime}.
(** [Number.isInteger], which the model of numbers leaves open. *)
Variable number_is_integer : float -> bool.

Definition validate_graph (G : graph) (strict : bool) : verdict :=
  (* Validate graph structure *)
  let errors1 :=
    (if Nat.eqb (order G) 0 then ["G must have at least 1 node."] else [])
    ++ (if Nat.eqb (size G) 0 then ["G must have at least 1 edge."] else []) in
  (* Validate CRS attribute *)
  let errors2 :=
    errors1 ++ (if negb (truthy (getAttribute G "crs"))
                then ["G must have a 'crs' attribute."] else []) in
  (* Validate nodes *)
  let missing_xy (na : string * attrs) :=
    negb (is_defined (attr (snd na) "x")) || negb (is_defined (attr (snd na) "y")) in
  let missingXY := count_where missing_xy (g_nodes G) in
  let invalidXY :=
    count_where (fun na => negb (missing_xy na)
                           && (negb (is_number (attr (snd na) "x"))
                               || negb (is_number (attr (snd na) "y"))
                               || number_is_nan (attr (snd na) "x")
                               || number_is_nan (attr (snd na) "y")))
                (g_nodes G) in
  let missingStreetCount :=
    count_where (fun na => negb (is_defined (attr (snd na) "street_count")))
                (g_nodes G) in
  let nonIntNodeIds :=
    count_where (fun na => negb (number_is_integer (string_to_number (fst na))))
                (g_nodes G) in
  let node_checks := Nat.ltb 0 (order G) in
  let errors3 :=
    errors2 ++ (if node_checks && Nat.ltb 0 missingXY
                then ["Nodes must have 'x' and 'y' data attributes."] else []) in
  let warnings1 :=
    (if node_checks && Nat.ltb 0 invalidXY
     then ["Node 'x' and 'y' data attributes should be numeric."] else [])
    ++ (if node_checks && Nat.ltb 0 missingStreetCount
        then ["Nodes should have 'street_count' data attributes."] else [])
    ++ (if node_checks && Nat.ltb 0 nonIntNodeIds
        then ["Node IDs should be type int."] else []) in
  (* Validate edges *)
  let missing_osmid (e : edge) := negb (is_defined (attr (e_attrs e) "osmid")) in
  let missing_length (e : edge) := negb (is_defined (attr (e_attrs e) "length")) in
  let missingOsmid := count_where missing_osmid (g_edges G) in
  let invalidOsmid :=
    count_where (fun e => negb (missing_osmid e)
                          && negb (is_number (attr (e_attrs e) "osmid"))
                          && negb (match attr (e_attrs e) "osmid" with
                                   | VArr _ => true
                                   | _ => false
                                   end))
                (g_edges G) in
  let missingLength := count_where missing_length (g_edges G) in
  let invalidLength :=
    count_where (fun e => negb (missing_length e)
                          && (negb (is_number (attr (e_attrs e) "length"))
                              || number_is_nan (attr (e_attrs e) "length")))
                (g_edges G) in
  let edge_checks := Nat.ltb 0 (size G) in
  let errors4 :=
    errors3
    ++ (if edge_checks && Nat.ltb 0 missingOsmid
        then ["Edges must have 'osmid' data attributes."] else [])
    ++ (if edge_checks && Nat.ltb 0 missingLength
        then ["Edges must have 'length' data attributes."] else []) in
  let warnings :=
    warnings1
    ++ (if edge_checks && Nat.ltb 0 invalidOsmid
        then ["Edge 'osmid' data attributes should be type int or list[int]."] else [])
    ++ (if edge_checks && Nat.ltb 0 invalidLength
        then ["Edge 'length' data attributes should be numeric."] else []) in
  (* Report results *)
  let errors := if strict then errors4 ++ warnings else errors4 in
  match errors with
  | [] => Valid
  | _ => Invalid errors
  end.

End Validate.

(** * Properties *)

(** ** Dictionaries and sets *)

Ltac eqb_case a b :=
  let E := fresh "E" in
  destruct (String.eqb a b) eqn:E;
  [apply String.eqb_eq in E; try subst | apply String.eqb_neq in E].

Section ObjFacts.
Context {V : Type}.
Implicit Types (o : list (string * V)) (k : string) (v : V).

Lemma obj_has_get k o : obj_has k o = true <-> is_Some (obj_get k o).
Proof.
  unfold obj_has. destruct (obj_get k o); split; intros Hx; eauto.
  - discriminate.
  - destruct Hx; discriminate.
Qed.

Lemma obj_get_elem_of k o : is_Some (obj_get k o) <-> k ∈ map fst o.
Proof.
  induction o as [|[k' v'] r IH]; simpl.
  - split; [intros [? ?]; discriminate | intros Hx; inversion Hx].
  - eqb_case k k'.
    + split; [intros _; constructor | eauto].
    + rewrite IH. split; [by constructor|].
      intros Hx. inversion Hx; subst; [congruence | done].
Qed.

Lemma obj_has_elem_of k o : obj_has k o = true <-> k ∈ map fst o.
Proof. rewrite obj_has_get. apply obj_get_elem_of. Qed.

Lemma obj_has_false k o : obj_has k o = false <-> k ∉ map fst o.
Proof.
  rewrite <- obj_has_elem_of. destruct (obj_has k o); split; congruence.
Qed.

Lemma obj_get_replace_eq k v o :
  is_Some (obj_get k o) -> obj_get k (obj_replace k v o) = Some v.
Proof.
  induction o as [|[k' v'] r IH]; simpl; intros Hs.
  - destruct Hs; discriminate.
  - eqb_case k k'; simpl.
    + by rewrite String.eqb_refl.
    + apply String.eqb_neq in E. rewrite E. by apply IH.
Qed.

Lemma obj_get_replace_ne k k' v o :
  k <> k' -> obj_get k' (obj_replace k v o) = obj_get k' o.
Proof.
  intros Hne. induction o as [|[k2 v2] r IH]; simpl; [done|].
  eqb_case k k2; simpl.
  - apply not_eq_sym in Hne. apply String.eqb_neq in Hne. by rewrite Hne.
  - by rewrite IH.
Qed.

Lemma obj_replace_keys k v o : map fst (obj_replace k v o) = map fst o.
Proof.
  induction o as [|[k2 v2] r IH]; simpl; [done|].
  eqb_case k k2; simpl; [done | by rewrite IH].
Qed.

Lemma obj_get_place_index_eq i k v o :
  obj_get k o = None -> obj_get k (obj_place_index i k v o) = Some v.
Proof.
  induction o as [|[k2 v2] r IH]; simpl; intros Hn.
  - by rewrite String.eqb_refl.
  - destruct (String.eqb k k2) eqn:E; [discriminate|].
    destruct (array_index k2) as [j|]; [destruct (j <? i)%N|]; simpl;
      rewrite ?E, ?String.eqb_refl; auto.
Qed.

Lemma obj_get_place_index_ne i k k' v o :
  k <> k' -> obj_get k' (obj_place_index i k v o) = obj_get k' o.
Proof.
  intros Hne. apply not_eq_sym in Hne. apply String.eqb_neq in Hne.
  induction o as [|[k2 v2] r IH]; simpl.
  - by rewrite Hne.
  - destruct (array_index k2) as [j|]; [destruct (j <? i)%N|]; simpl;
      rewrite ?Hne, ?IH; auto.
Qed.

Lemma obj_place_index_perm i k v o : obj_place_index i k v o ≡ₚ (k, v) :: o.
Proof.
  induction o as [|[k2 v2] r IH]; simpl; [done|].
  destruct (array_index k2) as [j|]; [destruct (j <? i)%N|]; try done.
  rewrite IH. apply Permutation_swap.
Qed.

Lemma obj_get_app_None k o o' :
  obj_get k o = None -> obj_get k (o ++ o') = obj_get k o'.
Proof.
  induction o as [|[k2 v2] r IH]; simpl; [done|].
  destruct (String.eqb k k2); [discriminate | auto].
Qed.

Lemma obj_get_app_Some k o o' v :
  obj_get k o = Some v -> obj_get k (o ++ o') = Some v.
Proof.
  induction o as [|[k2 v2] r IH]; simpl; [done|].
  destruct (String.eqb k k2); auto.
Qed.

Lemma obj_get_set_eq k v o : obj_get k (obj_set k v o) = Some v.
Proof.
  unfold obj_set. destruct (obj_has k o) eqn:Hh.
  - apply obj_get_replace_eq. by apply obj_has_get.
  - assert (obj_get k o = None) as Hn.
    { unfold obj_has in Hh. by destruct (obj_get k o). }
    destruct (array_index k).
    + by apply obj_get_place_index_eq.
    + rewrite obj_get_app_None by done. simpl. by rewrite String.eqb_refl.
Qed.

Lemma obj_get_set_ne k k' v o : k <> k' -> obj_get k' (obj_set k v o) = obj_get k' o.
Proof.
  intros Hne. unfold obj_set. destruct (obj_has k o) eqn:Hh.
  - by apply obj_get_replace_ne.
  - destruct (array_index k).
    + by apply obj_get_place_index_ne.
    + destruct (obj_get k' o) eqn:Hg.
      * by apply obj_get_app_Some.
      * rewrite obj_get_app_None by done. simpl.
        apply not_eq_sym in Hne. apply String.eqb_neq in Hne. by rewrite Hne.
Qed.

Lemma obj_get_set k k' v o :
  obj_get k' (obj_set k v o) = if decide (k = k') then Some v else obj_get k' o.
Proof.
  case_decide; [subst; apply obj_get_set_eq | by apply obj_get_set_ne].
Qed.

(** The keys after an assignment: unchanged for a known key, one more
    otherwise. *)
Lemma obj_set_keys_known k v o :
  obj_has k o = true -> map fst (obj_set k v o) = map fst o.
Proof. intros Hh. unfold obj_set. rewrite Hh. apply obj_replace_keys. Qed.

Lemma obj_set_keys_fresh k v o :
  obj_has k o = false -> map fst (obj_set k v o) ≡ₚ k :: map fst o.
Proof.
  intros Hh. unfold obj_set. rewrite Hh. destruct (array_index k).
  - change (k :: map fst o) with (map fst ((k, v) :: o)).
    apply fmap_Permutation, obj_place_index_perm.
  - rewrite map_app. simpl. symmetry. apply Permutation_cons_append.
Qed.

Lemma obj_set_elem_of k k' v o :
  k' ∈ map fst (obj_set k v o) <-> k' = k \/ k' ∈ map fst o.
Proof.
  rewrite <- !obj_get_elem_of, obj_get_set. case_decide; subst.
  - split; [auto | by eauto].
  - split; [auto | intros [?|?]; [congruence | done]].
Qed.

Lemma obj_set_NoDup k v o : NoDup (map fst o) -> NoDup (map fst (obj_set k v o)).
Proof.
  intros Hnd. destruct (obj_has k o) eqn:Hh.
  - by rewrite obj_set_keys_known.
  - rewrite obj_set_keys_fresh by done. constructor; [|done].
    by apply obj_has_false.
Qed.

Lemma obj_delete_keys k o :
  NoDup (map fst o) -> forall k', k' ∈ map fst (obj_delete k o) <-> k' <> k /\ k' ∈ map fst o.
Proof.
  induction o as [|[k2 v2] r IH]; simpl; intros Hnd k'.
  - split; [intros Hx; inversion Hx | intros [_ Hx]; inversion Hx].
  - inversion Hnd as [|? ? Hnotin Hnd']; subst.
    eqb_case k k2.
    + split.
      * intros Hin. split; [intros ->; done | by constructor].
      * intros [Hne Hin]. inversion Hin; subst; [done | done].
    + simpl. rewrite !elem_of_cons, IH by done. split.
      * intros [-> |[? ?]]; split; auto.
      * intros [Hne [-> |Hin]]; auto.
Qed.

Lemma obj_delete_NoDup k o : NoDup (map fst o) -> NoDup (map fst (obj_delete k o)).
Proof.
  induction o as [|[k2 v2] r IH]; simpl; intros Hnd; [done|].
  inversion Hnd as [|? ? Hnotin Hnd']; subst.
  eqb_case k k2; [done|]. simpl. constructor; [|by apply IH].
  intros Hin. apply obj_delete_keys in Hin; [|done]. by destruct Hin.
Qed.


End ObjFacts.

Lemma set_has_elem_of x s : set_has x s = true <-> x ∈ s.
Proof.
  unfold set_has. rewrite existsb_exists. split.
  - intros [y [Hin Heq]]. apply String.eqb_eq in Heq. subst.
    by apply list_elem_of_In.
  - intros Hin. exists x. split; [by apply list_elem_of_In | apply String.eqb_refl].
Qed.

Lemma set_has_false x s : set_has x s = false <-> x ∉ s.
Proof. rewrite <- set_has_elem_of. destruct (set_has x s); split; congruence. Qed.

Lemma set_add_elem_of x y s : y ∈ set_add x s <-> y = x \/ y ∈ s.
Proof.
  unfold set_add. destruct (set_has x s) eqn:Hh.
  - apply set_has_elem_of in Hh. split; [auto | intros [-> |?]; done].
  - rewrite elem_of_app, list_elem_of_singleton. tauto.
Qed.

Lemma set_add_NoDup x s : NoDup s -> NoDup (set_add x s).
Proof.
  intros Hnd. unfold set_add. destruct (set_has x s) eqn:Hh; [done|].
  apply set_has_false in Hh. apply NoDup_app. split; [done|]. split.
  - intros y Hy Hin. apply list_elem_of_singleton in Hin. by subst.
  - apply NoDup_singleton.
Qed.

Lemma set_fold_elem_of l s y :
  y ∈ fold_left (fun acc x => set_add x acc) l s <-> y ∈ l \/ y ∈ s.
Proof.
  revert s. induction l as [|x r IH]; intros s; simpl.
  - split; [auto | intros [Hx|?]; [inversion Hx | done]].
  - rewrite IH, set_add_elem_of, elem_of_cons. tauto.
Qed.

Lemma set_fold_NoDup l s :
  NoDup s -> NoDup (fold_left (fun acc x => set_add x acc) l s).
Proof.
  revert s. induction l as [|x r IH]; intros s Hnd; simpl; [done|].
  by apply IH, set_add_NoDup.
Qed.

Lemma set_of_list_elem_of l y : y ∈ set_of_list l <-> y ∈ l.
Proof.
  unfold set_of_list. rewrite set_fold_elem_of. split; [|auto].
  intros [?|Hx]; [done | inversion Hx].
Qed.

Lemma set_of_list_NoDup l : NoDup (set_of_list l).
Proof. apply set_fold_NoDup. constructor. Qed.

Lemma set_has_set_of_list x l : set_has x (set_of_list l) = set_has x l.
Proof.
  destruct (set_has x l) eqn:Hh.
  - apply set_has_elem_of, set_of_list_elem_of, set_has_elem_of, Hh.
  - apply set_has_false. rewrite set_of_list_elem_of. by apply set_has_false.
Qed.

Lemma key_fold_elem_of (l : list string) (o : list (string * unit)) y :
  y ∈ map fst (fold_left (fun acc k => obj_set k tt acc) l o)
  <-> y ∈ l \/ y ∈ map fst o.
Proof.
  revert o. induction l as [|x r IH]; intros o; simpl.
  - split; [auto | intros [Hx|?]; [inversion Hx | done]].
  - rewrite IH, obj_set_elem_of, elem_of_cons. tauto.
Qed.


Lemma key_order_elem_of l y : y ∈ key_order l <-> y ∈ l.
Proof.
  unfold key_order, obj_keys. rewrite key_fold_elem_of. split; [|auto].
  intros [?|Hx]; [done | inversion Hx].
Qed.


(** Two duplicate-free lists with the same members have the same length. *)
Lemma NoDup_same_length (l1 l2 : list string) :
  NoDup l1 -> NoDup l2 -> (forall x, x ∈ l1 <-> x ∈ l2) -> length l1 = length l2.
Proof. intros H1 H2 Heq. apply Permutation_length, NoDup_Permutation; done. Qed.

(** ** Number comparisons *)

Lemma SFcompare_antisym (a b : spec_float) (c : comparison) :
  SFcompare a b = Some c -> SFcompare b a = Some (CompOpp c).
Proof.
  destruct a as [sa|sa| |sa ma ea], b as [sb|sb| |sb mb eb]; simpl;
    try discriminate; intros [= <-];
    try (destruct sa; reflexivity); try (destruct sb; reflexivity);
    try (destruct sa, sb; reflexivity).
  destruct sa, sb; try reflexivity.
  - rewrite (Z.compare_antisym ea eb). destruct (ea ?= eb)%Z; simpl; try reflexivity.
    f_equal. pose proof (Pos.compare_cont_antisym ma mb Eq) as Hp. simpl in Hp.
    by rewrite <- Hp.
  - rewrite (Z.compare_antisym ea eb). destruct (ea ?= eb)%Z; simpl; try reflexivity.
    f_equal. pose proof (Pos.compare_cont_antisym ma mb Eq) as Hp. simpl in Hp.
    by rewrite <- Hp.
Qed.

Lemma is_nan_spec (x : float) : PrimFloat.is_nan x = false -> Prim2SF x <> S754_nan.
Proof.
  unfold PrimFloat.is_nan. intros Heq Hnan.
  apply negb_false_iff in Heq. rewrite FloatAxioms.eqb_spec, Hnan in Heq. discriminate.
Qed.

Lemma SFcompare_defined (a b : spec_float) :
  a <> S754_nan -> b <> S754_nan -> exists c, SFcompare a b = Some c.
Proof. destruct a, b; simpl; intros Ha Hb; try congruence; eauto. Qed.

(** Among numbers other than NaN, "not less" is "greater or equal". *)
Lemma not_lt_le (a b : float) :
  PrimFloat.is_nan a = false -> PrimFloat.is_nan b = false ->
  js_lt a b = false -> js_le b a = true.
Proof.
  unfold js_lt, js_le. rewrite FloatAxioms.ltb_spec, FloatAxioms.leb_spec. intros Ha Hb.
  apply is_nan_spec in Ha, Hb.
  destruct (SFcompare_defined _ _ Ha Hb) as [c Hc].
  unfold SFltb, SFleb. rewrite Hc, (SFcompare_antisym _ _ _ Hc).
  destruct c; simpl; done.
Qed.

Lemma nan_lt (x : float) : js_lt nan x = false.
Proof. unfold js_lt. rewrite FloatAxioms.ltb_spec. reflexivity. Qed.

Lemma lt_nan (x : float) : js_lt x nan = false.
Proof.
  unfold js_lt. rewrite FloatAxioms.ltb_spec. unfold SFltb.
  change (Prim2SF nan) with S754_nan. by destruct (Prim2SF x).
Qed.

Lemma nan_gt (x : float) : js_gt nan x = false.
Proof. apply lt_nan. Qed.

(** ** The endpoint predicate *)

Lemma filter_eqb_src (n : string) (l : list edge) :
  filter (fun e => String.eqb (e_src e) n) l = filter (fun e => e_src e = n) l.
Proof.
  apply list_filter_iff. intros e. split.
  - intros Hx. apply Is_true_true in Hx. by apply String.eqb_eq.
  - intros ->. apply Is_true_true, String.eqb_refl.
Qed.

Lemma filter_eqb_tgt (n : string) (l : list edge) :
  filter (fun e => String.eqb (e_tgt e) n) l = filter (fun e => e_tgt e = n) l.
Proof.
  apply list_filter_iff. intros e. split.
  - intros Hx. apply Is_true_true in Hx. by apply String.eqb_eq.
  - intros ->. apply Is_true_true, String.eqb_refl.
Qed.

Lemma in_edges_spec G n : in_edges G n = filter (fun e => e_tgt e = n) (g_edges G).
Proof. apply filter_eqb_tgt. Qed.

Lemma out_edges_spec G n : out_edges G n = filter (fun e => e_src e = n) (g_edges G).
Proof. apply filter_eqb_src. Qed.

Lemma elem_of_map_iff {A B} (f : A -> B) (l : list A) (y : B) :
  y ∈ map f l <-> exists x, x ∈ l /\ y = f x.
Proof.
  rewrite list_elem_of_In, in_map_iff. split.
  - intros [x [Hx Hin]]. exists x. split; [by apply list_elem_of_In | done].
  - intros [x [Hin Hx]]. exists x. split; [done | by apply list_elem_of_In].
Qed.

(** The node is among its own neighbours exactly when it carries a loop. *)
Lemma self_neighbour_iff G n :
  n ∈ map e_src (in_edges G n) ++ map e_tgt (out_edges G n) <-> spec_has_self_loop G n.
Proof.
  rewrite in_edges_spec, out_edges_spec, elem_of_app, !elem_of_map_iff.
  unfold spec_has_self_loop. split.
  - intros [[e [He Hn]]|[e [He Hn]]]; apply list_elem_of_filter in He as [Ht Hin];
      exists e; auto.
  - intros [e [Hin [Hs Ht]]]. left. exists e. split; [|done].
    apply list_elem_of_filter. auto.
Qed.

(** C5: the endpoint predicate of the simplifier is the rule of the
    specification.  For a node of the graph the predicate returns; it answers
    true when the node has a self-loop, no incoming edge or no outgoing edge;
    otherwise it answers false (interstitial) exactly when the node has two
    distinct neighbours and total degree 2 or 4. *)
Theorem is_endpoint_meets_spec (G : graph) (n : string) :
  hasNode G n = true ->
  exists b, _is_endpoint G n = Ok b
    /\ (spec_has_self_loop G n \/ spec_in_degree G n = 0 \/ spec_out_degree G n = 0
        -> b = true)
    /\ (~ spec_has_self_loop G n -> spec_in_degree G n <> 0 -> spec_out_degree G n <> 0
        -> (b = false <-> spec_interstitial G n)).
Proof.
  intros Hn.
  unfold _is_endpoint, inNeighbors, outNeighbors, degree, inDegree, outDegree,
    require_node. rewrite Hn. simpl.
  set (nb := set_of_list (key_order (map e_src (in_edges G n))
                          ++ key_order (map e_tgt (out_edges G n)))).
  assert (Hmem : forall m, m ∈ nb <->
            m ∈ map e_src (in_edges G n) ++ map e_tgt (out_edges G n)).
  { intros m. unfold nb. rewrite set_of_list_elem_of, !elem_of_app, !key_order_elem_of.
    tauto. }
  assert (Hin : length (in_edges G n) = spec_in_degree G n).
  { unfold spec_in_degree. by rewrite in_edges_spec. }
  assert (Hout : length (out_edges G n) = spec_out_degree G n).
  { unfold spec_out_degree. by rewrite out_edges_spec. }
  destruct (set_has n nb) eqn:Hself.
  - apply set_has_elem_of, Hmem, self_neighbour_iff in Hself.
    exists true. split; [done|]. split; [done|]. intros Hno. done.
  - apply set_has_false in Hself. rewrite Hmem, self_neighbour_iff in Hself.
    rewrite Hin, Hout.
    destruct (Nat.eqb_spec (spec_in_degree G n) 0) as [Hi|Hi]; simpl.
    { exists true. split; [done|]. split; [done|]. intros _ Hx. done. }
    destruct (Nat.eqb_spec (spec_out_degree G n) 0) as [Ho|Ho]; simpl.
    { exists true. split; [done|]. split; [done|]. intros _ _ Hx. done. }
    assert (Hlen : length nb = length (spec_neighbours G n)).
    { apply NoDup_same_length.
      - apply set_of_list_NoDup.
      - apply NoDup_remove_dups.
      - intros m. rewrite Hmem. unfold spec_neighbours.
        rewrite elem_of_remove_dups, list_elem_of_filter,
          <- in_edges_spec, <- out_edges_spec.
        split; [|tauto]. intros Hm. split; [|done].
        intros ->. by apply Hself, self_neighbour_iff. }
    rewrite Hlen. fold (spec_total_degree G n).
    unfold spec_interstitial.
    destruct (Nat.eqb_spec (length (spec_neighbours G n)) 2) as [HN|HN];
      destruct (Nat.eqb_spec (spec_total_degree G n) 2) as [HD2|HD2];
      destruct (Nat.eqb_spec (spec_total_degree G n) 4) as [HD4|HD4]; simpl;
      eexists; (split; [reflexivity|]);
      (split; [intros [?|[?|?]]; done|]); intros _ _ _;
      split; try done; try tauto; intros [? [?|?]]; done.
Qed.

(** ** Streets per node *)










(** ** Graph operations *)

Lemma hasNode_elem_of G n : hasNode G n = true <-> n ∈ nodes G.
Proof. apply obj_has_elem_of. Qed.

Lemma hasNode_false G n : hasNode G n = false <-> n ∉ nodes G.
Proof. apply obj_has_false. Qed.

Lemma obj_get_In {V} (k : string) (v : V) (o : list (string * V)) :
  NoDup (map fst o) -> (obj_get k o = Some v <-> (k, v) ∈ o).
Proof.
  induction o as [|[k2 v2] r IH]; simpl; intros Hnd.
  - split; [done | intros Hx; inversion Hx].
  - inversion Hnd as [|? ? Hnotin Hnd']; subst. rewrite elem_of_cons.
    eqb_case k k2.
    + split; [intros [= ->]; by left|].
      intros [[= ->]|Hin]; [done|]. exfalso. apply Hnotin.
      apply elem_of_map_iff. by exists (k2, v).
    + rewrite IH by done. split; [auto|]. intros [[= -> ->]|?]; done.
Qed.

Lemma filter_keep_all {A} (P : A -> Prop) `{forall x, Decision (P x)} (l : list A) :
  (forall x, x ∈ l -> P x) -> filter P l = l.
Proof.
  induction l as [|x r IH]; intros Hall; [done|].
  rewrite filter_cons, decide_True by (apply Hall; constructor).
  f_equal. apply IH. intros y Hy. apply Hall. by constructor.
Qed.

Lemma obj_delete_filter {V} (k : string) (o : list (string * V)) :
  NoDup (map fst o) -> obj_delete k o = filter (fun kv => fst kv <> k) o.
Proof.
  induction o as [|[k2 v2] r IH]; simpl; intros Hnd; [done|].
  inversion Hnd as [|? ? Hnotin Hnd']; subst. rewrite filter_cons. simpl.
  eqb_case k k2.
  - rewrite decide_False by (intros Hx; done).
    symmetry. apply filter_keep_all. intros [k3 v3] Hin. simpl. intros Heq.
    apply Hnotin, elem_of_map_iff. eexists. split; [exact Hin | done].
  - rewrite decide_True by (intros Hx; done). f_equal. by apply IH.
Qed.

Lemma dropNode_nodes G n G' :
  NoDup (nodes G) -> dropNode G n = Ok G' ->
  g_nodes G' = filter (fun na => fst na <> n) (g_nodes G)
  /\ g_edges G' = filter (fun e => negb (touches n e)) (g_edges G)
  /\ g_attrs G' = g_attrs G.
Proof.
  intros Hnd. unfold dropNode. destruct (hasNode G n); [|done].
  intros [= <-]. simpl. by rewrite obj_delete_filter.
Qed.

Lemma filter_keys_NoDup {V} (P : string * V -> Prop) `{forall x, Decision (P x)}
    (o : list (string * V)) :
  NoDup (map fst o) -> NoDup (map fst (filter P o)).
Proof.
  induction o as [|[k v] r IH]; intros Hnd; [constructor|].
  inversion Hnd as [|? ? Hnotin Hnd']; subst. rewrite filter_cons.
  case_decide; [|by apply IH]. simpl. constructor; [|by apply IH].
  intros Hin. apply Hnotin. apply elem_of_map_iff in Hin as [x [Hx ->]].
  apply list_elem_of_filter in Hx as [_ Hx]. apply elem_of_map_iff. by exists x.
Qed.

Lemma touches_false n e : negb (touches n e) = true <-> e_src e <> n /\ e_tgt e <> n.
Proof.
  unfold touches. rewrite negb_true_iff, orb_false_iff, !String.eqb_neq. done.
Qed.

Lemma dropNode_wf G n G' : wf_graph G -> dropNode G n = Ok G' -> wf_graph G'.
Proof.
  intros [Hnd Hed] Hd. destruct (dropNode_nodes _ _ _ Hnd Hd) as (Hn & He & _).
  split.
  - unfold nodes. rewrite Hn. by apply filter_keys_NoDup.
  - intros e. rewrite He, list_elem_of_filter. intros [Ht Hin].
    apply Is_true_true, touches_false in Ht as [Hs Ht].
    destruct (Hed e Hin) as [H1 H2]. unfold nodes in *. rewrite Hn.
    split.
    + apply elem_of_map_iff in H1 as [[k a] [Hk Hq]]. simpl in Hq. subst k.
      apply elem_of_map_iff. exists (e_src e, a). split; [|done].
      apply list_elem_of_filter. auto.
    + apply elem_of_map_iff in H2 as [[k a] [Hk Hq]]. simpl in Hq. subst k.
      apply elem_of_map_iff. exists (e_tgt e, a). split; [|done].
      apply list_elem_of_filter. auto.
Qed.

Lemma for_each_cons {A S} (body : S -> A -> result S) x r s :
  for_each body (x :: r) s = body s x ≫= for_each body r.
Proof. reflexivity. Qed.

Lemma bind_Ok {A B} (a : A) (f : A -> result B) : Ok a ≫= f = f a.
Proof. reflexivity. Qed.

Lemma dropNode_Ok G n : hasNode G n = true -> exists G', dropNode G n = Ok G'.
Proof. intros Hh. unfold dropNode. rewrite Hh. eauto. Qed.

(** Dropping the nodes of [l] that satisfy [f], whether each drop is guarded
    by a presence test ([guard]) or not: with distinct candidates no drop can
    fail, and exactly the other nodes remain, attributes untouched. *)
Lemma drop_loop (f : string -> bool) (guard : bool) (l : list string) :
  NoDup l ->
  forall G, wf_graph G -> (forall n, n ∈ l -> n ∈ nodes G) ->
  exists G',
    for_each (fun H node =>
                if f node && (negb guard || hasNode H node) then dropNode H node
                else Ok H) l G = Ok G'
    /\ wf_graph G'
    /\ g_nodes G' = filter (fun na => ~ (fst na ∈ l /\ f (fst na) = true)) (g_nodes G)
    /\ g_attrs G' = g_attrs G.
Proof.
  induction l as [|x r IH]; intros Hnd G Hwf Hin.
  - exists G. split; [done|]. split; [done|]. split; [|done].
    symmetry. apply filter_keep_all. intros na _ [Hx _]. inversion Hx.
  - inversion Hnd as [|? ? Hx Hnd']; subst. rewrite for_each_cons.
    assert (hasNode G x = true) as Hhas by (apply hasNode_elem_of, Hin; constructor).
    rewrite Hhas, orb_true_r, andb_true_r.
    destruct (f x) eqn:Ef.
    + destruct (dropNode_Ok G x Hhas) as [G1 Hd]. rewrite Hd, bind_Ok.
      destruct Hwf as [HndG HedG].
      destruct (dropNode_nodes _ _ _ HndG Hd) as (Hn1 & He1 & Ha1).
      destruct (IH Hnd' G1) as (G' & Hrun & Hwf' & Hn' & Ha').
      * by apply (dropNode_wf G x).
      * intros n Hn. unfold nodes. rewrite Hn1.
        assert (n ∈ nodes G) as HnG by (apply Hin; by constructor).
        apply elem_of_map_iff in HnG as [[k a] [Hk Hq]]. simpl in Hq. subst k.
        apply elem_of_map_iff. exists (n, a). split; [|done].
        apply list_elem_of_filter. split; [|done]. simpl. intros ->. done.
      * exists G'. split; [done|]. split; [done|]. split; [|congruence].
        rewrite Hn', Hn1, list_filter_filter. apply list_filter_iff.
        intros [k a]. simpl. rewrite elem_of_cons. split.
        -- intros [Hne Hk] [[-> |Hr] Hf]; [done|]. apply Hne. auto.
        -- intros Hk. split; [|intros ->; apply Hk; auto].
           intros [Hr Hf]. apply Hk. auto.
    + rewrite bind_Ok. destruct (IH Hnd' G Hwf) as (G' & Hrun & Hwf' & Hn' & Ha').
      * intros n Hn. apply Hin. by constructor.
      * exists G'. split; [done|]. split; [done|]. split; [|done].
        rewrite Hn'. apply list_filter_iff. intros [k a]. simpl.
        rewrite elem_of_cons. split.
        -- intros Hk [[-> |Hr] Hf]; [congruence|]. apply Hk. auto.
        -- intros Hk [Hr Hf]. apply Hk. auto.
Qed.

Lemma wf_graphb_sound G : wf_graphb G = true -> wf_graph G.
Proof.
  unfold wf_graphb. rewrite andb_true_iff, forallb_forall.
  intros [Hnd Hed]. split; [by apply bool_decide_eq_true_1 in Hnd|].
  intros e He. apply list_elem_of_In, Hed, andb_true_iff in He.
  by rewrite <- !hasNode_elem_of.
Qed.

Lemma filter_ext_in {A} (P Q : A -> Prop) `{forall x, Decision (P x)}
    `{forall x, Decision (Q x)} (l : list A) :
  (forall x, x ∈ l -> (P x <-> Q x)) -> filter P l = filter Q l.
Proof.
  induction l as [|x r IH]; intros Hext; [done|].
  rewrite !filter_cons.
  assert (filter P r = filter Q r) as -> by (apply IH; intros y Hy; apply Hext; by constructor).
  destruct (decide (P x)) as [Hp|Hp], (decide (Q x)) as [Hq|Hq]; try done;
    exfalso; apply (Hext x) in Hp || apply (Hext x) in Hq; try done; constructor.
Qed.

(** ** Connected components: the search returns *)

Lemma pop_nil {A} : pop (@nil A) = None.
Proof. reflexivity. Qed.

Lemma pop_snoc {A} (l : list A) x : pop (l ++ [x]) = Some (x, l).
Proof. unfold pop. rewrite rev_app_distr. simpl. by rewrite rev_involutive. Qed.

Lemma pop_Some {A} (l l' : list A) x : pop l = Some (x, l') -> l = l' ++ [x].
Proof.
  destruct l as [|y r] using rev_ind; [done|].
  rewrite pop_snoc. by intros [= -> ->].
Qed.

Lemma unvisited_add (l visited : list string) x :
  NoDup l -> x ∈ l -> x ∉ visited ->
  length (filter (fun n => n ∉ visited) l)
  = S (length (filter (fun n => n ∉ set_add x visited) l)).
Proof.
  induction l as [|y r IH]; intros Hnd Hin Hx; [inversion Hin|].
  inversion Hnd as [|? ? Hy Hnd']; subst. rewrite !filter_cons.
  destruct (decide (x = y)) as [-> |Hne].
  - rewrite decide_True by done.
    rewrite decide_False by (rewrite set_add_elem_of; intros Hc; apply Hc; auto).
    simpl. f_equal. f_equal.
    clear IH Hin Hnd Hnd'. induction r as [|z r IHr]; [done|].
    rewrite !filter_cons. rewrite not_elem_of_cons in Hy. destruct Hy as [Hyz Hyr].
    destruct (decide (z ∉ visited)) as [Hz|Hz].
    + rewrite decide_True by (rewrite set_add_elem_of; intros [?|?]; congruence).
      simpl. f_equal. by apply IHr.
    + rewrite decide_False; [by apply IHr|].
      rewrite set_add_elem_of. intros Hc. apply Hz. intros Hzv. apply Hc. auto.
  - apply elem_of_cons in Hin as [?|Hin]; [done|].
    destruct (decide (y ∉ visited)) as [Hz|Hz].
    + rewrite decide_True by (rewrite set_add_elem_of; intros [?|?]; congruence).
      simpl. f_equal. by apply IH.
    + rewrite decide_False; [by apply IH|].
      rewrite set_add_elem_of. intros Hc. apply Hz. intros Hzv. apply Hc. auto.
Qed.

Lemma neighbors_Ok G n :
  wf_graph G -> n ∈ nodes G ->
  exists ns, neighbors G n = Ok ns /\ forall m, m ∈ ns -> m ∈ nodes G.
Proof.
  intros [_ Hed] Hin. apply hasNode_elem_of in Hin.
  unfold neighbors, inNeighbors, outNeighbors, require_node. rewrite Hin. simpl.
  eexists. split; [reflexivity|]. intros m.
  rewrite elem_of_app, list_elem_of_filter, !key_order_elem_of, !elem_of_map_iff.
  intros [[e [He ->]]|[_ [e [He ->]]]]; apply list_elem_of_filter in He as [_ He];
    by apply Hed.
Qed.

(** Marking the neighbours moves nodes from "unvisited" to the stack. *)
Lemma visit_fold G ns :
  NoDup (nodes G) -> (forall n, n ∈ ns -> n ∈ nodes G) ->
  forall visited stack visited' stack',
  fold_left visit_neighbor ns (visited, stack) = (visited', stack') ->
  length stack' + length (unvisited G visited')
  = length stack + length (unvisited G visited)
  /\ ((forall n, n ∈ stack -> n ∈ nodes G) -> forall n, n ∈ stack' -> n ∈ nodes G).
Proof.
  intros Hnd. induction ns as [|x r IH]; intros Hns visited stack visited' stack' Hf.
  - inversion Hf; subst. done.
  - change (fold_left visit_neighbor r (visit_neighbor (visited, stack) x)
            = (visited', stack')) in Hf.
    assert (x ∈ nodes G) as Hx by (apply Hns; constructor).
    assert (forall n, n ∈ r -> n ∈ nodes G) as Hr by (intros n Hn; apply Hns; by constructor).
    unfold visit_neighbor in Hf at 2.
    destruct (set_has x visited) eqn:Hv.
    + by apply IH.
    + apply set_has_false in Hv.
      destruct (IH Hr _ _ _ _ Hf) as [H1 H2]. split.
      * rewrite H1, length_app. simpl. unfold unvisited.
        rewrite (unvisited_add (nodes G) visited x) by done. lia.
      * intros Hs. apply H2. intros n. rewrite elem_of_app, list_elem_of_singleton.
        intros [?| ->]; auto.
Qed.

Lemma component_loop_total G :
  wf_graph G ->
  forall fuel visited stack component,
  (forall n, n ∈ stack -> n ∈ nodes G) ->
  length stack + length (unvisited G visited) <= fuel ->
  exists r, component_loop fuel G visited stack component = Ok r.
Proof.
  intros Hwf. induction fuel as [|fuel IH]; intros visited stack component Hs Hm.
  - destruct stack; [|simpl in Hm; lia]. simpl. eauto.
  - simpl. destruct (pop stack) as [[current stack1]|] eqn:Hp; [|eauto].
    apply pop_Some in Hp. subst stack.
    destruct (neighbors_Ok G current Hwf) as (ns & Hns & Hmem).
    { apply Hs. rewrite elem_of_app, list_elem_of_singleton. auto. }
    rewrite Hns, bind_Ok.
    destruct (fold_left visit_neighbor ns (visited, stack1)) as [v' s'] eqn:Hf.
    destruct (visit_fold G ns (proj1 Hwf) Hmem _ _ _ _ Hf) as [H1 H2].
    apply IH.
    + apply H2. intros n Hn. apply Hs. rewrite elem_of_app. auto.
    + rewrite length_app in Hm. simpl in Hm. lia.
Qed.

Lemma for_each_total {A S} (body : S -> A -> result S) (l : list A) :
  (forall s x, x ∈ l -> exists s', body s x = Ok s') ->
  forall s, exists s', for_each body l s = Ok s'.
Proof.
  induction l as [|x r IH]; intros Hb s; [simpl; eauto|].
  rewrite for_each_cons. destruct (Hb s x) as [s1 H1]; [constructor|].
  rewrite H1, bind_Ok. apply IH. intros s2 y Hy. apply Hb. by constructor.
Qed.

Lemma for_each_ext {A S} (body body' : S -> A -> result S) (l : list A) s :
  (forall s x, body s x = body' s x) -> for_each body l s = for_each body' l s.
Proof.
  intros Hext. revert s. induction l as [|x r IH]; intros s; [done|].
  rewrite !for_each_cons, Hext. destruct (body' s x); [apply IH | done].
Qed.

Lemma unvisited_bound G visited : length (unvisited G visited) <= order G.
Proof.
  unfold unvisited, order, nodes. rewrite <- (length_map fst (g_nodes G)).
  apply length_filter.
Qed.

Lemma weaklyConnectedComponents_total G :
  wf_graph G -> exists cs, weaklyConnectedComponents G = Ok cs.
Proof.
  intros Hwf. unfold weaklyConnectedComponents.
  match goal with |- context [for_each ?b ?l ?s0] =>
    assert (exists r, for_each b l s0 = Ok r) as [r Hr]; [apply for_each_total|] end.
  - intros [visited components] node Hn.
    destruct (set_has node visited) eqn:Hv; [eauto|].
    apply set_has_false in Hv.
    destruct (component_loop_total G Hwf (order G) (set_add node visited) [node] [])
      as [[v c] Hc].
    + intros n Hin. apply list_elem_of_singleton in Hin. by subst.
    + pose proof (unvisited_add (nodes G) visited node (proj1 Hwf) Hn Hv) as Hu.
      pose proof (unvisited_bound G visited) as Hb. unfold unvisited in *.
      simpl. lia.
    + rewrite Hc. simpl. eauto.
  - rewrite Hr. simpl. eauto.
Qed.

(** Keeping the largest component returns a graph whose nodes are nodes of
    the input, attributes untouched. *)
Lemma get_largest_component_sub G :
  wf_graph G ->
  exists G', get_largest_component G = Ok G'
    /\ (forall na, na ∈ g_nodes G' -> na ∈ g_nodes G)
    /\ g_attrs G' = g_attrs G.
Proof.
  intros Hwf. unfold get_largest_component.
  destruct (Nat.eqb (order G) 0); [by exists G|].
  destruct (weaklyConnectedComponents_total G Hwf) as [cs Hcs].
  rewrite Hcs, bind_Ok.
  destruct (Nat.eqb (length cs) 0); [by exists G|].
  set (keep := set_of_list (pick_largest cs)).
  destruct (drop_loop (fun node => negb (set_has node keep)) false (nodes G)
              (proj1 Hwf) G Hwf) as (G' & Hrun & _ & Hn & Ha); [done|].
  exists G'. split.
  - rewrite <- Hrun. apply for_each_ext. intros H node. simpl.
    by rewrite andb_true_r.
  - split; [|done]. intros na. rewrite Hn, list_elem_of_filter. tauto.
Qed.

(** ** Truncation by bounding box *)

Section TruncateFacts.
Context `{Runtime} `{Geometry}.

Lemma outside_undefined bbox a :
  attr a "x" = VUndefined -> attr a "y" = VUndefined -> outside_bbox bbox a = false.
Proof.
  destruct bbox as [[[north south] east] west]. unfold outside_bbox.
  intros -> ->. unfold value_gt, value_lt. simpl.
  by rewrite !nan_gt, !nan_lt.
Qed.

(** With [retain_all] and without [truncate_by_edge], the nodes that remain
    are exactly those that fail the four outside tests. *)
Lemma truncate_retain_all G bbox :
  wf_graph G ->
  exists G', truncate_graph_bbox G bbox false true = Ok G'
    /\ wf_graph G'
    /\ g_nodes G' = filter (fun na => outside_bbox bbox (snd na) = false) (g_nodes G)
    /\ g_attrs G' = g_attrs G.
Proof.
  intros Hwf. unfold truncate_graph_bbox. rewrite bind_Ok.
  set (l := map fst (filter _ (g_nodes G))).
  assert (NoDup l) as Hl by (apply filter_keys_NoDup, Hwf).
  assert (forall n, n ∈ l -> n ∈ nodes G) as Hsub.
  { intros n Hn. apply elem_of_map_iff in Hn as [na [Hna ->]].
    apply list_elem_of_filter in Hna as [_ Hna]. apply elem_of_map_iff. eauto. }
  destruct (drop_loop (fun _ => true) true l Hl G Hwf Hsub)
    as (G' & Hrun & Hwf' & Hn & Ha).
  assert (for_each drop_if_present l G = Ok G') as Hrun2.
  { rewrite <- Hrun. apply for_each_ext. intros Hg node. done. }
  exists G'. split; [|split; [done|split; [|done]]].
  - simpl. fold l. by rewrite Hrun2.
  - rewrite Hn. apply filter_ext_in. intros [n a] Hin. simpl.
    split.
    + intros Hk. destruct (outside_bbox bbox a) eqn:Ho; [|done].
      exfalso. apply Hk. split; [|done]. apply elem_of_map_iff.
      exists (n, a). split; [|done]. apply list_elem_of_filter.
      split; [|done]. simpl. by rewrite Ho.
    + intros Ho [Hk _]. apply elem_of_map_iff in Hk as [[n' a'] [Hk Hq]].
      simpl in Hq. subst n'. apply list_elem_of_filter in Hk as [Ho' Hk].
      simpl in Ho'. assert (a' = a) as ->.
      { destruct Hwf as [Hnd _].
        apply (obj_get_In n a' _ Hnd) in Hk. apply (obj_get_In n a _ Hnd) in Hin.
        congruence. }
      rewrite Ho in Ho'. done.
Qed.

(** C7, as the code has it: without [truncate_by_edge] the truncation
    returns, every node of the result is a node of the input, attributes
    unchanged, for which none of the four outside tests holds; when its two
    coordinates and the four bounds are numbers other than NaN this places
    it within the box.  (A node whose coordinate is missing or NaN also passes
    the tests, without lying in the box.) *)
Theorem truncate_bbox_survivors (G : graph) (north south east west : float)
    (retain_all : bool) :
  wf_graph G ->
  exists G',
    truncate_graph_bbox G (north, south, east, west) false retain_all = Ok G'
    /\ forall n a, (n, a) ∈ g_nodes G' ->
         (n, a) ∈ g_nodes G
         /\ outside_bbox (north, south, east, west) a = false
         /\ let y := to_number (attr a "y") in
            let x := to_number (attr a "x") in
            (PrimFloat.is_nan y = false -> PrimFloat.is_nan north = false ->
             PrimFloat.is_nan south = false ->
             js_le south y = true /\ js_le y north = true)
            /\ (PrimFloat.is_nan x = false -> PrimFloat.is_nan east = false ->
                PrimFloat.is_nan west = false ->
                js_le west x = true /\ js_le x east = true).
Proof.
  intros Hwf.
  destruct (truncate_retain_all G (north, south, east, west) Hwf)
    as (G1 & Hrun & Hwf1 & Hn1 & _).
  assert (exists G', truncate_graph_bbox G (north, south, east, west) false retain_all
                     = Ok G' /\ forall na, na ∈ g_nodes G' -> na ∈ g_nodes G1)
    as (G' & Hrun' & Hsub).
  { destruct retain_all; [by exists G1|].
    unfold truncate_graph_bbox in *. rewrite bind_Ok in *.
    simpl in Hrun. destruct (for_each drop_if_present _ G) as [G2|]; [|done].
    injection Hrun as ->. simpl.
    destruct (get_largest_component_sub G1 Hwf1) as (G' & Hg & Hs & _).
    by exists G'. }
  exists G'. split; [done|]. intros n a Hin. apply Hsub in Hin.
  rewrite Hn1 in Hin. apply list_elem_of_filter in Hin as [Ho Hin].
  split; [done|]. split; [done|]. simpl in Ho.
  unfold outside_bbox, value_gt, value_lt in Ho.
  apply orb_false_iff in Ho as [Ho Hw]. apply orb_false_iff in Ho as [Ho He].
  apply orb_false_iff in Ho as [Hno Hso].
  split; intros Hy Hb1 Hb2; split; apply not_lt_le; done.
Qed.

(** C10, as the code has it: with [retain_all] and without
    [truncate_by_edge], a node that has neither [x] nor [y] is always
    retained, since every test on an undefined coordinate is false; a node
    that misses one coordinate only is judged on the other. *)
Theorem truncate_bbox_missing_coordinates (G : graph)
    (north south east west : float) (n : string) (a : attrs) :
  wf_graph G -> (n, a) ∈ g_nodes G ->
  exists G',
    truncate_graph_bbox G (north, south, east, west) false true = Ok G'
    /\ (attr a "x" = VUndefined -> attr a "y" = VUndefined -> (n, a) ∈ g_nodes G')
    /\ (attr a "y" = VUndefined ->
        ((n, a) ∈ g_nodes G' <->
         value_gt (attr a "x") east = false /\ value_lt (attr a "x") west = false))
    /\ (attr a "x" = VUndefined ->
        ((n, a) ∈ g_nodes G' <->
         value_gt (attr a "y") north = false /\ value_lt (attr a "y") south = false)).
Proof.
  intros Hwf Hin.
  destruct (truncate_retain_all G (north, south, east, west) Hwf)
    as (G' & Hrun & _ & Hn & _).
  exists G'. split; [done|]. rewrite Hn, list_elem_of_filter.
  split; [|split].
  - intros Hx Hy. split; [|done]. by apply outside_undefined.
  - intros Hy. unfold outside_bbox, value_gt, value_lt. cbn [snd].
    rewrite Hy. cbn [to_number].
    rewrite nan_gt, nan_lt. cbn [orb]. rewrite orb_false_iff. tauto.
  - intros Hx. unfold outside_bbox, value_gt, value_lt. cbn [snd].
    rewrite Hx. cbn [to_number].
    rewrite nan_gt, nan_lt, !orb_false_r. rewrite orb_false_iff. tauto.
Qed.

End TruncateFacts.

(** ** Builder: oneway reversal *)

Lemma obj_assign_get {V} (b a : list (string * V)) k :
  NoDup (map fst b) ->
  obj_get k (obj_assign a b) = match obj_get k b with
                               | Some v => Some v
                               | None => obj_get k a
                               end.
Proof.
  unfold obj_assign. revert a. induction b as [|[k2 v2] r IH]; intros a Hnd; simpl; [done|].
  inversion Hnd as [|? ? Hnotin Hnd']; subst.
  rewrite IH by done. eqb_case k k2.
  - assert (obj_get k2 r = None) as ->.
    { destruct (obj_get k2 r) eqn:Hg; [|done]. exfalso. apply Hnotin.
      apply obj_get_elem_of. by eexists. }
    apply obj_get_set_eq.
  - destruct (obj_get k r); [done|]. by rewrite obj_get_set_ne.
Qed.

Lemma obj_spread_get (a : attrs) k :
  NoDup (map fst a) -> obj_get k (obj_spread a) = obj_get k a.
Proof.
  intros Hnd. unfold obj_spread. rewrite obj_assign_get by done.
  by destruct (obj_get k a).
Qed.

Lemma attr_spread (a : attrs) k : NoDup (map fst a) -> attr (obj_spread a) k = attr a k.
Proof. intros Hnd. unfold attr. by rewrite obj_spread_get. Qed.

Lemma attr_set_eq (a : attrs) k v : attr (obj_set k v a) k = v.
Proof. unfold attr. by rewrite obj_get_set_eq. Qed.

Lemma attr_set_ne (a : attrs) k k' v : k <> k' -> attr (obj_set k v a) k' = attr a k'.
Proof. intros Hne. unfold attr. by rewrite obj_get_set_ne. Qed.

Lemma addEdge_Ok G u v a :
  hasNode G u = true -> hasNode G v = true ->
  addEdge G u v a
  = Ok (Graph (g_attrs G) (g_nodes G) (g_edges G ++ [Edge (g_next_key G) u v a])
              (S (g_next_key G))).
Proof. intros Hu Hv. unfold addEdge. by rewrite Hu, Hv. Qed.

(** Adding a batch of edges with the same attributes between present nodes. *)
Lemma add_edges_run (src tgt : Z * Z -> string) (a : attrs) (l : list (Z * Z)) :
  forall G,
  (forall uv, uv ∈ l -> hasNode G (src uv) = true /\ hasNode G (tgt uv) = true) ->
  exists G',
    for_each (fun G uv => addEdge G (src uv) (tgt uv) a) l G = Ok G'
    /\ g_nodes G' = g_nodes G
    /\ g_attrs G' = g_attrs G
    /\ exists new, g_edges G' = g_edges G ++ new
         /\ map (fun e => (e_src e, e_tgt e, e_attrs e)) new
            = map (fun uv => (src uv, tgt uv, a)) l.
Proof.
  induction l as [|uv r IH]; intros G Hn.
  - exists G. repeat split; try done. exists []. by rewrite app_nil_r.
  - rewrite for_each_cons.
    destruct (Hn uv) as [Hs Ht]; [constructor|].
    rewrite (addEdge_Ok _ _ _ a Hs Ht), bind_Ok.
    set (G1 := Graph _ _ _ _).
    destruct (IH G1) as (G' & Hrun & Hnodes & Hattrs & new & Hnew & Hview).
    { intros uv' Hin. apply Hn. by constructor. }
    exists G'. split; [done|]. split; [done|]. split; [done|].
    exists (Edge (g_next_key G) (src uv) (tgt uv) a :: new). split.
    + rewrite Hnew. simpl. by rewrite <- app_assoc.
    + simpl. by rewrite Hview.
Qed.

Lemma consecutive_elem_of (l : list Z) u v :
  (u, v) ∈ consecutive l -> u ∈ l /\ v ∈ l.
Proof.
  induction l as [|x [|y r] IH]; simpl; intros Hin; try by inversion Hin.
  apply elem_of_cons in Hin as [[= -> ->]|Hin].
  - split; [constructor | constructor; constructor].
  - destruct (IH Hin). split; by constructor.
Qed.

Section BuilderFacts.
Context (settings : Settings).

(** The general rule: a path that is determined oneway and whose [oneway]
    tag is in the reversed-value set contributes the consecutive pairs of
    its reversed node sequence, each flagged [reversed = false], and
    nothing else. *)
Lemma add_path_reversed (bidirectional : bool) (G : graph) (p : path) :
  NoDup (obj_keys (path_attrs p)) ->
  _is_path_one_way settings (path_attrs p) bidirectional oneway_values = true ->
  _is_path_reversed (path_attrs p) reversed_values = true ->
  (forall z, z ∈ path_nodes p -> hasNode G (id_key z) = true) ->
  exists G' new,
    _add_paths settings G [p] bidirectional = Ok G'
    /\ g_nodes G' = g_nodes G
    /\ g_attrs G' = g_attrs G
    /\ g_edges G' = g_edges G ++ new
    /\ map edge_view new
       = map (fun uv => (id_key (fst uv), id_key (snd uv), VBool false))
             (consecutive (rev (path_nodes p))).
Proof.
  intros Hnd Hone Hrev Hnodes. unfold _add_paths. rewrite for_each_cons.
  unfold add_path. rewrite Hone, Hrev. simpl.
  match goal with |- context [for_each _ _ G ≫= _] =>
    match goal with |- context [obj_spread ?a] => set (a2 := a) end end.
  destruct (add_edges_run (fun uv => id_key (fst uv)) (fun uv => id_key (snd uv))
              (obj_spread a2) (consecutive (rev (path_nodes p))) G)
    as (G' & Hrun & Hn & Ha & new & Hnew & Hview).
  { intros [u v] Hin. apply consecutive_elem_of in Hin as [Hu Hv].
    rewrite list_elem_of_In, <- in_rev, <- list_elem_of_In in Hu, Hv. simpl. auto. }
  exists G', new. rewrite Hrun. simpl. repeat split; try done.
  assert (map edge_view new
          = map (fun t : string * string * attrs =>
                   (fst (fst t), snd (fst t), attr (snd t) "reversed"))
                (map (fun e => (e_src e, e_tgt e, e_attrs e)) new)) as ->.
  { rewrite map_map. done. }
  rewrite Hview, map_map. apply map_ext. intros [u v]. simpl.
  rewrite attr_spread.
  - unfold a2. by rewrite attr_set_eq.
  - unfold a2. apply obj_set_NoDup.
    destruct (all_oneway settings); simpl; [done | by apply obj_set_NoDup].
Qed.

End BuilderFacts.

Lemma copy_tags_NoDup useful tags (a : attrs) :
  NoDup (map fst a) -> NoDup (map fst (copy_tags useful tags a)).
Proof.
  destruct tags as [t|]; simpl; [|done]. revert a.
  induction useful as [|u r IH]; intros a Hnd; simpl; [done|].
  apply IH. destruct (obj_get u t); [by apply obj_set_NoDup | done].
Qed.

Lemma copy_tags_keep useful t (a : attrs) k v :
  obj_get k t = Some v -> obj_get k a = Some (VStr v) ->
  obj_get k (copy_tags useful (Some t) a) = Some (VStr v).
Proof.
  simpl. intros Hget. revert a.
  induction useful as [|u r IH]; intros a Ha; simpl; [done|].
  apply IH. destruct (obj_get u t) eqn:Hu; [|done].
  rewrite obj_get_set. case_decide; [|done]. subst. congruence.
Qed.

Lemma copy_tags_get useful t (a : attrs) k v :
  k ∈ useful -> obj_get k t = Some v ->
  obj_get k (copy_tags useful (Some t) a) = Some (VStr v).
Proof.
  intros Hin Hget. revert a. induction useful as [|u r IH]; intros a; [inversion Hin|].
  apply elem_of_cons in Hin as [-> |Hin].
  - change (copy_tags (u :: r) (Some t) a)
      with (copy_tags r (Some t) (match obj_get u t with
                                  | Some v => obj_set u (VStr v) a
                                  | None => a
                                  end)).
    rewrite Hget. apply copy_tags_keep; [done | apply obj_get_set_eq].
  - change (copy_tags (u :: r) (Some t) a)
      with (copy_tags r (Some t) (match obj_get u t with
                                  | Some v => obj_set u (VStr v) a
                                  | None => a
                                  end)).
    by apply IH.
Qed.

Lemma setEdgeAttribute_view G key k v G' :
  k <> "reversed" ->
  setEdgeAttribute G key k v = Ok G' ->
  g_nodes G' = g_nodes G /\ g_attrs G' = g_attrs G
  /\ map (fun e => (e_key e, edge_view e)) (g_edges G')
     = map (fun e => (e_key e, edge_view e)) (g_edges G).
Proof.
  intros Hne. unfold setEdgeAttribute. destruct (existsb _ _); [|done].
  intros [= <-]. simpl. split; [done|]. split; [done|].
  rewrite map_map. apply map_ext. intros e.
  destruct (Nat.eqb (e_key e) key); [|done].
  unfold edge_view. simpl. by rewrite attr_set_ne.
Qed.

Section LengthFacts.
Context `{Runtime} `{MathLib}.

(** Stamping the lengths changes no end and no [reversed] flag. *)
Lemma add_edge_lengths_run G :
  (forall e, e ∈ g_edges G -> hasNode G (e_src e) = true /\ hasNode G (e_tgt e) = true) ->
  exists G', add_edge_lengths G = Ok G'
    /\ g_nodes G' = g_nodes G /\ g_attrs G' = g_attrs G
    /\ map edge_view (g_edges G') = map edge_view (g_edges G).
Proof.
  intros Hed. unfold add_edge_lengths.
  assert (forall es G1,
            (forall e, e ∈ es -> e ∈ g_edges G) ->
            g_nodes G1 = g_nodes G -> g_attrs G1 = g_attrs G ->
            map (fun e => (e_key e, edge_view e)) (g_edges G1)
            = map (fun e => (e_key e, edge_view e)) (g_edges G) ->
            exists G', for_each (fun G0 e =>
                uNode ← getNodeAttributes G0 (e_src e);
                vNode ← getNodeAttributes G0 (e_tgt e);
                if is_defined (attr uNode "y") && is_defined (attr uNode "x")
                   && is_defined (attr vNode "y") && is_defined (attr vNode "x")
                then setEdgeAttribute G0 (e_key e) "length"
                       (VNum (great_circle (to_number (attr uNode "y"))
                                (to_number (attr uNode "x"))
                                (to_number (attr vNode "y"))
                                (to_number (attr vNode "x"))))
                else Ok G0) es G1 = Ok G'
              /\ g_nodes G' = g_nodes G /\ g_attrs G' = g_attrs G
              /\ map (fun e => (e_key e, edge_view e)) (g_edges G')
                 = map (fun e => (e_key e, edge_view e)) (g_edges G)) as Hloop.
  { induction es as [|e es IH]; intros G1 Hsub Hn Ha Hv.
    - exists G1. simpl. auto.
    - rewrite for_each_cons.
      assert (e ∈ g_edges G) as He by (apply Hsub; constructor).
      destruct (Hed e He) as [Hs Ht].
      apply obj_has_get in Hs as [au Hau], Ht as [av Hav].
      assert (getNodeAttributes G1 (e_src e) = Ok au) as Hgu
        by (unfold getNodeAttributes; by rewrite Hn, Hau).
      assert (getNodeAttributes G1 (e_tgt e) = Ok av) as Hgv
        by (unfold getNodeAttributes; by rewrite Hn, Hav).
      cbv beta. rewrite Hgu, bind_Ok, Hgv, bind_Ok.
      assert (exists G2, setEdgeAttribute G1 (e_key e) "length"
                (VNum (great_circle (to_number (attr au "y")) (to_number (attr au "x"))
                         (to_number (attr av "y")) (to_number (attr av "x")))) = Ok G2)
        as [G2 Hset].
      { unfold setEdgeAttribute.
        assert (existsb (fun e0 => Nat.eqb (e_key e0) (e_key e)) (g_edges G1) = true) as ->.
        { apply existsb_exists.
          assert (e_key e ∈ map e_key (g_edges G1)) as Hk.
          { replace (map e_key (g_edges G1))
              with (map fst (map (fun e => (e_key e, edge_view e)) (g_edges G1)))
              by (rewrite map_map; done).
            rewrite Hv, map_map. simpl. apply elem_of_map_iff. eauto. }
          apply elem_of_map_iff in Hk as [e0 [He0 Hk0]].
          exists e0. split; [by apply list_elem_of_In|].
          rewrite Hk0. apply Nat.eqb_refl. }
        eauto. }
      assert ("length" <> "reversed") as Hlr by discriminate.
      destruct (setEdgeAttribute_view _ _ _ _ _ Hlr Hset) as (Hn2 & Ha2 & Hv2).
      assert (forall e0, e0 ∈ es -> e0 ∈ g_edges G) as Hsub'
        by (intros e0 Hin; apply Hsub; by constructor).
      destruct (is_defined (attr au "y") && is_defined (attr au "x")
                && is_defined (attr av "y") && is_defined (attr av "x")).
      + rewrite Hset. apply IH; [done | congruence ..].
      + by apply IH. }
  destruct (Hloop (g_edges G) G) as (G' & Hrun & Hn & Ha & Hv); try done.
  exists G'. split; [done|]. split; [done|]. split; [done|].
  apply (f_equal (map snd)) in Hv. by rewrite !map_map in Hv.
Qed.

End LengthFacts.

Lemma obj_set_nil {V} k (v : V) : obj_set k v [] = [(k, v)].
Proof. unfold obj_set. simpl. by destruct (array_index k). Qed.

Lemma obj_assign_single {V} k (v : V) : obj_assign [] [(k, v)] = [(k, v)].
Proof. unfold obj_assign. simpl. apply obj_set_nil. Qed.

Section OnewayScenario.
Context `{Runtime} `{MathLib} (settings : Settings).

Lemma scenario_path_attrs (way_id : Z) :
  "oneway" ∈ useful_tags_way settings ->
  let a := path_attrs (_convert_path settings way_id [1; 2; 3]%Z
                         (Some [("highway", "residential"); ("oneway", "-1")])) in
  NoDup (obj_keys a) /\ obj_get "oneway" a = Some (VStr "-1").
Proof.
  intros Hin. unfold _convert_path. cbn [path_attrs]. split.
  - apply copy_tags_NoDup. simpl. apply NoDup_singleton.
  - by apply copy_tags_get.
Qed.

(** C4: a path that is determined oneway and whose [oneway] tag is in the
    reversed-value set has its node sequence reversed before its edges are
    emitted, and these edges carry [reversed = false]; in particular the way
    [1, 2, 3] tagged [highway=residential], [oneway=-1], once it is
    determined oneway (the tag is among the selected way tags, and either
    everything is oneway or the network type is not bidirectional), builds
    exactly the edges 3 -> 2 and 2 -> 1, both with [reversed = false]. *)
Theorem oneway_reversal :
  (forall (bidirectional : bool) (G : graph) (p : path),
     NoDup (obj_keys (path_attrs p)) ->
     _is_path_one_way settings (path_attrs p) bidirectional oneway_values = true ->
     _is_path_reversed (path_attrs p) reversed_values = true ->
     (forall z, z ∈ path_nodes p -> hasNode G (id_key z) = true) ->
     exists G' new,
       _add_paths settings G [p] bidirectional = Ok G'
       /\ g_edges G' = g_edges G ++ new
       /\ map edge_view new
          = map (fun uv => (id_key (fst uv), id_key (snd uv), VBool false))
                (consecutive (rev (path_nodes p))))
  /\ (forall (now : string) (c1 c2 c3 : float * float) (way_id : Z)
             (bidirectional : bool),
        "oneway" ∈ useful_tags_way settings ->
        cache_only_mode settings = false ->
        all_oneway settings = true \/ bidirectional = false ->
        exists G,
          _create_graph settings now [oneway_scenario c1 c2 c3 way_id] bidirectional
          = Ok G
          /\ map edge_view (g_edges G)
             = [("3", "2", VBool false); ("2", "1", VBool false)]).
Proof.
  split.
  { intros bidirectional G p Hnd Hone Hrev Hnodes.
    destruct (add_path_reversed settings bidirectional G p Hnd Hone Hrev Hnodes)
      as (G' & new & Hrun & _ & _ & He & Hv).
    by exists G', new. }
  intros now c1 c2 c3 way_id bidirectional Htag Hcache Hway.
  destruct (scenario_path_attrs way_id Htag) as [Hnd Hget].
  set (tags := Some [("highway", "residential"); ("oneway", "-1")]) in *.
  set (p := _convert_path settings way_id [1; 2; 3]%Z tags) in *.
  unfold _create_graph. rewrite Hcache.
  assert (_parse_nodes_paths settings (oneway_scenario c1 c2 c3 way_id)
          = ([("1", [("y", VNum (fst c1)); ("x", VNum (snd c1))]);
              ("2", [("y", VNum (fst c2)); ("x", VNum (snd c2))]);
              ("3", [("y", VNum (fst c3)); ("x", VNum (snd c3))])],
             [(id_key way_id, p)])) as Hparse.
  { unfold _parse_nodes_paths, oneway_scenario. simpl fold_left.
    fold tags. fold p. rewrite !obj_set_nil. f_equal. }
  cbn [fold_left negb]. rewrite Hparse. cbn [fst snd].
  rewrite obj_assign_single.
  set (nodes := obj_assign _ _).
  assert (nodes = [("1", [("y", VNum (fst c1)); ("x", VNum (snd c1))]);
                   ("2", [("y", VNum (fst c2)); ("x", VNum (snd c2))]);
                   ("3", [("y", VNum (fst c3)); ("x", VNum (snd c3))])]) as ->
    by reflexivity.
  cbn [length Nat.eqb andb].
  set (G0 := setAttribute _ _ _).
  set (G1 := Graph (g_attrs G0)
               [("1", [("y", VNum (fst c1)); ("x", VNum (snd c1))]);
                ("2", [("y", VNum (fst c2)); ("x", VNum (snd c2))]);
                ("3", [("y", VNum (fst c3)); ("x", VNum (snd c3))])] [] 0).
  assert (for_each (fun G nd => addNode G (fst nd) (snd nd))
            [("1", [("y", VNum (fst c1)); ("x", VNum (snd c1))]);
             ("2", [("y", VNum (fst c2)); ("x", VNum (snd c2))]);
             ("3", [("y", VNum (fst c3)); ("x", VNum (snd c3))])] G0 = Ok G1) as ->
    by reflexivity.
  rewrite bind_Ok. cbn [obj_values map snd].
  destruct (add_path_reversed settings bidirectional G1 p) as
    (G2 & new & Hrun & Hn2 & _ & He2 & Hv2).
  - exact Hnd.
  - unfold _is_path_one_way. destruct Hway as [-> | ->]; [done|].
    destruct (all_oneway settings); [done|].
    unfold obj_has, attr. fold p. by rewrite Hget.
  - unfold _is_path_reversed, obj_has, attr. fold p. by rewrite Hget.
  - intros z Hz. simpl in Hz.
    repeat (apply elem_of_cons in Hz as [-> |Hz]; [reflexivity|]).
    inversion Hz.
  - rewrite Hrun, bind_Ok. simpl in He2.
    assert (map edge_view new = [("3", "2", VBool false); ("2", "1", VBool false)])
      as Hv by (rewrite Hv2; reflexivity).
    clear Hv2.
    destruct new as [|e1 [|e2 [|e3 new]]]; try discriminate.
    unfold edge_view in Hv. injection Hv as Hs1 Ht1 Hr1 Hs2 Ht2 Hr2.
    assert (forall e, e ∈ g_edges G2 ->
              hasNode G2 (e_src e) = true /\ hasNode G2 (e_tgt e) = true) as Hed.
    { intros e. rewrite He2. unfold hasNode. rewrite Hn2.
      intros He. repeat (apply elem_of_cons in He as [-> |He]).
      - by rewrite Hs1, Ht1.
      - by rewrite Hs2, Ht2.
      - inversion He. }
    destruct (add_edge_lengths_run G2 Hed) as (G3 & Hrun3 & _ & _ & Hv3).
    unfold size. rewrite He2. cbn [length Nat.ltb Nat.leb].
    exists G3. split; [done|]. rewrite Hv3, He2. unfold edge_view. simpl.
    by rewrite Hs1, Ht1, Hr1, Hs2, Ht2, Hr2.
Qed.

End OnewayScenario.

(** ** Simplifier *)

(** A loop whose body keeps an invariant and cannot fail under it. *)
Lemma for_each_inv {A S} (I : S -> Prop) (body : S -> A -> result S) (l : list A) :
  (forall s x, x ∈ l -> I s -> exists s', body s x = Ok s' /\ I s') ->
  forall s, I s -> exists s', for_each body l s = Ok s' /\ I s'.
Proof.
  induction l as [|x r IH]; intros Hb s Hs; [simpl; eauto|].
  rewrite for_each_cons. destruct (Hb s x) as (s1 & H1 & HI1); [constructor | done |].
  rewrite H1, bind_Ok. apply IH; [|done]. intros s2 y Hy. apply Hb. by constructor.
Qed.





Lemma outNeighbors_Ok G n :
  wf_graph G -> n ∈ nodes G ->
  exists ns, outNeighbors G n = Ok ns
    /\ (forall m, m ∈ ns -> m ∈ nodes G /\ hasEdge G n m = true).
Proof.
  intros [_ Hed] Hin. apply hasNode_elem_of in Hin.
  unfold outNeighbors, require_node. rewrite Hin. simpl.
  eexists. split; [reflexivity|]. intros m.
  rewrite key_order_elem_of, elem_of_map_iff.
  intros [e [He ->]]. apply list_elem_of_filter in He as [Hs He].
  split; [by apply Hed|]. unfold hasEdge. apply existsb_exists.
  exists e. split; [by apply list_elem_of_In|]. unfold joins.
  apply Is_true_true in Hs. by rewrite Hs, String.eqb_refl.
Qed.





Section SimplifyFacts.
Context `{Runtime}.





End SimplifyFacts.

(** *** The updates of the graph *)







(** *** Stamping the street counts *)







Section SimplifyOutcome.
Context `{Runtime}.



End SimplifyOutcome.

(** ** Consolidator: the union-find *)




Section UnionFind.
Variable R : string -> string -> Prop.
Hypothesis R_refl : forall x, R x x.
Hypothesis R_sym : forall x y, R x y -> R y x.
Hypothesis R_trans : forall x y z, R x y -> R y z -> R x z.






End UnionFind.


(** ** Consolidator: building the new graph *)







Lemma mapped_mono newG newG' repMap repMap' n :
  (forall m, hasNode newG m = true -> hasNode newG' m = true) ->
  obj_get n repMap' = obj_get n repMap ->
  mapped newG repMap n -> mapped newG' repMap' n.
Proof. intros Hh Hg [r [Hr Hn]]. exists r. split; [congruence | auto]. Qed.

Section ConsolidateFacts.
Context `{Runtime} `{MathLib}.












End ConsolidateFacts.

(** * GraphML codec: the text written for a geometry *)

Section CodecFacts.
Context `{Runtime}.

(** C2 (what the code does): [stringifyValue] has no case for geometries.
    A LineString geometry is an object, so it is written as its JSON text,
    which starts with a brace and names the [type] and [coordinates]
    members; it is not written as well-known text. *)
Theorem stringifyValue_geometry_is_json (coords : list value) :
  let geometry := VObj [("type", VStr "LineString"); ("coordinates", VArr coords)] in
  let text := "{" +:+ dquote +:+ "type" +:+ dquote +:+ ":" +:+ dquote +:+ "LineString"
              +:+ dquote +:+ "," +:+ dquote +:+ "coordinates" +:+ dquote +:+ ":"
              +:+ default "null" (json_stringify (VArr coords)) +:+ "}" in
  stringifyValue geometry = text
  /\ stringify_attributes [("geometry", geometry)] = [("geometry", VStr text)].
Proof. split; reflexivity. Qed.

End CodecFacts.

(** * Routing: the k shortest paths are loopless and distinct *)

(** ** Walking back along the predecessors *)

Lemma chain_functional prev r1 :
  chain prev r1 -> forall r2, chain prev r2 -> head r1 = head r2 -> r1 = r2.
Proof.
  induction 1 as [x Hx|x p r Hx Hc IH]; intros r2 H2 Hh.
  - inversion H2 as [y Hy|y q s Hy Hs]; subst; simpl in Hh; injection Hh as ->;
      [done | congruence].
  - inversion H2 as [y Hy|y q s Hy Hs]; subst; simpl in Hh; injection Hh as ->;
      [congruence|].
    assert (q = p) as -> by congruence. f_equal. by apply IH.
Qed.

Lemma chain_tail prev y p s : chain prev (y :: p :: s) -> chain prev (p :: s).
Proof. by inversion 1. Qed.

Lemma chain_suffix prev l x r : chain prev (l ++ x :: r) -> chain prev (x :: r).
Proof.
  induction l as [|y l IH]; [done|]. intros Hc. apply IH.
  destruct l; simpl in *; by apply chain_tail in Hc.
Qed.

Lemma chain_NoDup prev r : chain prev r -> NoDup r.
Proof.
  induction 1 as [x Hx|x p r Hx Hc IH]; [apply NoDup_singleton|].
  constructor; [|done]. intros Hin.
  apply list_elem_of_split in Hin as (l1 & l2 & Heq).
  assert (chain prev (x :: l2)) as Hc2 by (apply (chain_suffix prev l1); by rewrite <- Heq).
  assert (x :: p :: r = x :: l2) as Hsame.
  { apply (chain_functional prev); [by constructor | done | done]. }
  injection Hsame as Hsame. rewrite Hsame in Heq.
  apply (f_equal length) in Heq. rewrite length_app in Heq. simpl in Heq. lia.
Qed.

Lemma chain_keys prev r :
  chain prev r ->
  exists r0 e, r = r0 ++ [e] /\ obj_get e prev = None
    /\ forall x, x ∈ r0 -> is_Some (obj_get x prev).
Proof.
  induction 1 as [x Hx|x p r Hx Hc (r0 & e & Heq & He & Hr0)].
  - exists [], x. split; [done|]. split; [done|]. intros y Hy. inversion Hy.
  - exists (x :: r0), e. rewrite Heq. split; [done|]. split; [done|].
    intros y Hy. apply elem_of_cons in Hy as [-> |Hy]; [by eexists | by apply Hr0].
Qed.

Lemma chain_length prev r : chain prev r -> length r <= S (length prev).
Proof.
  intros Hc. pose proof (chain_NoDup prev r Hc) as Hnd.
  destruct (chain_keys prev r Hc) as (r0 & e & -> & _ & Hr0).
  apply NoDup_app in Hnd as (Hnd & _ & _).
  assert (r0 ⊆+ map fst prev) as Hsub.
  { apply NoDup_submseteq; [done|]. intros x Hx. by apply obj_get_elem_of, Hr0. }
  apply submseteq_length in Hsub. rewrite length_map in Hsub.
  rewrite length_app. simpl. lia.
Qed.

Lemma walk_back_chain prev fuel :
  forall cur path l,
  walk_back fuel prev cur path = Ok l ->
  exists r, chain prev (cur :: r) /\ l = rev (cur :: r) ++ path.
Proof.
  induction fuel as [|fuel IH]; intros cur path l Hw; [done|]. simpl in Hw.
  destruct (obj_get cur prev) as [p|] eqn:Hp.
  - apply IH in Hw as (r & Hc & ->). exists (p :: r). split; [by constructor|].
    simpl. by rewrite <- !app_assoc.
  - injection Hw as <-. exists []. split; [by constructor | done].
Qed.

Lemma chain_walk_back prev r :
  chain prev r ->
  forall fuel path, length r <= fuel ->
  exists cur, head r = Some cur /\ walk_back fuel prev cur path = Ok (rev r ++ path).
Proof.
  induction 1 as [x Hx|x p r Hx Hc IH]; intros fuel path Hf.
  - exists x. split; [done|]. destruct fuel; [simpl in Hf; lia|]. simpl. by rewrite Hx.
  - exists x. split; [done|]. destruct fuel; [simpl in Hf; lia|]. simpl. rewrite Hx.
    destruct (IH fuel (x :: path)) as (c & Hc' & Hw); [simpl in Hf |- *; lia|].
    simpl in Hc'. injection Hc' as <-. rewrite Hw. simpl. by rewrite <- !app_assoc.
Qed.

(** The walk needs no more fuel than it is given: when it ends at all, it
    ends within one step per entry of [prev], plus one. *)
Lemma walk_back_fuel prev fuel cur path l :
  walk_back fuel prev cur path = Ok l ->
  walk_back (S (length prev)) prev cur path = Ok l.
Proof.
  intros Hw. apply walk_back_chain in Hw as (r & Hc & ->).
  destruct (chain_walk_back prev (cur :: r) Hc (S (length prev)) path) as (c & Hh & Hw).
  - by apply chain_length.
  - simpl in Hh. by injection Hh as <-.
Qed.

(** ** The search *)

Lemma pick_current_fold dist visited :
  forall acc c b,
  fold_left (fun (acc : option string * float) (nd : string * float) =>
               if negb (set_has (fst nd) visited) && js_lt (snd nd) (snd acc)
               then (Some (fst nd), snd nd) else acc) dist acc = (Some c, b) ->
  fst acc = Some c \/ (c ∈ map fst dist /\ set_has c visited = false).
Proof.
  induction dist as [|[n d] dist IH]; intros acc c b Hf; simpl in Hf.
  - left. by rewrite Hf.
  - apply IH in Hf. simpl.
    destruct (negb (set_has n visited) && js_lt d (snd acc)) eqn:Hc.
    + destruct Hf as [Hf|[Hf Hv]]; [|right; split; [by constructor | done]].
      simpl in Hf. injection Hf as <-. apply andb_true_iff in Hc as [Hc _].
      apply negb_true_iff in Hc. right. split; [constructor | done].
    + destruct Hf as [Hf|[Hf Hv]]; [by left | right; split; [by constructor | done]].
Qed.

Lemma pick_current_Some dist visited c b :
  pick_current dist visited = (Some c, b) ->
  c ∈ map fst dist /\ set_has c visited = false.
Proof.
  intros Hp. apply pick_current_fold in Hp as [Hp|Hp]; [discriminate | done].
Qed.

Section Search.
Variables (orig dest : string) (ignoredEdges ignoredNodes : list string).




End Search.

(** The search loop returns: each round that goes on marks one more of the
    nodes that can be reached. *)
Lemma obj_get_elem {V} (k : string) (v : V) (o : list (string * V)) :
  obj_get k o = Some v -> (k, v) ∈ o.
Proof.
  induction o as [|[k2 v2] r IH]; simpl; [done|].
  destruct (String.eqb k k2) eqn:E.
  - apply String.eqb_eq in E. intros [= ->]. subst. constructor.
  - intros Hg. constructor. by apply IH.
Qed.

Lemma relax_keys current best dest ignoredEdges ignoredNodes dist prev vw dist' prev' :
  relax current best dest ignoredEdges ignoredNodes (dist, prev) vw = (dist', prev') ->
  forall k, k ∈ map fst dist' -> k ∈ map fst dist \/ k = fst vw.
Proof.
  destruct vw as [v w]. unfold relax.
  destruct (set_has v ignoredNodes && negb (String.eqb v dest)); [intros [= <- <-]; auto|].
  destruct (set_has (edge_key current v) ignoredEdges); [intros [= <- <-]; auto|].
  destruct (js_lt (best + w) (default infinity (obj_get v dist))); intros [= <- <-]; [|auto].
  intros k Hk. apply obj_set_elem_of in Hk as [-> |Hk]; [by right | by left].
Qed.

Lemma relax_fold_keys current best dest ignoredEdges ignoredNodes neighbors :
  forall dist prev dist' prev',
  fold_left (relax current best dest ignoredEdges ignoredNodes) neighbors (dist, prev)
  = (dist', prev') ->
  forall k, k ∈ map fst dist' -> k ∈ map fst dist \/ k ∈ map fst neighbors.
Proof.
  induction neighbors as [|vw neighbors IH]; intros dist prev dist' prev' Hf k Hk.
  - simpl in Hf. injection Hf as <- <-. by left.
  - cbn [fold_left] in Hf.
    destruct (relax current best dest ignoredEdges ignoredNodes (dist, prev) vw)
      as [dist1 prev1] eqn:Hr.
    simpl. rewrite elem_of_cons.
    destruct (IH _ _ _ _ Hf k Hk) as [Hk1|?]; [|auto].
    destruct (relax_keys _ _ _ _ _ _ _ _ _ _ Hr k Hk1); auto.
Qed.

Lemma dijkstra_loop_total adj orig dest ignoredEdges ignoredNodes fuel :
  let U := orig :: flat_map (fun row : string * list (string * float) => map fst (snd row))
                            adj in
  forall dist prev visited,
  (forall k, k ∈ map fst dist -> k ∈ U) ->
  NoDup visited -> (forall k, k ∈ visited -> k ∈ U) ->
  length U - length visited < fuel ->
  exists r, dijkstra_loop fuel adj dest ignoredEdges ignoredNodes dist prev visited = Ok r.
Proof.
  intros U. induction fuel as [|fuel IH]; intros dist prev visited Hd Hnd Hv Hf; [lia|].
  simpl. destruct (pick_current dist visited) as [[current|] best] eqn:Hp; [|eauto].
  destruct (String.eqb current dest); [eauto|].
  apply pick_current_Some in Hp as [Hcur Hfresh].
  assert (NoDup (set_add current visited)) as Hnd' by (by apply set_add_NoDup).
  assert (forall k, k ∈ set_add current visited -> k ∈ U) as Hv'.
  { intros k Hk. apply set_add_elem_of in Hk as [-> |Hk]; auto. }
  assert (length U - length (set_add current visited) < fuel) as Hf'.
  { assert (set_add current visited ⊆+ U) as Hsub by (by apply NoDup_submseteq).
    apply submseteq_length in Hsub. unfold set_add in Hsub |- *. rewrite Hfresh in Hsub |- *.
    rewrite length_app in Hsub |- *. change (length [current]) with 1 in Hsub |- *. lia. }
  destruct (obj_get current adj) as [neighbors|] eqn:Hadj; [|by apply IH].
  destruct (fold_left _ neighbors (dist, prev)) as [dist1 prev1] eqn:Hfold.
  apply IH; try done.
  intros k Hk. destruct (relax_fold_keys _ _ _ _ _ _ _ _ _ _ Hfold k Hk) as [?|Hn]; [auto|].
  unfold U. apply list_elem_of_further, list_elem_of_In, in_flat_map.
  exists (current, neighbors). split; [|by apply list_elem_of_In].
  by apply list_elem_of_In, obj_get_elem.
Qed.



(** ** The candidates *)











(** ** When the search does not return

    The search loop always returns; the walk back along [prev] is the only
    part that may go on for ever, and the model runs out of fuel exactly
    then. *)

Lemma walk_back_Err prev fuel :
  forall cur path e, walk_back fuel prev cur path = Err e -> e = FuelExhausted.
Proof.
  induction fuel as [|fuel IH]; intros cur path e; simpl; [by intros [= <-]|].
  destruct (obj_get cur prev); [apply IH | done].
Qed.

Lemma dijkstra_fails_only_on_cycle adj orig dest ignoredEdges ignoredNodes e :
  _dijkstra_with_ignores adj orig dest ignoredEdges ignoredNodes = Err e ->
  exists dist prev,
    dijkstra_loop (S (reachable_bound adj)) adj dest ignoredEdges ignoredNodes
      [(orig, 0%float)] [] [] = Ok (dist, prev)
    /\ forall fuel, walk_back fuel prev dest [] = Err FuelExhausted.
Proof.
  unfold _dijkstra_with_ignores.
  destruct (dijkstra_loop_total adj orig dest ignoredEdges ignoredNodes
              (S (reachable_bound adj)) [(orig, 0%float)] [] []) as [[dist prev] Hloop].
  { intros k Hk. simpl in Hk. apply list_elem_of_singleton in Hk as ->. constructor. }
  { constructor. }
  { intros k Hk. inversion Hk. }
  { unfold reachable_bound. simpl. lia. }
  rewrite Hloop, bind_Ok. cbn beta iota.
  destruct (negb (obj_has dest dist)); [done|].
  destruct (walk_back (S (length prev)) prev dest []) as [l|e'] eqn:Hw; [done|].
  intros _. exists dist, prev. split; [done|]. intros fuel.
  destruct (walk_back fuel prev dest []) as [l|e2] eqn:Hw2.
  - apply walk_back_fuel in Hw2. congruence.
  - by apply walk_back_Err in Hw2 as ->.
Qed.

Section KShortestFacts.
Context `{Runtime}.


End KShortestFacts.

(** * Further properties of the GraphML codec *)

Lemma occurs_append c s t : occurs c (s +:+ t) = occurs c s || occurs c t.
Proof. induction s as [|c' s IH]; simpl; [done|]. by rewrite IH, orb_assoc. Qed.

Lemma escape_char_clean c d :
  d = "<"%char \/ d = ">"%char \/ d = "'"%char \/ d = ascii_of_nat 34 ->
  occurs d (escape_char c) = false.
Proof.
  unfold escape_char.
  destruct (Ascii.eqb c "<") eqn:E1; [intros [-> |[-> |[-> | ->]]]; reflexivity|].
  destruct (Ascii.eqb c ">") eqn:E2; [intros [-> |[-> |[-> | ->]]]; reflexivity|].
  destruct (Ascii.eqb c "&") eqn:E3; [intros [-> |[-> |[-> | ->]]]; reflexivity|].
  destruct (Ascii.eqb c "'") eqn:E4; [intros [-> |[-> |[-> | ->]]]; reflexivity|].
  destruct (Ascii.eqb c (ascii_of_nat 34)) eqn:E5;
    [intros [-> |[-> |[-> | ->]]]; reflexivity|].
  simpl. rewrite orb_false_r.
  intros [-> |[-> |[-> | ->]]]; by rewrite Ascii.eqb_sym.
Qed.

Lemma escapeXML_free (str : string) (d : ascii) :
  d = "<"%char \/ d = ">"%char \/ d = "'"%char \/ d = ascii_of_nat 34 ->
  occurs d (escapeXML str) = false.
Proof.
  intros Hd. induction str as [|c r IH]; simpl; [done|].
  by rewrite occurs_append, IH, (escape_char_clean c d Hd).
Qed.

(** X1: the text produced by [escapeXML] contains none of the characters
    [<], [>], ['] and the double quote, whatever the input. *)
Theorem escapeXML_clean (str : string) :
  occurs "<" (escapeXML str) = false /\ occurs ">" (escapeXML str) = false
  /\ occurs "'" (escapeXML str) = false
  /\ occurs (ascii_of_nat 34) (escapeXML str) = false.
Proof. repeat split; apply escapeXML_free; auto. Qed.

Lemma escape_char_cases c :
  (c = "<"%char /\ escape_char c = "&lt;")
  \/ (c = ">"%char /\ escape_char c = "&gt;")
  \/ (c = "&"%char /\ escape_char c = "&amp;")
  \/ (c = "'"%char /\ escape_char c = "&apos;")
  \/ (c = ascii_of_nat 34 /\ escape_char c = "&quot;")
  \/ (c <> "&"%char /\ escape_char c = String c EmptyString).
Proof.
  unfold escape_char.
  destruct (Ascii.eqb c "<") eqn:E1; [apply Ascii.eqb_eq in E1; by left|].
  destruct (Ascii.eqb c ">") eqn:E2; [apply Ascii.eqb_eq in E2; right; by left|].
  destruct (Ascii.eqb c "&") eqn:E3; [apply Ascii.eqb_eq in E3; do 2 right; by left|].
  destruct (Ascii.eqb c "'") eqn:E4; [apply Ascii.eqb_eq in E4; do 3 right; by left|].
  destruct (Ascii.eqb c (ascii_of_nat 34)) eqn:E5;
    [apply Ascii.eqb_eq in E5; do 4 right; by left|].
  apply Ascii.eqb_neq in E3. by do 5 right.
Qed.

Lemma append_inj_l p r1 r2 : p +:+ r1 = p +:+ r2 -> r1 = r2.
Proof.
  induction p as [|a p IH]; [done|]. intros Heq.
  change (String a (p +:+ r1) = String a (p +:+ r2)) in Heq. injection Heq as Heq. auto.
Qed.

Lemma escape_char_inj c1 c2 r1 r2 :
  escape_char c1 +:+ r1 = escape_char c2 +:+ r2 -> c1 = c2 /\ r1 = r2.
Proof.
  destruct (escape_char_cases c1) as [[-> ->]|[[-> ->]|[[-> ->]|[[-> ->]|[[-> ->]|[N1 ->]]]]]];
  destruct (escape_char_cases c2) as [[-> ->]|[[-> ->]|[[-> ->]|[[-> ->]|[[-> ->]|[N2 ->]]]]]];
  simpl; intros Heq; try discriminate;
  try (injection Heq as ->; done);
  try (injection Heq as Hc Hr; congruence);
  try (injection Heq as Hc Hr; subst; done);
  (split; [done | by apply append_inj_l in Heq]).
Qed.

(** X2: [escapeXML] loses nothing: two texts with the same escaped form are
    the same text. *)
Theorem escapeXML_injective (s t : string) : escapeXML s = escapeXML t -> s = t.
Proof.
  revert t. induction s as [|c1 r1 IH]; intros [|c2 r2]; simpl; intros Heq.
  - done.
  - exfalso. unfold escape_char in Heq.
    repeat (destruct (Ascii.eqb c2 _); [discriminate|]). discriminate.
  - exfalso. unfold escape_char in Heq.
    repeat (destruct (Ascii.eqb c1 _); [discriminate|]). discriminate.
  - apply escape_char_inj in Heq as [-> Hr]. f_equal. by apply IH.
Qed.

(** X3: writing a boolean and converting the written text back gives the
    boolean again; the conversion accepts a boolean as it is and, of all
    texts, only [True], [true], [False] and [false]. *)
Theorem convert_bool_string_round_trip `{Runtime} :
  (forall b, _convert_bool_string (VStr (stringifyValue (VBool b))) = Some b)
  /\ (forall b, _convert_bool_string (VBool b) = Some b)
  /\ (forall s, _convert_bool_string (VStr s) = None <->
                s <> "True" /\ s <> "true" /\ s <> "False" /\ s <> "false").
Proof.
  split; [by intros []|]. split; [done|].
  intros s. simpl.
  destruct (String.eqb s "True") eqn:E1; [apply String.eqb_eq in E1; subst; simpl; split;
    [done | intros (? & _); done]|].
  destruct (String.eqb s "true") eqn:E2; [apply String.eqb_eq in E2; subst; simpl; split;
    [done | intros (_ & ? & _); done]|].
  destruct (String.eqb s "False") eqn:E3; [apply String.eqb_eq in E3; subst; simpl; split;
    [done | intros (_ & _ & ? & _); done]|].
  destruct (String.eqb s "false") eqn:E4; [apply String.eqb_eq in E4; subst; simpl; split;
    [done | intros (_ & _ & _ & ?); done]|].
  simpl. apply String.eqb_neq in E1, E2, E3, E4. done.
Qed.

Section CodecMore.
Context `{Runtime}.

Lemma stringify_fold (a acc : attrs) :
  NoDup (map fst acc) ->
  (forall kv, kv ∈ a -> fst kv ∈ map fst acc) ->
  map fst (fold_left (fun acc kv => obj_set (fst kv) (VStr (stringifyValue (snd kv))) acc)
                     a acc) = map fst acc
  /\ forall k,
       obj_get k (fold_left (fun acc kv =>
                               obj_set (fst kv) (VStr (stringifyValue (snd kv))) acc) a acc)
       = match obj_get k (rev a) with
         | Some v => Some (VStr (stringifyValue v))
         | None => obj_get k acc
         end.
Proof.
  revert acc. induction a as [|[k0 v0] a IH]; intros acc Hnd Hin; simpl; [done|].
  assert (obj_has k0 acc = true) as Hk0.
  { apply obj_has_elem_of. apply (Hin (k0, v0)). constructor. }
  destruct (IH (obj_set k0 (VStr (stringifyValue v0)) acc)) as [Hkeys Hget].
  - by apply obj_set_NoDup.
  - intros kv Hkv. rewrite obj_set_keys_known by done. apply Hin. by constructor.
  - split; [by rewrite Hkeys, obj_set_keys_known|].
    intros k. rewrite Hget. destruct (obj_get k (rev a)) as [v|] eqn:Hr.
    + by rewrite (obj_get_app_Some _ _ _ _ Hr).
    + rewrite (obj_get_app_None _ _ _ Hr). simpl. rewrite obj_get_set.
      destruct (String.eqb k k0) eqn:E.
      * apply String.eqb_eq in E. subst. by rewrite decide_True.
      * apply String.eqb_neq in E. by rewrite decide_False by congruence.
Qed.

Lemma obj_ext {V} (o1 o2 : list (string * V)) :
  map fst o1 = map fst o2 -> NoDup (map fst o1) ->
  (forall k, obj_get k o1 = obj_get k o2) -> o1 = o2.
Proof.
  revert o2. induction o1 as [|[k1 v1] o1 IH]; intros [|[k2 v2] o2] Hk Hnd Hg;
    simpl in Hk, Hnd; try done.
  injection Hk as -> Hk. apply NoDup_cons in Hnd as [Hk2 Hnd].
  pose proof (Hg k2) as Hg2. simpl in Hg2. rewrite String.eqb_refl in Hg2.
  injection Hg2 as ->. f_equal. apply IH; [done | done|].
  intros k. specialize (Hg k). simpl in Hg.
  destruct (String.eqb k k2) eqn:E; [|done].
  apply String.eqb_eq in E. subst k.
  assert (obj_get k2 o1 = None) as ->.
  { destruct (obj_get k2 o1) eqn:Hx; [|done]. exfalso. apply Hk2, obj_get_elem_of.
    by eexists. }
  symmetry. destruct (obj_get k2 o2) eqn:Hx; [|done]. exfalso. apply Hk2.
  rewrite Hk. apply obj_get_elem_of. by eexists.
Qed.

Lemma obj_get_rev {V} k (o : list (string * V)) :
  NoDup (map fst o) -> obj_get k (rev o) = obj_get k o.
Proof.
  intros Hnd.
  assert (NoDup (map fst (rev o))) as Hnd' by (by rewrite map_rev, <- Permutation_rev).
  destruct (obj_get k (rev o)) as [v|] eqn:Hr.
  - apply obj_get_In in Hr; [|done]. symmetry. apply obj_get_In; [done|].
    by rewrite list_elem_of_In, in_rev, <- list_elem_of_In.
  - destruct (obj_get k o) as [v|] eqn:Ho; [|done].
    apply obj_get_In in Ho; [|done].
    rewrite list_elem_of_In, in_rev, <- list_elem_of_In in Ho.
    apply obj_get_In in Ho; [congruence | done].
Qed.

Lemma obj_get_map_values {V W} (g : V -> W) k (o : list (string * V)) :
  obj_get k (map (fun kv => (fst kv, g (snd kv))) o) = g <$> obj_get k o.
Proof.
  induction o as [|[k2 v2] o IH]; simpl; [done|]. by destruct (String.eqb k k2).
Qed.

(** X4: the stringification of the attributes of a node or an edge in
    [save_graphml] keeps every attribute name, in the same order, and
    replaces each value by its text. *)
Theorem stringify_attributes_map (a : attrs) :
  NoDup (map fst a) ->
  stringify_attributes a
  = map (fun kv => (fst kv, VStr (stringifyValue (snd kv)))) a.
Proof.
  intros Hnd. unfold stringify_attributes.
  destruct (stringify_fold a a Hnd) as [Hkeys Hget].
  { intros kv Hkv. apply list_elem_of_fmap. by exists kv. }
  apply obj_ext.
  - rewrite Hkeys, map_map. done.
  - by rewrite Hkeys.
  - intros k.
    rewrite Hget, obj_get_rev, (obj_get_map_values (fun v => VStr (stringifyValue v))) by done.
    by destruct (obj_get k a).
Qed.

End CodecMore.

(** * Further properties of the router *)

Lemma yen_loop_length adj dest n :
  forall ki A B paths,
  yen_loop n adj dest ki A B = Ok paths -> length paths <= length A + n.
Proof.
  induction n as [|n IH]; intros ki A B paths Hl; simpl in Hl.
  { injection Hl as <-. lia. }
  destruct (for_each _ _ B) as [B1|]; [|done]. rewrite bind_Ok in Hl.
  destruct (sort_by_cost B1) as [|best B2]; [injection Hl as <-; lia|].
  apply IH in Hl. rewrite length_app in Hl. simpl in Hl. lia.
Qed.

Lemma steps_app_mid l x r : steps (l ++ x :: r) = steps (l ++ [x]) ++ steps (x :: r).
Proof.
  induction l as [|a l IH]; [done|].
  destruct l as [|b l]; [by destruct r|].
  change (steps ((a :: b :: l) ++ x :: r)) with ((a, b) :: steps ((b :: l) ++ x :: r)).
  change (steps ((a :: b :: l) ++ [x])) with ((a, b) :: steps ((b :: l) ++ [x])).
  by rewrite IH.
Qed.







Section RouterFacts.
Context `{Runtime}.

(** X5: [k_shortest_paths] returns at most [k] paths, and none when [k]
    is zero. *)
Theorem k_shortest_paths_at_most_k (G : graph) (orig dest : string) (k : nat)
    (weight : string) (paths : list (list string)) :
  k_shortest_paths G orig dest k weight = Ok paths -> length paths <= k.
Proof.
  unfold k_shortest_paths. destruct (Nat.ltb k 1) eqn:Hk.
  { intros [= <-]. simpl. lia. }
  apply Nat.ltb_ge in Hk.
  destruct (_dijkstra_with_ignores _ orig dest [] []) as [[first|]|]; [| |done];
    rewrite bind_Ok.
  - intros Hl. apply yen_loop_length in Hl. simpl in Hl. lia.
  - intros [= <-]. simpl. lia.
Qed.




(** X8: the search of [_dijkstra_with_ignores] always comes to an end;
    the only part of the function that may fail to return is the walk back
    from the destination along the recorded predecessors, which does not
    end when they form a cycle: then the walk fails whatever fuel it is
    given. *)
Theorem dijkstra_returns_or_cycles (adj : adjacency) (orig dest : string)
    (ignoredEdges ignoredNodes : list string) :
  (exists r, _dijkstra_with_ignores adj orig dest ignoredEdges ignoredNodes = Ok r)
  \/ (exists dist prev,
        dijkstra_loop (S (reachable_bound adj)) adj dest ignoredEdges ignoredNodes
          [(orig, 0%float)] [] [] = Ok (dist, prev)
        /\ forall fuel, walk_back fuel prev dest [] = Err FuelExhausted).
Proof.
  destruct (_dijkstra_with_ignores adj orig dest ignoredEdges ignoredNodes) as [r|e] eqn:Hd;
    [left; by exists r|].
  right. by apply dijkstra_fails_only_on_cycle in Hd.
Qed.

End RouterFacts.

(** * Further properties of the truncation *)

(** The edges left by a loop of node removals: those that touch no removed
    node. *)
Lemma drop_loop_edges (f : string -> bool) (guard : bool) (l : list string) :
  NoDup l ->
  forall G G', wf_graph G -> (forall n, n ∈ l -> n ∈ nodes G) ->
  for_each (fun H node =>
              if f node && (negb guard || hasNode H node) then dropNode H node
              else Ok H) l G = Ok G' ->
  g_edges G' = filter (fun e => ~ ((e_src e ∈ l /\ f (e_src e) = true)
                                   \/ (e_tgt e ∈ l /\ f (e_tgt e) = true))) (g_edges G).
Proof.
  induction l as [|x r IH]; intros Hnd G G' Hwf Hin Hrun.
  - simpl in Hrun. injection Hrun as <-. symmetry. apply filter_keep_all.
    intros e _ [[Hx _]|[Hx _]]; inversion Hx.
  - inversion Hnd as [|? ? Hx Hnd']; subst. rewrite for_each_cons in Hrun.
    assert (hasNode G x = true) as Hhas by (apply hasNode_elem_of, Hin; constructor).
    rewrite Hhas, orb_true_r, andb_true_r in Hrun.
    destruct (f x) eqn:Ef.
    + destruct (dropNode_Ok G x Hhas) as [G1 Hd]. rewrite Hd, bind_Ok in Hrun.
      destruct (dropNode_nodes _ _ _ (proj1 Hwf) Hd) as (Hn1 & He1 & Ha1).
      assert (wf_graph G1) as Hwf1 by (by apply (dropNode_wf G x)).
      assert (forall n, n ∈ r -> n ∈ nodes G1) as Hin1.
      { intros n Hn. unfold nodes. rewrite Hn1.
        assert (n ∈ nodes G) as HnG by (apply Hin; by constructor).
        apply elem_of_map_iff in HnG as [[k a] [Hk Hq]]. simpl in Hq. subst k.
        apply elem_of_map_iff. exists (n, a). split; [|done].
        apply list_elem_of_filter. split; [|done]. simpl. intros ->. done. }
      rewrite (IH Hnd' G1 G' Hwf1 Hin1 Hrun).
      rewrite He1, list_filter_filter. apply list_filter_iff. intros e.
      rewrite !elem_of_cons. split.
      * intros [Hk Ht] Hbad. apply Is_true_true, touches_false in Ht as [Hs Ht].
        apply Hk. destruct Hbad as [[[?|?] ?]|[[?|?] ?]]; try done; auto.
      * intros Hk. split.
        -- intros [[? ?]|[? ?]]; apply Hk; auto.
        -- apply Is_true_true, touches_false. split; intros Heq; apply Hk;
             [left | right]; rewrite Heq; auto.
    + rewrite bind_Ok in Hrun.
      assert (forall n, n ∈ r -> n ∈ nodes G) as Hin1.
      { intros n Hn. apply Hin. by constructor. }
      rewrite (IH Hnd' G G' Hwf Hin1 Hrun).
      apply list_filter_iff. intros e. rewrite !elem_of_cons. split.
      * intros Hk [[[-> |?] ?]|[[-> |?] ?]]; try congruence; apply Hk; auto.
      * intros Hk [[? ?]|[? ?]]; apply Hk; auto.
Qed.

Section TruncateMore.
Context `{Runtime} `{Geometry}.

(** X9: with [retain_all] and without [truncate_by_edge], the truncation
    by a box keeps exactly the nodes that pass the four tests, in their
    order and with their attributes, and exactly the edges whose two ends
    are kept; the graph attributes are untouched.  In particular no node
    inside the box is ever removed. *)
Theorem truncate_bbox_exact (G : graph) (bbox : float * float * float * float) :
  wf_graph G ->
  exists G',
    truncate_graph_bbox G bbox false true = Ok G'
    /\ g_attrs G' = g_attrs G
    /\ g_nodes G' = filter (fun na => outside_bbox bbox (snd na) = false) (g_nodes G)
    /\ g_edges G' = filter (fun e => e_src e ∈ nodes G' /\ e_tgt e ∈ nodes G') (g_edges G).
Proof.
  intros Hwf. destruct (truncate_retain_all G bbox Hwf) as (G' & Hrun & Hwf' & Hn & Ha).
  exists G'. split; [done|]. split; [done|]. split; [done|].
  unfold truncate_graph_bbox in Hrun. rewrite bind_Ok in Hrun.
  set (l := map fst (filter _ (g_nodes G))) in Hrun.
  destruct (for_each drop_if_present l G) as [G1|] eqn:Hloop; [|done].
  simpl in Hrun. injection Hrun as ->.
  assert (NoDup l) as Hl by (apply filter_keys_NoDup, Hwf).
  assert (forall n, n ∈ l <-> exists a, (n, a) ∈ g_nodes G /\ outside_bbox bbox a = true)
    as Hmem.
  { intros n. unfold l. rewrite elem_of_map_iff. split.
    - intros [[k a] [Hk ->]]. apply list_elem_of_filter in Hk as [Ho Hk].
      exists a. split; [done|]. simpl in Ho. by apply Is_true_true.
    - intros [a [Ha' Ho]]. exists (n, a). split; [|done].
      apply list_elem_of_filter. split; [|done]. simpl. by apply Is_true_true. }
  assert (forall n, n ∈ l -> n ∈ nodes G) as Hsub.
  { intros n Hn'. apply Hmem in Hn' as [a [Ha' _]]. apply elem_of_map_iff. by exists (n, a). }
  assert (for_each (fun H node => if (fun _ => true) node && (negb true || hasNode H node)
                                  then dropNode H node else Ok H) l G = Ok G') as Hloop'.
  { rewrite <- Hloop. apply for_each_ext. intros Hg node. done. }
  rewrite (drop_loop_edges _ _ l Hl G G' Hwf Hsub Hloop').
  assert (forall n, n ∈ nodes G -> (n ∈ nodes G' <-> n ∉ l)) as Hkeep.
  { intros n HnG. unfold nodes at 1. rewrite Hn, elem_of_map_iff. split.
    - intros [[k a] [Hk ->]]. apply list_elem_of_filter in Hk as [Ho Hk]. simpl in *.
      intros Hl'. apply Hmem in Hl' as [a' [Ha' Ho']].
      assert (a' = a) as ->; [|congruence].
      apply obj_get_In in Ha', Hk; try apply Hwf. congruence.
    - intros Hnl. apply elem_of_map_iff in HnG as [[k a] [Hk ->]].
      exists (k, a). split; [|done]. apply list_elem_of_filter. split; [|done].
      simpl. destruct (outside_bbox bbox a) eqn:Ho; [|done].
      exfalso. apply Hnl, Hmem. by exists a. }
  apply filter_ext_in. intros e Hin.
  destruct Hwf as [_ Hed]. destruct (Hed e Hin) as [Hs Ht].
  rewrite (Hkeep _ Hs), (Hkeep _ Ht). split.
  - intros Hk. split; intros Hx; apply Hk; auto.
  - intros [Hs' Ht'] [[? _]|[? _]]; done.
Qed.

Lemma reprieve_inv (G : graph) (bbox : float * float * float * float)
    (outside : list string) :
  wf_graph G ->
  forall keepOutside,
  exists keep,
    for_each (reprieve G bbox outside) (g_edges G) keepOutside = Ok keep
    /\ forall n, n ∈ keep ->
         n ∈ keepOutside
         \/ exists e coordinates,
              e ∈ g_edges G /\ (e_src e = n \/ e_tgt e = n)
              /\ edge_coordinates G e = Ok coordinates
              /\ line_intersects_bbox coordinates bbox = true.
Proof.
  intros Hwf keepOutside.
  apply (for_each_inv
           (fun keep => forall n, n ∈ keep ->
              n ∈ keepOutside
              \/ exists e coordinates,
                   e ∈ g_edges G /\ (e_src e = n \/ e_tgt e = n)
                   /\ edge_coordinates G e = Ok coordinates
                   /\ line_intersects_bbox coordinates bbox = true)); [|auto].
  intros keep e He Hkeep. unfold reprieve.
  destruct (negb (set_has (e_src e) outside) && negb (set_has (e_tgt e) outside));
    [by exists keep|].
  assert (exists coordinates, edge_coordinates G e = Ok coordinates) as [cs Hcs].
  { unfold edge_coordinates. destruct Hwf as [_ Hed]. destruct (Hed e He) as [Hs Ht].
    apply hasNode_elem_of, obj_has_get in Hs as [u Hu].
    apply hasNode_elem_of, obj_has_get in Ht as [v Hv].
    unfold getNodeAttributes. rewrite Hu, Hv.
    destruct (Nat.ltb _ 2); [|eauto]. rewrite !bind_Ok.
    destruct (_ && _); eauto. }
  rewrite Hcs, bind_Ok.
  destruct (Nat.ltb (length cs) 2); [by exists keep|].
  destruct (line_intersects_bbox cs bbox) eqn:Hint; [|by exists keep].
  eexists. split; [reflexivity|]. intros n Hn.
  assert (n ∈ keep \/ n = e_src e \/ n = e_tgt e) as [Hk|Hk].
  { destruct (set_has (e_tgt e) outside), (set_has (e_src e) outside);
      rewrite ?set_add_elem_of in Hn; tauto. }
  - by apply Hkeep.
  - right. exists e, cs. split; [done|]. split; [destruct Hk; auto | done].
Qed.

(** X10: [truncate_by_edge] only spares nodes.  With [retain_all], every
    node kept without the option is kept with it, every node kept with it
    is a node of the input, and a node outside the box is only kept when
    one of its edges has a line that intersects the box. *)
Theorem truncate_by_edge_spares (G : graph) (bbox : float * float * float * float) :
  wf_graph G ->
  exists G1 G2,
    truncate_graph_bbox G bbox false true = Ok G1
    /\ truncate_graph_bbox G bbox true true = Ok G2
    /\ (forall na, na ∈ g_nodes G1 -> na ∈ g_nodes G2)
    /\ (forall na, na ∈ g_nodes G2 -> na ∈ g_nodes G)
    /\ (forall n a, (n, a) ∈ g_nodes G2 -> outside_bbox bbox a = true ->
           exists e coordinates,
             e ∈ g_edges G /\ (e_src e = n \/ e_tgt e = n)
             /\ edge_coordinates G e = Ok coordinates
             /\ line_intersects_bbox coordinates bbox = true).
Proof.
  intros Hwf. destruct (truncate_retain_all G bbox Hwf) as (G1 & Hrun1 & Hwf1 & Hn1 & _).
  exists G1. unfold truncate_graph_bbox.
  set (l0 := map fst (filter (fun na : string * attrs => outside_bbox bbox (snd na))
                             (g_nodes G))).
  assert (NoDup l0) as Hl0 by (apply filter_keys_NoDup, Hwf).
  assert (forall n, n ∈ l0 <-> exists a, (n, a) ∈ g_nodes G /\ outside_bbox bbox a = true)
    as Hmem.
  { intros n. unfold l0. rewrite elem_of_map_iff. split.
    - intros [[k a] [Hk ->]]. apply list_elem_of_filter in Hk as [Ho Hk].
      exists a. split; [done|]. simpl in Ho. by apply Is_true_true.
    - intros [a [Ha' Ho]]. exists (n, a). split; [|done].
      apply list_elem_of_filter. split; [|done]. simpl. by apply Is_true_true. }
  destruct (reprieve_inv G bbox (set_of_list l0) Hwf []) as (keep & Hkeep & Hwhy).
  rewrite Hkeep, !bind_Ok.
  set (l2 := filter (fun n => negb (set_has n keep)) l0).
  assert (NoDup l2) as Hl2 by (by apply NoDup_filter).
  assert (forall n, n ∈ l2 -> n ∈ nodes G) as Hsub.
  { intros n Hn. apply list_elem_of_filter in Hn as [_ Hn].
    apply Hmem in Hn as [a [Ha _]]. apply elem_of_map_iff. by exists (n, a). }
  destruct (drop_loop (fun _ => true) true l2 Hl2 G Hwf Hsub)
    as (G2 & Hrun2 & Hwf2 & Hn2 & _).
  assert (for_each drop_if_present l2 G = Ok G2) as Hrun2'.
  { rewrite <- Hrun2. apply for_each_ext. intros Hg node. done. }
  exists G2. rewrite Hrun2'. split; [done|]. split; [done|].
  split; [|split].
  - intros [n a]. rewrite Hn1, Hn2, !list_elem_of_filter. simpl.
    intros [Ho Hin]. split; [|done]. intros [Hl _].
    apply list_elem_of_filter in Hl as [_ Hl]. apply Hmem in Hl as [a' [Ha' Ho']].
    assert (a' = a) as ->; [|congruence].
    apply obj_get_In in Ha', Hin; try apply Hwf. congruence.
  - intros na. rewrite Hn2, list_elem_of_filter. tauto.
  - intros n a Hin Ho. rewrite Hn2, list_elem_of_filter in Hin. destruct Hin as [Hnl Hin].
    simpl in Hnl.
    assert (n ∈ keep) as Hk.
    { apply set_has_elem_of. destruct (set_has n keep) eqn:Hs; [done|].
      exfalso. apply Hnl. split; [|done]. apply list_elem_of_filter. split.
      - by rewrite Hs.
      - apply Hmem. by exists a. }
    destruct (Hwhy n Hk) as [Hx|?]; [inversion Hx | done].
Qed.

End TruncateMore.

(** * Connected components *)

Lemma neighbors_linked G n ns :
  neighbors G n = Ok ns -> forall m, m ∈ ns <-> linked G n m.
Proof.
  unfold neighbors, inNeighbors, outNeighbors, require_node.
  destruct (hasNode G n); [|done]. simpl. intros [= <-] m.
  set (ins := key_order (map e_src (in_edges G n))).
  assert (m ∈ ins <-> exists e, e ∈ g_edges G /\ e_src e = m /\ e_tgt e = n) as Hins.
  { unfold ins. rewrite key_order_elem_of, elem_of_map_iff, in_edges_spec. split.
    - intros [e [He ->]]. apply list_elem_of_filter in He as [Hx He]. by exists e.
    - intros [e [He [Hs Ht]]]. exists e. split; [|done]. apply list_elem_of_filter. auto. }
  assert (m ∈ key_order (map e_tgt (out_edges G n))
          <-> exists e, e ∈ g_edges G /\ e_src e = n /\ e_tgt e = m) as Houts.
  { rewrite key_order_elem_of, elem_of_map_iff, out_edges_spec. split.
    - intros [e [He ->]]. apply list_elem_of_filter in He as [Hx He]. by exists e.
    - intros [e [He [Hs Ht]]]. exists e. split; [|done]. apply list_elem_of_filter. auto. }
  rewrite elem_of_app, list_elem_of_filter, Houts, Hins. unfold linked. split.
  - intros [[e [He [Hs Ht]]]|[_ [e [He [Hs Ht]]]]]; exists e; auto.
  - intros [e [He [[Hs Ht]|[Hs Ht]]]].
    + destruct (set_has m ins) eqn:Hin.
      * left. by apply Hins, set_has_elem_of.
      * right. split; [done|]. by exists e.
    + left. by exists e.
Qed.

Lemma linked_sym G u v : linked G u v -> linked G v u.
Proof. intros [e [He Hc]]. exists e. split; [done | tauto]. Qed.

Lemma visit_fold_spec ns :
  forall visited stack visited' stack',
  fold_left visit_neighbor ns (visited, stack) = (visited', stack') ->
  exists new, visited' = visited ++ new /\ stack' = stack ++ new
    /\ (forall m, m ∈ new -> m ∈ ns) /\ (forall m, m ∈ ns -> m ∈ visited').
Proof.
  induction ns as [|x ns IH]; intros visited stack visited' stack' Hf.
  - injection Hf as <- <-. exists []. rewrite !app_nil_r. split; [done|]. split; [done|].
    split; intros m Hm; inversion Hm.
  - change (fold_left visit_neighbor ns (visit_neighbor (visited, stack) x)
            = (visited', stack')) in Hf.
    unfold visit_neighbor at 2 in Hf. destruct (set_has x visited) eqn:Hx.
    + apply IH in Hf as (new & -> & -> & Hnew & Hall). exists new.
      split; [done|]. split; [done|]. split.
      * intros m Hm. constructor. by apply Hnew.
      * intros m Hm. apply elem_of_cons in Hm as [-> |Hm]; [|by apply Hall].
        apply elem_of_app. left. by apply set_has_elem_of.
    + unfold set_add in Hf. rewrite Hx in Hf.
      apply IH in Hf as (new & -> & -> & Hnew & Hall). exists (x :: new).
      rewrite <- !app_assoc. split; [done|]. split; [done|]. split.
      * intros m Hm. apply elem_of_cons in Hm as [-> |Hm]; [constructor|].
        constructor. by apply Hnew.
      * intros m Hm. apply elem_of_cons in Hm as [-> |Hm].
        -- rewrite !elem_of_app, elem_of_cons. auto.
        -- apply Hall in Hm. by rewrite <- app_assoc in Hm.
Qed.

(** One depth-first search: what it adds to [visited] is what it puts in the
    component, besides the stack it started from; every neighbour of a node of
    the component has been visited; and the component only holds nodes that
    share a property of the start which is passed along the edges. *)
Lemma component_loop_spec G (P : string -> Prop) fuel :
  (forall n m, P n -> linked G n m -> P m) ->
  forall visited stack component visited' component',
  component_loop fuel G visited stack component = Ok (visited', component') ->
  (forall n, n ∈ stack -> P n) ->
  exists more extra,
    visited' = visited ++ more /\ component' = component ++ extra
    /\ extra ≡ₚ stack ++ more
    /\ (forall n, n ∈ extra -> forall m, linked G n m -> m ∈ visited')
    /\ (forall n, n ∈ extra -> P n).
Proof.
  intros HP. induction fuel as [|fuel IH];
    intros visited stack component visited' component' Hl Hstack.
  - simpl in Hl. destruct (pop stack) as [[current stack1]|] eqn:Hp; [done|].
    injection Hl as <- <-. destruct stack as [|y r] using rev_ind; [|by rewrite pop_snoc in Hp].
    exists [], []. rewrite !app_nil_r. split; [done|]. split; [done|]. split; [done|].
    split; intros n Hn; inversion Hn.
  - simpl in Hl. destruct (pop stack) as [[current stack1]|] eqn:Hp.
    2: { injection Hl as <- <-.
         destruct stack as [|y r] using rev_ind; [|by rewrite pop_snoc in Hp].
         exists [], []. rewrite !app_nil_r. split; [done|]. split; [done|]. split; [done|].
         split; intros n Hn; inversion Hn. }
    apply pop_Some in Hp. subst stack.
    destruct (neighbors G current) as [ns|] eqn:Hns; [|done]. rewrite bind_Ok in Hl.
    destruct (fold_left visit_neighbor ns (visited, stack1)) as [v1 s1] eqn:Hf.
    apply visit_fold_spec in Hf as (new & -> & -> & Hnew & Hall).
    assert (P current) as Hcur.
    { apply Hstack. rewrite elem_of_app, list_elem_of_singleton. auto. }
    apply IH in Hl as (more & extra & -> & -> & Hperm & Hclosed & HPx).
    2: { intros n Hn. apply elem_of_app in Hn as [Hn|Hn].
         - apply Hstack. rewrite elem_of_app. auto.
         - apply (HP current); [done|]. by apply (neighbors_linked G current ns), Hnew. }
    exists (new ++ more), (current :: extra).
    split; [by rewrite <- app_assoc|]. split; [by rewrite <- app_assoc|]. split; [|split].
    + rewrite Hperm, <- !app_assoc. simpl. apply Permutation_middle.
    + intros n Hn m Hm. apply elem_of_cons in Hn as [-> |Hn]; [|by apply (Hclosed n)].
      apply (neighbors_linked G current ns Hns), Hall in Hm.
      rewrite elem_of_app. by left.
    + intros n Hn. apply elem_of_cons in Hn as [-> |Hn]; [done | by apply HPx].
Qed.

Lemma visit_fold_NoDup ns :
  forall visited stack visited' stack',
  fold_left visit_neighbor ns (visited, stack) = (visited', stack') ->
  NoDup visited -> NoDup visited'.
Proof.
  induction ns as [|x ns IH]; intros visited stack visited' stack' Hf Hnd.
  - by injection Hf as <- <-.
  - change (fold_left visit_neighbor ns (visit_neighbor (visited, stack) x)
            = (visited', stack')) in Hf.
    unfold visit_neighbor at 2 in Hf. destruct (set_has x visited) eqn:Hx.
    + by apply IH in Hf.
    + apply IH in Hf; [done|]. by apply set_add_NoDup.
Qed.

Lemma component_loop_NoDup G fuel :
  forall visited stack component visited' component',
  component_loop fuel G visited stack component = Ok (visited', component') ->
  NoDup visited -> NoDup visited'.
Proof.
  induction fuel as [|fuel IH]; intros visited stack component visited' component' Hl Hnd;
    simpl in Hl; destruct (pop stack) as [[current stack1]|]; try done;
    try (by injection Hl as <- <-).
  destruct (neighbors G current) as [ns|]; [|done]. rewrite bind_Ok in Hl.
  destruct (fold_left visit_neighbor ns (visited, stack1)) as [v1 s1] eqn:Hf.
  apply IH in Hl; [done|]. by apply visit_fold_NoDup in Hf.
Qed.

Lemma rtc_linked_sym G u v : rtc (linked G) u v -> rtc (linked G) v u.
Proof.
  induction 1 as [|x y z Hxy Hyz IH]; [done|].
  eapply rtc_r; [exact IH|]. by apply linked_sym.
Qed.

Lemma components_loop_grows G (l : list string) :
  forall visited components visited' components',
  for_each (fun (st : list string * list (list string)) node =>
              let '(visited, components) := st in
              if set_has node visited then Ok (visited, components)
              else
                '(visited', component) ←
                  component_loop (order G) G (set_add node visited) [node] [];
                Ok (visited', components ++ [component]))
           l (visited, components) = Ok (visited', components') ->
  exists more, visited' = visited ++ more.
Proof.
  induction l as [|x l IHl]; intros visited components visited' components' Hrun.
  - simpl in Hrun. injection Hrun as <- <-. exists []. by rewrite app_nil_r.
  - rewrite for_each_cons in Hrun. cbn beta iota in Hrun.
    destruct (set_has x visited) eqn:Hx.
    + rewrite bind_Ok in Hrun. by apply IHl in Hrun.
    + destruct (component_loop _ _ _ _ _) as [[v1 c1]|] eqn:Hc; [|done].
      rewrite !bind_Ok in Hrun.
      apply (component_loop_spec G (fun _ => True)) in Hc
        as (more1 & _ & -> & _); [|done|done].
      apply IHl in Hrun as [more ->]. unfold set_add. rewrite Hx.
      exists (([x] ++ more1) ++ more). by rewrite <- !app_assoc.
Qed.

(** What the loop over the nodes keeps true of [visited] and of the
    components found so far. *)
Lemma components_loop G (l : list string) :
  wf_graph G -> (forall n, n ∈ l -> n ∈ nodes G) ->
  forall visited components visited' components',
  for_each (fun (st : list string * list (list string)) node =>
              let '(visited, components) := st in
              if set_has node visited then Ok (visited, components)
              else
                '(visited', component) ←
                  component_loop (order G) G (set_add node visited) [node] [];
                Ok (visited', components ++ [component]))
           l (visited, components) = Ok (visited', components') ->
  NoDup visited -> visited ≡ₚ concat components ->
  (forall n, n ∈ visited -> n ∈ nodes G) ->
  (forall c, c ∈ components ->
     c <> [] /\ (forall u v, u ∈ c -> v ∈ c -> rtc (linked G) u v)
     /\ (forall n m, n ∈ c -> linked G n m -> m ∈ c)) ->
  NoDup visited' /\ visited' ≡ₚ concat components'
  /\ (forall n, n ∈ visited' -> n ∈ nodes G)
  /\ (forall n, n ∈ l -> n ∈ visited')
  /\ (forall c, c ∈ components' ->
        c <> [] /\ (forall u v, u ∈ c -> v ∈ c -> rtc (linked G) u v)
        /\ (forall n m, n ∈ c -> linked G n m -> m ∈ c)).
Proof.
  intros Hwf. induction l as [|node l IH];
    intros Hl visited components visited' components' Hrun Hnd Hperm Hsub Hcomp.
  - simpl in Hrun. injection Hrun as <- <-. split; [done|]. split; [done|]. split; [done|].
    split; [intros n Hn; inversion Hn | done].
  - rewrite for_each_cons in Hrun. cbn beta iota in Hrun.
    assert (forall n, n ∈ l -> n ∈ nodes G) as Hl' by (intros n Hn; apply Hl; by constructor).
    destruct (set_has node visited) eqn:Hv.
    + rewrite bind_Ok in Hrun.
      destruct (IH Hl' _ _ _ _ Hrun Hnd Hperm Hsub Hcomp) as (H1 & H2 & H3 & H4 & H5).
      split; [done|]. split; [done|]. split; [done|]. split; [|done].
      intros n Hn. apply elem_of_cons in Hn as [-> |Hn]; [|by apply H4].
      apply set_has_elem_of in Hv.
      apply components_loop_grows in Hrun as [more ->].
      apply elem_of_app. by left.
    + destruct (component_loop _ _ _ _ _) as [[v1 c1]|] eqn:Hc; [|done].
      rewrite !bind_Ok in Hrun.
      assert (node ∈ nodes G) as HnodeG by (apply Hl; constructor).
      pose proof (component_loop_NoDup _ _ _ _ _ _ _ Hc (set_add_NoDup _ _ Hnd)) as Hnd1.
      apply (component_loop_spec G (fun n => rtc (linked G) node n /\ n ∈ nodes G)) in Hc
        as (more & extra & -> & Hc1 & Hp1 & Hclosed & HP).
      2: { intros n m [Hr Hn] Hlk. split; [by eapply rtc_r|].
           destruct Hlk as [e [He [[Hs Ht]|[Hs Ht]]]]; destruct Hwf as [_ Hed];
             destruct (Hed e He); congruence. }
      2: { intros n Hn. apply list_elem_of_singleton in Hn as ->. done. }
      simpl in Hc1. subst c1. apply set_has_false in Hv.
      unfold set_add in *. apply set_has_false in Hv as Hv'. rewrite Hv' in *.
      assert (node ∈ extra) as Hnode.
      { rewrite Hp1. constructor. }
      assert (forall n, n ∈ extra -> n ∉ visited) as Hfresh.
      { intros n Hn Hvis. rewrite Hp1 in Hn.
        rewrite <- app_assoc in Hnd1. apply NoDup_app in Hnd1 as (_ & Hdis & _).
        by apply (Hdis n). }
      destruct (IH Hl' _ _ _ _ Hrun Hnd1) as (H1 & H2 & H3 & H4 & H5).
      * rewrite concat_app. simpl. rewrite app_nil_r, <- Hperm, Hp1. by rewrite <- app_assoc.
      * intros n Hn. rewrite <- app_assoc, elem_of_app in Hn. destruct Hn as [Hn|Hn]; [auto|].
        apply HP. by rewrite Hp1.
      * intros c Hc'. apply elem_of_app in Hc' as [Hc'|Hc']; [by apply Hcomp|].
        apply list_elem_of_singleton in Hc' as ->. split; [|split].
        -- intros ->. inversion Hnode.
        -- intros u v Hu Hv0. apply HP in Hu as [Hu _]. apply HP in Hv0 as [Hv0 _].
           etrans; [by apply rtc_linked_sym|done].
        -- intros n m Hn Hlk. pose proof (Hclosed n Hn m Hlk) as Hm.
           rewrite <- app_assoc, elem_of_app in Hm. destruct Hm as [Hm|Hm]; [|by rewrite Hp1].
           exfalso. rewrite Hperm in Hm. apply list_elem_of_In, in_concat in Hm as (c & Hc' & Hm).
           apply list_elem_of_In in Hc', Hm.
           destruct (Hcomp c Hc') as (_ & _ & Hcl).
           apply (Hfresh n Hn). rewrite Hperm. apply list_elem_of_In, in_concat.
           exists c. rewrite <- !list_elem_of_In. split; [done|].
           apply (Hcl m n Hm). by apply linked_sym.
      * split; [done|]. split; [done|]. split; [done|]. split; [|done].
        intros n Hn. apply elem_of_cons in Hn as [-> |Hn]; [|by apply H4].
        apply components_loop_grows in Hrun as [more' ->].
        rewrite !elem_of_app, list_elem_of_singleton. auto.
Qed.

(** X11: [weaklyConnectedComponents] returns a partition of the nodes of
    the graph into non-empty lists such that any two nodes of one list are
    joined by a chain of edges (taken in either direction) and no edge leaves
    a list. *)
Theorem weaklyConnectedComponents_partition (G : graph) :
  wf_graph G ->
  exists components,
    weaklyConnectedComponents G = Ok components
    /\ concat components ≡ₚ nodes G
    /\ forall c, c ∈ components ->
         c <> [] /\ (forall u v, u ∈ c -> v ∈ c -> rtc (linked G) u v)
         /\ (forall n m, n ∈ c -> linked G n m -> m ∈ c).
Proof.
  intros Hwf. destruct (weaklyConnectedComponents_total G Hwf) as [cs Hcs].
  exists cs. split; [done|]. unfold weaklyConnectedComponents in Hcs.
  destruct (for_each _ (nodes G) ([], [])) as [[visited components]|] eqn:Hrun; [|done].
  rewrite bind_Ok in Hcs. simpl in Hcs. injection Hcs as <-.
  destruct (components_loop G (nodes G) Hwf (fun n Hn => Hn) [] [] visited components Hrun)
    as (Hnd & Hperm & Hsub & Hall & Hcomp).
  - constructor.
  - done.
  - intros n Hn. inversion Hn.
  - intros c Hc. inversion Hc.
  - split; [|done]. rewrite <- Hperm. apply NoDup_Permutation; [done | apply Hwf|].
    intros n. split; auto.
Qed.

Lemma pick_largest_spec (components : list (list string)) :
  components <> [] ->
  pick_largest components ∈ components
  /\ forall c, c ∈ components -> length c <= length (pick_largest components).
Proof.
  destruct components as [|c0 r]; [done|]. intros _. unfold pick_largest.
  revert c0. induction r as [|c1 r IH]; intros c0; simpl.
  - split; [constructor|]. intros c Hc. apply list_elem_of_singleton in Hc as ->. done.
  - destruct (Nat.ltb (length c0) (length c1)) eqn:Hlt.
    + destruct (IH c1) as [Hin Hmax]. split; [by constructor|].
      intros c Hc. apply elem_of_cons in Hc as [-> |Hc]; [|by apply Hmax].
      apply Nat.ltb_lt in Hlt. specialize (Hmax c1 (list_elem_of_here _ _)). lia.
    + destruct (IH c0) as [Hin Hmax]. split.
      * apply elem_of_cons in Hin as [-> |Hin]; [constructor|]. by do 2 constructor.
      * intros c Hc. apply Nat.ltb_ge in Hlt.
        apply elem_of_cons in Hc as [-> |Hc]; [apply Hmax; constructor|].
        apply elem_of_cons in Hc as [-> |Hc].
        -- specialize (Hmax c0 (list_elem_of_here _ _)). lia.
        -- apply Hmax. by constructor.
Qed.

(** X12: [get_largest_component] returns the empty graph as it is;
    otherwise it keeps the nodes of one weakly connected component, one that
    no other component exceeds in size, in their order and with their
    attributes, together with the edges among them and the graph attributes. *)
Theorem get_largest_component_keeps_largest (G : graph) :
  wf_graph G ->
  exists G',
    get_largest_component G = Ok G'
    /\ g_attrs G' = g_attrs G
    /\ (order G = 0 -> G' = G)
    /\ (order G <> 0 ->
        exists components c,
          weaklyConnectedComponents G = Ok components
          /\ c ∈ components
          /\ (forall c', c' ∈ components -> length c' <= length c)
          /\ g_nodes G' = filter (fun na => fst na ∈ c) (g_nodes G)
          /\ g_edges G' = filter (fun e => e_src e ∈ c /\ e_tgt e ∈ c) (g_edges G)).
Proof.
  intros Hwf. unfold get_largest_component.
  destruct (Nat.eqb (order G) 0) eqn:Ho.
  { exists G. split; [done|]. split; [done|]. split; [done|].
    apply Nat.eqb_eq in Ho. done. }
  apply Nat.eqb_neq in Ho.
  destruct (weaklyConnectedComponents_partition G Hwf) as (cs & Hcs & Hperm & Hcomp).
  rewrite Hcs, bind_Ok.
  assert (cs <> []) as Hne.
  { intros ->. simpl in Hperm. apply Permutation_nil_l in Hperm.
    unfold order, nodes in *. destruct (g_nodes G); done. }
  assert (Nat.eqb (length cs) 0 = false) as -> by (by destruct cs).
  destruct (pick_largest_spec cs Hne) as [Hin Hmax].
  set (c := pick_largest cs) in *.
  set (keep := set_of_list c).
  destruct (drop_loop (fun node => negb (set_has node keep)) false (nodes G)
              (proj1 Hwf) G Hwf) as (G' & Hrun & _ & Hn & Ha); [done|].
  exists G'. split.
  { rewrite <- Hrun. apply for_each_ext. intros H node. simpl. by rewrite andb_true_r. }
  split; [done|]. split; [done|]. intros _.
  exists cs, c. split; [done|]. split; [done|]. split; [done|].
  assert (forall n, negb (set_has n keep) = true <-> n ∉ c) as Hkeep.
  { intros n. unfold keep. rewrite negb_true_iff, set_has_set_of_list. apply set_has_false. }
  split.
  - rewrite Hn. apply filter_ext_in. intros [n a] Hna. simpl. rewrite Hkeep. split.
    + intros Hk. destruct (decide (n ∈ c)); [done|]. exfalso. apply Hk. split; [|done].
      apply elem_of_map_iff. by exists (n, a).
    + intros Hc [_ Hx]. done.
  - rewrite (drop_loop_edges _ _ (nodes G) (proj1 Hwf) G G' Hwf (fun n Hx => Hx) Hrun).
    apply filter_ext_in. intros e He. rewrite !Hkeep.
    destruct Hwf as [_ Hed]. destruct (Hed e He) as [Hs Ht]. split.
    + intros Hk. split.
      * destruct (decide (e_src e ∈ c)); [done|]. exfalso. apply Hk. auto.
      * destruct (decide (e_tgt e ∈ c)); [done|]. exfalso. apply Hk. auto.
    + intros [Hs' Ht'] [[_ ?]|[_ ?]]; done.
Qed.

(** * Further properties of the consolidation *)

(** ** The order of the sort *)




Lemma string_ltb_asym x y : String.ltb y x = true -> String.ltb x y = false.
Proof.
  unfold String.ltb. rewrite (String.compare_antisym x y).
  by destruct (String.compare y x).
Qed.



(** ** The nodes and the edges of the consolidated graph *)

Section ConsolidateMore.
Context `{Runtime} `{MathLib}.













End ConsolidateMore.

(** * Further properties of the builder *)

Lemma obj_assign_NoDup {V} (a b : list (string * V)) :
  NoDup (map fst a) -> NoDup (map fst (obj_assign a b)).
Proof.
  unfold obj_assign. revert a. induction b as [|[k v] b IH]; intros a Hnd; simpl; [done|].
  by apply IH, obj_set_NoDup.
Qed.

Lemma obj_assign_snoc {V} (a b : list (string * V)) k v :
  obj_assign a (b ++ [(k, v)]) = obj_set k v (obj_assign a b).
Proof. unfold obj_assign. by rewrite fold_left_app. Qed.

Lemma drop_repeats_elem_of (l : list Z) : forall prev x,
  x ∈ drop_repeats prev l -> x ∈ l.
Proof.
  induction l as [|y l IH]; intros prev x; simpl; [done|].
  destruct prev as [p|].
  - destruct (Z.eqb y p).
    + intros Hin. right. by apply (IH (Some y)).
    + intros Hin. apply elem_of_cons in Hin as [-> |Hin]; [by left|].
      right. by apply (IH (Some y)).
  - intros Hin. apply elem_of_cons in Hin as [-> |Hin]; [by left|].
    right. by apply (IH (Some y)).
Qed.

(** After the repeats are dropped no two neighbours in the list are equal. *)
Lemma drop_repeats_head (l : list Z) : forall prev x r,
  drop_repeats prev l = x :: r -> prev <> Some x.
Proof.
  induction l as [|y l IH]; intros prev x r; simpl; [done|].
  destruct prev as [p|]; [|done].
  destruct (Z.eqb y p) eqn:E.
  - apply Z.eqb_eq in E as ->. intros Hd. by apply IH in Hd.
  - apply Z.eqb_neq in E. intros [= <- _]. congruence.
Qed.

Lemma drop_repeats_consecutive (l : list Z) : forall prev u v,
  (u, v) ∈ consecutive (drop_repeats prev l) -> u <> v.
Proof.
  induction l as [|y l IH]; intros prev u v; simpl; [intros Hin; inversion Hin|].
  assert (forall u v, (u, v) ∈ consecutive (y :: drop_repeats (Some y) l) -> u <> v) as Hy.
  { intros u' v'. destruct (drop_repeats (Some y) l) as [|z r] eqn:Hd;
      [intros Hin; inversion Hin|].
    change (consecutive (y :: z :: r)) with ((y, z) :: consecutive (z :: r)).
    intros Hin. apply elem_of_cons in Hin as [[= -> ->]|Hin].
    - apply drop_repeats_head in Hd. congruence.
    - rewrite <- Hd in Hin. by apply IH in Hin. }
  destruct prev as [p|]; [|apply Hy].
  destruct (Z.eqb y p); [apply IH | apply Hy].
Qed.

Lemma consecutive_rev (l : list Z) u v :
  (u, v) ∈ consecutive (rev l) <-> (v, u) ∈ consecutive l.
Proof.
  assert (forall l a b, consecutive (l ++ [a; b]) = consecutive (l ++ [a]) ++ [(a, b)]) as Hsn.
  { clear. induction l as [|x [|y r] IH]; intros a b; [done | done |].
    change (consecutive ((x :: y :: r) ++ [a; b]))
      with ((x, y) :: consecutive ((y :: r) ++ [a; b])).
    rewrite IH. done. }
  revert u v. induction l as [|x [|y r] IH]; intros u v.
  - split; intros Hin; inversion Hin.
  - split; intros Hin; inversion Hin.
  - change (consecutive (x :: y :: r)) with ((x, y) :: consecutive (y :: r)).
    change (rev (x :: y :: r)) with ((rev r ++ [y]) ++ [x]).
    rewrite <- app_assoc. simpl. rewrite Hsn, elem_of_app, elem_of_cons.
    change (rev r ++ [y]) with (rev (y :: r)). rewrite IH.
    change (match r with [] => [] | v0 :: _ => (y, v0) :: consecutive r end)
      with (consecutive (y :: r)).
    rewrite (elem_of_cons (consecutive (y :: r))). split.
    + intros [?|[[= -> ->]|Hin]]; [by right | by left | inversion Hin].
    + intros [[= -> ->]|?]; [right; by left | by left].
Qed.

Lemma id_key_inj (a b : Z) : id_key a = id_key b -> a = b.
Proof. unfold id_key. apply (inj pretty). Qed.

Lemma keyed_nil {V} : keyed (fun (_ : Z) (_ : V) => False) [].
Proof.
  split; [constructor|]. split; [done|]. intros id v [].
Qed.

Lemma keyed_iff {V} (s1 s2 : Z -> V -> Prop) (o : list (string * V)) :
  (forall id v, s1 id v <-> s2 id v) -> keyed s1 o -> keyed s2 o.
Proof.
  intros Hiff (Hnd & Hfrom & Hto). split; [done|]. split.
  - intros k v Hg. destruct (Hfrom k v Hg) as (id & Hs & ->). exists id.
    split; [by apply Hiff | done].
  - intros id v Hs. by apply (Hto id v), Hiff.
Qed.

Lemma keyed_set {V} (src : Z -> V -> Prop) (o : list (string * V)) id v :
  keyed src o ->
  keyed (fun id' v' => src id' v' \/ (id' = id /\ v' = v)) (obj_set (id_key id) v o).
Proof.
  intros (Hnd & Hfrom & Hto). split; [by apply obj_set_NoDup|]. split.
  - intros k v'. rewrite obj_get_set. case_decide as Hk.
    + intros [= <-]. exists id. auto.
    + intros Hg. destruct (Hfrom k v' Hg) as (id' & Hs & ->). exists id'. auto.
  - intros id' v' Hs. rewrite obj_get_set. case_decide; [by eexists|].
    destruct Hs as [Hs|[-> _]]; [by apply (Hto id' v') | done].
Qed.

Lemma keyed_assign {V} (s1 s2 : Z -> V -> Prop) (a b : list (string * V)) :
  keyed s1 a -> keyed s2 b -> keyed (fun id v => s1 id v \/ s2 id v) (obj_assign a b).
Proof.
  intros (Hnd1 & Hfrom1 & Hto1) (Hnd2 & Hfrom2 & Hto2).
  split; [by apply obj_assign_NoDup|]. split.
  - intros k v. rewrite obj_assign_get by done.
    destruct (obj_get k b) as [v2|] eqn:Hb.
    + intros [= <-]. destruct (Hfrom2 k v2 Hb) as (id & Hs & ->). exists id. auto.
    + intros Hg. destruct (Hfrom1 k v Hg) as (id & Hs & ->). exists id. auto.
  - intros id v Hs. rewrite obj_assign_get by done.
    destruct (obj_get (id_key id) b) as [v2|] eqn:Hb; [by eexists|].
    destruct Hs as [Hs|Hs]; [by apply (Hto1 id v)|].
    destruct (Hto2 id v Hs) as [? ?]. congruence.
Qed.

Section Collect.
Context (settings : Settings).

Lemma parse_keyed (els : list element) :
  keyed (node_source settings [els]) (fst (_parse_nodes_paths settings els))
  /\ keyed (way_source settings [els]) (snd (_parse_nodes_paths settings els)).
Proof.
  unfold _parse_nodes_paths. induction els as [|el els IH] using rev_ind.
  - simpl. split.
    + eapply keyed_iff; [|apply keyed_nil]. intros id v. split; [done|].
      intros (lat & lon & tags & (r & Hr & Hin) & _).
      apply list_elem_of_singleton in Hr as ->. inversion Hin.
    + eapply keyed_iff; [|apply keyed_nil]. intros id v. split; [done|].
      intros (nds & tags & (r & Hr & Hin) & _).
      apply list_elem_of_singleton in Hr as ->. inversion Hin.
  - rewrite fold_left_app. simpl.
    destruct (fold_left _ els ([], [])) as [nodes paths]. simpl in IH.
    destruct IH as [IHn IHp].
    assert (forall (x : element), (exists r, r ∈ [els ++ [el]] /\ x ∈ r)
              <-> (exists r, r ∈ [els] /\ x ∈ r) \/ x = el) as Hsn.
    { intros x. split.
      - intros (r & Hr & Hin). apply list_elem_of_singleton in Hr as ->.
        apply elem_of_app in Hin as [Hin|Hin].
        + left. exists els. split; [constructor | done].
        + right. by apply list_elem_of_singleton in Hin.
      - intros [(r & Hr & Hin)| ->].
        + apply list_elem_of_singleton in Hr as ->. exists (els ++ [el]).
          split; [constructor|]. apply elem_of_app. by left.
        + exists (els ++ [el]). split; [constructor|]. apply elem_of_app. right.
          constructor. }
    destruct el as [id lat lon tags|id nds tags|id]; simpl.
    + split.
      * eapply keyed_iff; [|apply (keyed_set _ _ id _ IHn)]. intros id' v. split.
        -- intros [(lat' & lon' & tags' & Hr & ->)|[-> ->]].
           ++ exists lat', lon', tags'. split; [|done]. apply Hsn. by left.
           ++ exists lat, lon, tags. split; [|done]. apply Hsn. by right.
        -- intros (lat' & lon' & tags' & Hr & ->). apply Hsn in Hr as [Hr|[= -> -> -> ->]].
           ++ left. by exists lat', lon', tags'.
           ++ by right.
      * eapply keyed_iff; [|exact IHp]. intros id' v. split.
        -- intros (nds & tags' & Hr & ->). exists nds, tags'. split; [|done].
           apply Hsn. by left.
        -- intros (nds & tags' & Hr & ->). apply Hsn in Hr as [Hr|[=]].
           by exists nds, tags'.
    + split.
      * eapply keyed_iff; [|exact IHn]. intros id' v. split.
        -- intros (lat & lon & tags' & Hr & ->). exists lat, lon, tags'. split; [|done].
           apply Hsn. by left.
        -- intros (lat & lon & tags' & Hr & ->). apply Hsn in Hr as [Hr|[=]].
           by exists lat, lon, tags'.
      * eapply keyed_iff; [|apply (keyed_set _ _ id _ IHp)]. intros id' v. split.
        -- intros [(nds' & tags' & Hr & ->)|[-> ->]].
           ++ exists nds', tags'. split; [|done]. apply Hsn. by left.
           ++ exists nds, tags. split; [|done]. apply Hsn. by right.
        -- intros (nds' & tags' & Hr & ->). apply Hsn in Hr as [Hr|[= -> -> ->]].
           ++ left. by exists nds', tags'.
           ++ by right.
    + split.
      * eapply keyed_iff; [|exact IHn]. intros id' v. split.
        -- intros (lat & lon & tags' & Hr & ->). exists lat, lon, tags'. split; [|done].
           apply Hsn. by left.
        -- intros (lat & lon & tags' & Hr & ->). apply Hsn in Hr as [Hr|[=]].
           by exists lat, lon, tags'.
      * eapply keyed_iff; [|exact IHp]. intros id' v. split.
        -- intros (nds & tags' & Hr & ->). exists nds, tags'. split; [|done].
           apply Hsn. by left.
        -- intros (nds & tags' & Hr & ->). apply Hsn in Hr as [Hr|[=]].
           by exists nds, tags'.
Qed.

Lemma collect_keyed (rs : list (list element)) :
  keyed (node_source settings rs) (fst (collect_elements settings rs))
  /\ keyed (way_source settings rs) (snd (collect_elements settings rs)).
Proof.
  unfold collect_elements. induction rs as [|r rs IH] using rev_ind.
  - simpl. split.
    + eapply keyed_iff; [|apply keyed_nil]. intros id v. split; [done|].
      intros (lat & lon & tags & (r & Hr & _) & _). inversion Hr.
    + eapply keyed_iff; [|apply keyed_nil]. intros id v. split; [done|].
      intros (nds & tags & (r & Hr & _) & _). inversion Hr.
  - rewrite fold_left_app. simpl.
    destruct (fold_left _ rs ([], [])) as [nodes paths]. simpl in IH.
    destruct IH as [IHn IHp]. destruct (parse_keyed r) as [Hn Hp].
    destruct (_parse_nodes_paths settings r) as [nt pt]. simpl in *.
    assert (forall (x : element), (exists r0, r0 ∈ rs ++ [r] /\ x ∈ r0)
              <-> (exists r0, r0 ∈ rs /\ x ∈ r0) \/ (exists r0, r0 ∈ [r] /\ x ∈ r0)) as Hsn.
    { intros x. split.
      - intros (r0 & Hr & Hin). apply elem_of_app in Hr as [Hr|Hr]; [left|right]; eauto.
      - intros [(r0 & Hr & Hin)|(r0 & Hr & Hin)]; exists r0; (split; [|done]);
          apply elem_of_app; auto. }
    split.
    + eapply keyed_iff; [|apply (keyed_assign _ _ _ _ IHn Hn)]. intros id v. split.
      * intros [(lat & lon & tags & Hr & ->)|(lat & lon & tags & Hr & ->)];
          exists lat, lon, tags; (split; [|done]); apply Hsn; auto.
      * intros (lat & lon & tags & Hr & ->). apply Hsn in Hr as [Hr|Hr]; [left|right];
          by exists lat, lon, tags.
    + eapply keyed_iff; [|apply (keyed_assign _ _ _ _ IHp Hp)]. intros id v. split.
      * intros [(nds & tags & Hr & ->)|(nds & tags & Hr & ->)];
          exists nds, tags; (split; [|done]); apply Hsn; auto.
      * intros (nds & tags & Hr & ->). apply Hsn in Hr as [Hr|Hr]; [left|right];
          by exists nds, tags.
Qed.

End Collect.

Lemma add_nodes_run (l : list (string * attrs)) : forall G,
  NoDup (map fst l) -> (forall n, n ∈ map fst l -> hasNode G n = false) ->
  for_each (fun G nd => addNode G (fst nd) (snd nd)) l G
  = Ok (Graph (g_attrs G) (g_nodes G ++ l) (g_edges G) (g_next_key G)).
Proof.
  induction l as [|[n a] l IH]; intros G Hnd Hfresh.
  - simpl. rewrite app_nil_r. by destruct G.
  - rewrite for_each_cons. simpl in Hnd. apply NoDup_cons in Hnd as [Hn Hnd].
    cbn [fst snd].
    assert (addNode G n a
            = Ok (Graph (g_attrs G) (g_nodes G ++ [(n, a)]) (g_edges G) (g_next_key G)))
      as -> by (unfold addNode; by rewrite (Hfresh n) by (simpl; constructor)).
    rewrite bind_Ok, IH; [|done|].
    + simpl. by rewrite <- app_assoc.
    + intros m Hm. apply hasNode_false. unfold nodes. simpl. rewrite map_app. simpl.
      rewrite elem_of_app, list_elem_of_singleton. intros [Hin| ->]; [|done].
      assert (hasNode G m = false) as Hf by (apply Hfresh; simpl; by right).
      by apply hasNode_false in Hf.
Qed.

Lemma add_edges_outcome (src tgt : Z * Z -> string) (a : attrs) (l : list (Z * Z)) :
  forall G,
  match for_each (fun G uv => addEdge G (src uv) (tgt uv) a) l G with
  | Ok G' =>
      (forall uv, uv ∈ l -> hasNode G (src uv) = true /\ hasNode G (tgt uv) = true)
      /\ g_nodes G' = g_nodes G /\ g_attrs G' = g_attrs G
      /\ g_next_key G' = g_next_key G + length l
      /\ exists new, g_edges G' = g_edges G ++ new
           /\ map edge_triple new = map (fun uv => (src uv, tgt uv, a)) l
           /\ map e_key new = seq (g_next_key G) (length l)
  | Err e =>
      e = NotFoundGraphError
      /\ exists uv, uv ∈ l /\ (hasNode G (src uv) = false \/ hasNode G (tgt uv) = false)
  end.
Proof.
  induction l as [|uv l IH]; intros G.
  - simpl. split; [intros uv Hin; inversion Hin|]. split; [done|]. split; [done|].
    split; [lia|]. exists []. by rewrite app_nil_r.
  - rewrite for_each_cons.
    destruct (hasNode G (src uv)) eqn:Hs.
    2:{ assert (addEdge G (src uv) (tgt uv) a = Err NotFoundGraphError) as ->
          by (unfold addEdge; by rewrite Hs).
        simpl. split; [done|]. exists uv. split; [constructor | by left]. }
    destruct (hasNode G (tgt uv)) eqn:Ht.
    2:{ assert (addEdge G (src uv) (tgt uv) a = Err NotFoundGraphError) as ->
          by (unfold addEdge; by rewrite Hs, Ht).
        simpl. split; [done|]. exists uv. split; [constructor | by right]. }
    rewrite (addEdge_Ok _ _ _ a Hs Ht), bind_Ok.
    set (G1 := Graph _ _ _ _). specialize (IH G1).
    destruct (for_each _ l G1) as [G'|e].
    + destruct IH as (Hin & Hn & Ha & Hk & new & He & Hv & Hkeys).
      split.
      { intros uv' Huv. apply elem_of_cons in Huv as [-> |Huv]; [done|]. by apply Hin. }
      split; [done|]. split; [done|]. split; [rewrite Hk; simpl; lia|].
      exists (Edge (g_next_key G) (src uv) (tgt uv) a :: new). split.
      { rewrite He. simpl. by rewrite <- app_assoc. }
      split; simpl; [by rewrite Hv | by rewrite Hkeys].
    + destruct IH as (-> & uv' & Huv & Hmiss). split; [done|].
      exists uv'. split; [by right | done].
Qed.

Section AddPaths.
Context (settings : Settings) (bidirectional : bool).

Lemma add_path_outcome (G : graph) (p : path) :
  match add_path settings bidirectional G p with
  | Ok G' =>
      g_nodes G' = g_nodes G /\ g_attrs G' = g_attrs G
      /\ exists new, g_edges G' = g_edges G ++ new
           /\ map edge_triple new = path_triples settings bidirectional p
           /\ map e_key new = seq (g_next_key G) (length new)
           /\ g_next_key G' = g_next_key G + length new
           /\ forall t, t ∈ path_triples settings bidirectional p ->
                hasNode G (fst (fst t)) = true /\ hasNode G (snd (fst t)) = true
  | Err e =>
      e = NotFoundGraphError
      /\ exists n, n ∈ path_nodes p /\ hasNode G (id_key n) = false
  end.
Proof.
  assert (forall n m, (n, m) ∈ consecutive (path_order settings bidirectional p) ->
            n ∈ path_nodes p /\ m ∈ path_nodes p) as Hmem.
  { intros n m Hin. apply consecutive_elem_of in Hin. unfold path_order in Hin.
    destruct (_ && _); [|done].
    by rewrite !list_elem_of_In, <- !in_rev, <- !list_elem_of_In in Hin. }
  unfold add_path.
  fold (path_one_way settings bidirectional p).
  fold (path_order settings bidirectional p).
  fold (path_base settings bidirectional p).
  fold (forward_attrs settings bidirectional p).
  fold (backward_attrs settings bidirectional p).
  pose proof (add_edges_outcome (fun uv => id_key (fst uv)) (fun uv => id_key (snd uv))
                (forward_attrs settings bidirectional p)
                (consecutive (path_order settings bidirectional p)) G) as H1.
  cbv beta in H1.
  destruct (for_each _ (consecutive (path_order settings bidirectional p)) G)
    as [G1|e] eqn:Hrun1.
  2:{ destruct H1 as (-> & [n m] & Hin & Hmiss). simpl. split; [done|].
      destruct (Hmem n m Hin) as [Hn Hm]. destruct Hmiss; eauto. }
  destruct H1 as (Hin & Hn1 & Ha1 & Hk1 & new1 & He1 & Hv1 & Hkeys1).
  rewrite bind_Ok. unfold path_triples.
  destruct (negb (path_one_way settings bidirectional p)) eqn:Hone.
  - pose proof (add_edges_outcome (fun uv => id_key (snd uv)) (fun uv => id_key (fst uv))
                  (backward_attrs settings bidirectional p)
                  (consecutive (path_order settings bidirectional p)) G1) as H2.
    cbv beta in H2.
    destruct (for_each _ (consecutive (path_order settings bidirectional p)) G1)
      as [G2|e] eqn:Hrun2.
    2:{ destruct H2 as (-> & [n m] & Hin2 & Hmiss). exfalso.
        destruct (Hin _ Hin2) as [Hs Ht]. unfold hasNode in *. rewrite Hn1 in Hmiss.
        simpl in *. destruct Hmiss; congruence. }
    destruct H2 as (_ & Hn2 & Ha2 & Hk2 & new2 & He2 & Hv2 & Hkeys2).
    split; [congruence|]. split; [congruence|].
    exists (new1 ++ new2). split; [by rewrite He2, He1, app_assoc|].
    assert (length new1 = length (consecutive (path_order settings bidirectional p)))
      as Hl1 by (rewrite <- (length_map edge_triple), Hv1; by rewrite length_map).
    assert (length new2 = length (consecutive (path_order settings bidirectional p)))
      as Hl2 by (rewrite <- (length_map edge_triple), Hv2; by rewrite length_map).
    split; [by rewrite map_app, Hv1, Hv2|].
    split.
    { rewrite map_app, Hkeys1, Hkeys2, Hk1, length_app, seq_app, Hl1, Hl2. done. }
    split; [rewrite Hk2, Hk1, length_app; lia|].
    intros t Ht. apply elem_of_app in Ht as [Ht|Ht];
      apply elem_of_map_iff in Ht as ([n m] & Huv & ->); simpl;
      destruct (Hin _ Huv); auto.
  - split; [done|]. split; [done|]. exists new1. rewrite app_nil_r.
    assert (length new1 = length (consecutive (path_order settings bidirectional p)))
      as Hl1 by (rewrite <- (length_map edge_triple), Hv1; by rewrite length_map).
    split; [done|]. split; [done|]. split; [by rewrite Hl1|]. split; [by rewrite Hl1|].
    intros t Ht. apply elem_of_map_iff in Ht as ([n m] & Huv & ->); simpl.
    destruct (Hin _ Huv); auto.
Qed.

Lemma add_paths_outcome (paths : list path) : forall G,
  match _add_paths settings G paths bidirectional with
  | Ok G' =>
      g_nodes G' = g_nodes G /\ g_attrs G' = g_attrs G
      /\ exists new, g_edges G' = g_edges G ++ new
           /\ map edge_triple new
              = concat (map (path_triples settings bidirectional) paths)
           /\ map e_key new = seq (g_next_key G) (length new)
           /\ g_next_key G' = g_next_key G + length new
           /\ forall t, t ∈ map edge_triple new ->
                hasNode G (fst (fst t)) = true /\ hasNode G (snd (fst t)) = true
  | Err e =>
      e = NotFoundGraphError
      /\ exists p n, p ∈ paths /\ n ∈ path_nodes p /\ hasNode G (id_key n) = false
  end.
Proof.
  unfold _add_paths. induction paths as [|p paths IH]; intros G.
  - simpl. split; [done|]. split; [done|]. exists []. rewrite app_nil_r.
    split; [done|]. split; [done|]. split; [done|]. split; [simpl; lia|].
    intros t Ht. inversion Ht.
  - rewrite for_each_cons. pose proof (add_path_outcome G p) as Hp.
    destruct (add_path settings bidirectional G p) as [G1|e].
    2:{ destruct Hp as (-> & n & Hn & Hmiss). simpl. split; [done|].
        exists p, n. split; [constructor | done]. }
    destruct Hp as (Hn1 & Ha1 & new1 & He1 & Hv1 & Hkeys1 & Hk1 & Hin1).
    rewrite bind_Ok. specialize (IH G1).
    destruct (for_each _ paths G1) as [G2|e].
    2:{ destruct IH as (-> & p' & n & Hp' & Hn & Hmiss). split; [done|].
        exists p', n. split; [by right|]. split; [done|].
        unfold hasNode in *. by rewrite <- Hn1. }
    destruct IH as (Hn2 & Ha2 & new2 & He2 & Hv2 & Hkeys2 & Hk2 & Hin2).
    split; [congruence|]. split; [congruence|].
    exists (new1 ++ new2). split; [by rewrite He2, He1, app_assoc|].
    split; [simpl; by rewrite map_app, Hv1, Hv2|].
    split; [by rewrite map_app, Hkeys1, Hkeys2, Hk1, length_app, seq_app|].
    split; [rewrite Hk2, Hk1, length_app; lia|].
    intros t Ht. rewrite map_app in Ht. apply elem_of_app in Ht as [Ht|Ht].
    + rewrite Hv1 in Ht. by apply Hin1.
    + destruct (Hin2 t Ht) as [Hs Hd]. unfold hasNode in *. by rewrite <- Hn1.
Qed.

End AddPaths.

Section Lengths.
Context `{Runtime} `{MathLib}.

Lemma stamped_key G e : e_key (stamped G e) = e_key e.
Proof.
  unfold stamped. destruct (getNodeAttributes G (e_src e)); [|done].
  destruct (getNodeAttributes G (e_tgt e)); [|done]. by destruct (_ && _).
Qed.

Lemma stamped_ends G e :
  e_src (stamped G e) = e_src e /\ e_tgt (stamped G e) = e_tgt e.
Proof.
  unfold stamped. destruct (getNodeAttributes G (e_src e)); [|done].
  destruct (getNodeAttributes G (e_tgt e)); [|done]. by destruct (_ && _).
Qed.

Lemma map_key_other (key : nat) (f : edge -> edge) (l : list edge) :
  key ∉ map e_key l ->
  map (fun e => if Nat.eqb (e_key e) key then f e else e) l = l.
Proof.
  induction l as [|e l IH]; simpl; [done|]. intros Hn.
  apply not_elem_of_cons in Hn as [Hne Hn]. rewrite IH by done.
  destruct (Nat.eqb (e_key e) key) eqn:E; [|done].
  apply Nat.eqb_eq in E. congruence.
Qed.

(** On a graph whose edges have distinct keys and join present nodes, the
    loop of [add_edge_lengths] stamps every edge once. *)
Lemma add_edge_lengths_map (G : graph) :
  NoDup (map e_key (g_edges G)) ->
  (forall e, e ∈ g_edges G -> hasNode G (e_src e) = true /\ hasNode G (e_tgt e) = true) ->
  add_edge_lengths G
  = Ok (Graph (g_attrs G) (g_nodes G) (map (stamped G) (g_edges G)) (g_next_key G)).
Proof.
  intros Hnd Hed. unfold add_edge_lengths.
  assert (forall rest done_ G1,
            g_edges G = done_ ++ rest ->
            g_nodes G1 = g_nodes G -> g_attrs G1 = g_attrs G ->
            g_next_key G1 = g_next_key G ->
            g_edges G1 = map (stamped G) done_ ++ rest ->
            for_each (fun G0 e =>
                uNode ← getNodeAttributes G0 (e_src e);
                vNode ← getNodeAttributes G0 (e_tgt e);
                if is_defined (attr uNode "y") && is_defined (attr uNode "x")
                   && is_defined (attr vNode "y") && is_defined (attr vNode "x")
                then setEdgeAttribute G0 (e_key e) "length"
                       (VNum (great_circle (to_number (attr uNode "y"))
                                (to_number (attr uNode "x"))
                                (to_number (attr vNode "y"))
                                (to_number (attr vNode "x"))))
                else Ok G0) rest G1
            = Ok (Graph (g_attrs G) (g_nodes G) (map (stamped G) (g_edges G))
                        (g_next_key G))) as Hloop.
  { induction rest as [|e rest IH]; intros done_ G1 Hsplit Hn Ha Hk He.
    - simpl. rewrite app_nil_r in Hsplit, He. rewrite Hsplit, <- He, <- Hn, <- Ha, <- Hk.
      by destruct G1.
    - rewrite for_each_cons.
      assert (e ∈ g_edges G) as Hin
        by (rewrite Hsplit; apply elem_of_app; right; constructor).
      destruct (Hed e Hin) as [Hs Ht].
      apply obj_has_get in Hs as [au Hau], Ht as [av Hav].
      assert (getNodeAttributes G (e_src e) = Ok au) as Hgu0
        by (unfold getNodeAttributes; by rewrite Hau).
      assert (getNodeAttributes G (e_tgt e) = Ok av) as Hgv0
        by (unfold getNodeAttributes; by rewrite Hav).
      assert (getNodeAttributes G1 (e_src e) = Ok au) as Hgu
        by (unfold getNodeAttributes; by rewrite Hn, Hau).
      assert (getNodeAttributes G1 (e_tgt e) = Ok av) as Hgv
        by (unfold getNodeAttributes; by rewrite Hn, Hav).
      cbv beta. rewrite Hgu, bind_Ok, Hgv, bind_Ok.
      assert (g_edges G = (done_ ++ [e]) ++ rest) as Hsplit'
        by (by rewrite <- app_assoc).
      rewrite Hsplit, map_app in Hnd. simpl in Hnd.
      apply NoDup_app in Hnd as (_ & Hdisj & Hnd2).
      apply NoDup_cons in Hnd2 as [Hfresh _].
      destruct (is_defined (attr au "y") && is_defined (attr au "x")
                && is_defined (attr av "y") && is_defined (attr av "x")) eqn:Hd.
      + unfold setEdgeAttribute.
        assert (existsb (fun e0 => Nat.eqb (e_key e0) (e_key e)) (g_edges G1) = true) as ->.
        { apply existsb_exists. exists e. split; [|apply Nat.eqb_refl].
          rewrite He. apply in_or_app. right. by left. }
        rewrite bind_Ok. apply (IH (done_ ++ [e])); try done.
        simpl. rewrite He, !map_app. simpl. rewrite Nat.eqb_refl.
        rewrite !map_key_other.
        * rewrite <- app_assoc. simpl. unfold stamped. by rewrite Hgu0, Hgv0, Hd.
        * done.
        * rewrite map_map. erewrite map_ext; [|intros; apply stamped_key].
          intros Hk'. by apply (Hdisj (e_key e)); [|left].
      + rewrite bind_Ok. apply (IH (done_ ++ [e])); try done.
        rewrite He, map_app, <- app_assoc. simpl.
        unfold stamped. by rewrite Hgu0, Hgv0, Hd. }
  by apply (Hloop (g_edges G) [] G).
Qed.

(** X17: on a graph whose edges have distinct keys and join nodes of the
    graph, [add_edge_lengths] returns and changes nothing but [length]
    attributes: an edge whose two ends both have [x] and [y] gets the
    great-circle distance between them as its [length], every other edge
    keeps its attributes; nodes, graph attributes, edge order, keys and
    ends stay as they were. *)
Theorem add_edge_lengths_stamps (G : graph) :
  wf_graph G -> NoDup (map e_key (g_edges G)) ->
  exists G',
    add_edge_lengths G = Ok G'
    /\ g_nodes G' = g_nodes G /\ g_attrs G' = g_attrs G
    /\ Forall2 (fun e e' =>
                  e_key e' = e_key e /\ e_src e' = e_src e /\ e_tgt e' = e_tgt e
                  /\ exists uNode vNode,
                       getNodeAttributes G (e_src e) = Ok uNode
                       /\ getNodeAttributes G (e_tgt e) = Ok vNode
                       /\ e_attrs e'
                          = if is_defined (attr uNode "y") && is_defined (attr uNode "x")
                               && is_defined (attr vNode "y") && is_defined (attr vNode "x")
                            then obj_set "length"
                                   (VNum (great_circle (to_number (attr uNode "y"))
                                                       (to_number (attr uNode "x"))
                                                       (to_number (attr vNode "y"))
                                                       (to_number (attr vNode "x"))))
                                   (e_attrs e)
                            else e_attrs e)
               (g_edges G) (g_edges G').
Proof.
  intros [_ Hed] Hnd.
  assert (forall e, e ∈ g_edges G ->
            hasNode G (e_src e) = true /\ hasNode G (e_tgt e) = true) as Hed'.
  { intros e He. destruct (Hed e He). by rewrite !hasNode_elem_of. }
  eexists. split; [by apply add_edge_lengths_map|]. simpl.
  split; [done|]. split; [done|].
  apply Forall2_fmap_r, Forall_Forall2_diag, Forall_forall. intros e He.
  destruct (Hed' e He) as [Hs Ht].
  apply obj_has_get in Hs as [au Hau], Ht as [av Hav].
  unfold compose, stamped, getNodeAttributes. cbv beta. rewrite Hau, Hav.
  destruct (is_defined (attr au "y") && is_defined (attr au "x")
            && is_defined (attr av "y") && is_defined (attr av "x")) eqn:Hd;
    simpl; (do 3 (split; [done|])); exists au, av; by rewrite Hd.
Qed.

End Lengths.

Lemma copy_tags_defined useful tags (a : attrs) k :
  is_defined (attr a k) = true -> is_defined (attr (copy_tags useful tags a) k) = true.
Proof.
  destruct tags as [t|]; simpl; [|done]. revert a.
  induction useful as [|u r IH]; intros a Hd; simpl; [done|].
  apply IH. destruct (obj_get u t); [|done].
  unfold attr. rewrite obj_get_set. by case_decide.
Qed.

Lemma obj_values_get {V} (o : list (string * V)) v :
  NoDup (map fst o) -> v ∈ obj_values o -> exists k, obj_get k o = Some v.
Proof.
  intros Hnd Hin. apply elem_of_map_iff in Hin as ([k v'] & Hkv & ->).
  exists k. by apply obj_get_In.
Qed.

Lemma path_triples_elem settings bidirectional p (t : string * string * attrs) :
  t ∈ path_triples settings bidirectional p ->
  exists u v, (u, v) ∈ consecutive (path_order settings bidirectional p)
    /\ (t = (id_key u, id_key v, forward_attrs settings bidirectional p)
        \/ (path_one_way settings bidirectional p = false
            /\ t = (id_key v, id_key u, backward_attrs settings bidirectional p))).
Proof.
  unfold path_triples. intros Hin. apply elem_of_app in Hin as [Hin|Hin].
  - apply elem_of_map_iff in Hin as ([u v] & Huv & ->). exists u, v. auto.
  - destruct (path_one_way settings bidirectional p) eqn:Hone; simpl in Hin;
      [inversion Hin|].
    apply elem_of_map_iff in Hin as ([u v] & Huv & ->). exists u, v. auto.
Qed.

Lemma path_triples_both settings bidirectional p u v :
  (u, v) ∈ consecutive (path_order settings bidirectional p) ->
  (id_key u, id_key v, forward_attrs settings bidirectional p)
    ∈ path_triples settings bidirectional p
  /\ (path_one_way settings bidirectional p = false ->
      (id_key v, id_key u, backward_attrs settings bidirectional p)
        ∈ path_triples settings bidirectional p).
Proof.
  intros Huv. unfold path_triples. split.
  - apply elem_of_app. left. apply elem_of_map_iff. by exists (u, v).
  - intros ->. apply elem_of_app. right. simpl. apply elem_of_map_iff. by exists (u, v).
Qed.

Lemma path_attr_facts settings bidirectional p :
  NoDup (map fst (path_attrs p)) ->
  attr (forward_attrs settings bidirectional p) "reversed" = VBool false
  /\ attr (backward_attrs settings bidirectional p) "reversed" = VBool true
  /\ (forall k, k <> "reversed" ->
        attr (forward_attrs settings bidirectional p) k
        = attr (path_base settings bidirectional p) k
        /\ attr (backward_attrs settings bidirectional p) k
           = attr (path_base settings bidirectional p) k)
  /\ (all_oneway settings = false ->
      attr (path_base settings bidirectional p) "oneway"
      = VBool (path_one_way settings bidirectional p)).
Proof.
  intros Hnd.
  assert (NoDup (map fst (path_base settings bidirectional p))) as Hb.
  { unfold path_base. destruct (negb _); [by apply obj_set_NoDup | done]. }
  unfold forward_attrs, backward_attrs.
  rewrite !attr_spread by (by repeat apply obj_set_NoDup).
  rewrite !attr_set_eq. split; [done|]. split; [done|]. split.
  - intros k Hk. rewrite !attr_spread by (by repeat apply obj_set_NoDup).
    by rewrite !attr_set_ne by done.
  - intros Hall. unfold path_base. rewrite Hall. simpl. by rewrite attr_set_eq.
Qed.

Section CreateFacts.
Context `{Runtime} `{MathLib} (settings : Settings).

(** The run of [_create_graph] when the cache-only mode is off. *)
Lemma create_graph_run (now : string) (rs : list (list element)) (bidirectional : bool) :
  cache_only_mode settings = false ->
  _create_graph settings now rs bidirectional
  = if Nat.eqb (length (fst (collect_elements settings rs))) 0
       && Nat.eqb (length (snd (collect_elements settings rs))) 0
    then Err EmptyResponse
    else match _add_paths settings
                 (Graph [("created_date", VStr now); ("created_with", VStr "Tilerama");
                         ("crs", VStr (default_crs settings))]
                        (fst (collect_elements settings rs)) [] 0)
                 (obj_values (snd (collect_elements settings rs))) bidirectional with
         | Ok G2 => Ok (Graph (g_attrs G2) (g_nodes G2)
                              (map (stamped G2) (g_edges G2)) (g_next_key G2))
         | Err e => Err e
         end.
Proof.
  intros Hcache. unfold _create_graph. rewrite Hcache. cbn [negb].
  change (fold_left _ rs ([], [])) with (collect_elements settings rs).
  destruct (collect_keyed settings rs) as [(Hndn & _) _].
  destruct (collect_elements settings rs) as [ns ps]. cbn [fst snd] in *.
  destruct (Nat.eqb (length ns) 0 && Nat.eqb (length ps) 0); [done|].
  rewrite add_nodes_run; [|done|done]. rewrite bind_Ok.
  change (g_attrs (setAttribute _ _ _))
    with [("created_date", VStr now); ("created_with", VStr "Tilerama");
          ("crs", VStr (default_crs settings))].
  cbn [g_nodes g_edges g_next_key setAttribute empty_graph app].
  set (G1 := Graph _ ns [] 0).
  pose proof (add_paths_outcome settings bidirectional (obj_values ps) G1) as Hp.
  destruct (_add_paths settings G1 (obj_values ps) bidirectional) as [G2|e]; [|done].
  destruct Hp as (Hn2 & Ha2 & new & He2 & Hv2 & Hkeys2 & Hk2 & Hin2).
  rewrite bind_Ok. simpl in He2, Hkeys2.
  destruct (Nat.ltb 0 (size G2)) eqn:Hsize.
  - apply add_edge_lengths_map.
    + rewrite He2, Hkeys2. apply NoDup_ListNoDup, seq_NoDup.
    + intros e He. rewrite He2 in He. unfold hasNode. rewrite Hn2.
      apply (Hin2 (edge_triple e)). apply elem_of_map_iff. by exists e.
  - apply Nat.ltb_ge in Hsize. unfold size in Hsize.
    destruct (g_edges G2) as [|? ?] eqn:E; [|simpl in Hsize; lia].
    destruct G2. simpl in *. by rewrite E.
Qed.

Lemma create_graph_cache_only now rs bidirectional :
  cache_only_mode settings = true ->
  _create_graph settings now rs bidirectional = Err CacheOnlyInterrupt.
Proof.
  intros Hcache. unfold _create_graph. destruct (fold_left _ rs ([], [])) as [ns ps].
  by rewrite Hcache.
Qed.

Lemma stamped_ext G G' e : g_nodes G = g_nodes G' -> stamped G e = stamped G' e.
Proof. intros Hn. unfold stamped, getNodeAttributes. by rewrite Hn. Qed.

(** What a successful run leaves. *)
Lemma create_graph_inv now rs bidirectional G :
  _create_graph settings now rs bidirectional = Ok G ->
  cache_only_mode settings = false
  /\ g_attrs G = [("created_date", VStr now); ("created_with", VStr "Tilerama");
                  ("crs", VStr (default_crs settings))]
  /\ g_nodes G = fst (collect_elements settings rs)
  /\ exists new,
       map edge_triple new
       = concat (map (path_triples settings bidirectional)
                     (obj_values (snd (collect_elements settings rs))))
       /\ g_edges G = map (stamped G) new
       /\ forall e, e ∈ new -> hasNode G (e_src e) = true /\ hasNode G (e_tgt e) = true.
Proof.
  intros Hrun.
  destruct (cache_only_mode settings) eqn:Hcache.
  { by rewrite create_graph_cache_only in Hrun. }
  split; [done|]. rewrite create_graph_run in Hrun by done.
  destruct (_ && _); [done|].
  match type of Hrun with context [_add_paths settings ?g ?ps bidirectional] =>
    pose proof (add_paths_outcome settings bidirectional ps g) as Hp;
    destruct (_add_paths settings g ps bidirectional) as [G2|e]; [|done] end.
  destruct Hp as (Hn2 & Ha2 & new & He2 & Hv2 & _ & _ & Hin2).
  injection Hrun as <-. simpl in *.
  split; [done|]. split; [done|]. exists new. split; [done|]. split.
  - rewrite He2. apply map_ext. intros e. by apply stamped_ext.
  - intros e He. unfold hasNode. simpl. rewrite Hn2.
    apply (Hin2 (edge_triple e)). apply elem_of_map_iff. by exists e.
Qed.

Lemma convert_node_defined lat lon tags :
  is_defined (attr (_convert_node settings lat lon tags) "y") = true
  /\ is_defined (attr (_convert_node settings lat lon tags) "x") = true.
Proof. unfold _convert_node. split; by apply copy_tags_defined. Qed.

(** Every node of the collection has both coordinates, so every edge that
    joins two of them is stamped. *)
Lemma stamped_collected rs G e :
  g_nodes G = fst (collect_elements settings rs) ->
  hasNode G (e_src e) = true -> hasNode G (e_tgt e) = true ->
  exists uNode vNode,
    getNodeAttributes G (e_src e) = Ok uNode
    /\ getNodeAttributes G (e_tgt e) = Ok vNode
    /\ stamped G e
       = Edge (e_key e) (e_src e) (e_tgt e)
              (obj_set "length"
                 (VNum (great_circle (to_number (attr uNode "y"))
                                     (to_number (attr uNode "x"))
                                     (to_number (attr vNode "y"))
                                     (to_number (attr vNode "x"))))
                 (e_attrs e)).
Proof.
  intros Hn Hs Ht. destruct (collect_keyed settings rs) as [(_ & Hfrom & _) _].
  rewrite <- Hn in Hfrom.
  apply obj_has_get in Hs as [au Hau], Ht as [av Hav].
  destruct (Hfrom _ _ Hau) as (idu & (latu & lonu & tagsu & _ & Heu) & _).
  destruct (Hfrom _ _ Hav) as (idv & (latv & lonv & tagsv & _ & Hev) & _).
  exists au, av. unfold stamped, getNodeAttributes. rewrite Hau, Hav.
  split; [done|]. split; [done|].
  destruct (convert_node_defined latu lonu tagsu) as [Hyu Hxu].
  destruct (convert_node_defined latv lonv tagsv) as [Hyv Hxv].
  rewrite <- Heu in Hyu, Hxu. rewrite <- Hev in Hyv, Hxv.
  by rewrite Hyu, Hxu, Hyv, Hxv.
Qed.

(** The way an edge of the result comes from. *)
Lemma create_graph_edge_origin now rs bidirectional G e :
  _create_graph settings now rs bidirectional = Ok G ->
  e ∈ g_edges G ->
  exists id nds tags u v a uNode vNode,
    response_way rs id nds tags
    /\ _convert_path settings id nds tags
         ∈ obj_values (snd (collect_elements settings rs))
    /\ (u, v) ∈ consecutive (path_order settings bidirectional
                               (_convert_path settings id nds tags))
    /\ ((e_src e = id_key u /\ e_tgt e = id_key v
         /\ a = forward_attrs settings bidirectional (_convert_path settings id nds tags))
        \/ (path_one_way settings bidirectional (_convert_path settings id nds tags) = false
            /\ e_src e = id_key v /\ e_tgt e = id_key u
            /\ a = backward_attrs settings bidirectional
                     (_convert_path settings id nds tags)))
    /\ getNodeAttributes G (e_src e) = Ok uNode
    /\ getNodeAttributes G (e_tgt e) = Ok vNode
    /\ e_attrs e = obj_set "length"
                     (VNum (great_circle (to_number (attr uNode "y"))
                                         (to_number (attr uNode "x"))
                                         (to_number (attr vNode "y"))
                                         (to_number (attr vNode "x")))) a.
Proof.
  intros Hrun He.
  destruct (create_graph_inv _ _ _ _ Hrun) as (_ & _ & Hn & new & Hv & Hed & Hin).
  rewrite Hed in He. apply elem_of_map_iff in He as (e2 & He2 & ->).
  destruct (Hin e2 He2) as [Hs Ht].
  destruct (stamped_collected rs G e2 Hn Hs Ht) as (uNode & vNode & Hgu & Hgv & ->).
  cbn [e_src e_tgt e_attrs].
  assert (edge_triple e2 ∈ map edge_triple new) as Htr
    by (apply elem_of_map_iff; by exists e2).
  rewrite Hv in Htr. apply list_elem_of_In, in_concat in Htr as (ts & Hts & Htr).
  apply in_map_iff in Hts as (p & <- & Hp).
  rewrite <- list_elem_of_In in Htr. rewrite <- list_elem_of_In in Hp.
  destruct (collect_keyed settings rs) as [_ (Hndp & Hfrom & _)].
  pose proof Hp as Hp0.
  apply obj_values_get in Hp as [k Hk]; [|done].
  destruct (Hfrom _ _ Hk) as (id & (nds & tags & Hway & ->) & _).
  apply path_triples_elem in Htr as (u & v & Huv & Hcase).
  exists id, nds, tags, u, v, (e_attrs e2), uNode, vNode.
  split; [done|]. split; [done|]. split; [done|]. split; [|done].
  unfold edge_triple in Hcase.
  destruct Hcase as [[= -> -> ->]|[Hone [= -> -> ->]]]; [left | right]; done.
Qed.

Lemma create_graph_edge_present now rs bidirectional G p (t : string * string * attrs) :
  _create_graph settings now rs bidirectional = Ok G ->
  p ∈ obj_values (snd (collect_elements settings rs)) ->
  t ∈ path_triples settings bidirectional p ->
  exists e', e' ∈ g_edges G /\ e_src e' = fst (fst t) /\ e_tgt e' = snd (fst t)
    /\ exists d, e_attrs e' = obj_set "length" (VNum d) (snd t).
Proof.
  intros Hrun Hp Ht.
  destruct (create_graph_inv _ _ _ _ Hrun) as (_ & _ & Hn & new & Hv & Hed & Hin).
  assert (t ∈ map edge_triple new) as Htr.
  { rewrite Hv. apply list_elem_of_In, in_concat.
    exists (path_triples settings bidirectional p). split.
    - by apply in_map, list_elem_of_In.
    - by apply list_elem_of_In. }
  apply elem_of_map_iff in Htr as (e2 & He2 & ->).
  destruct (Hin e2 He2) as [Hs Ht2].
  destruct (stamped_collected rs G e2 Hn Hs Ht2) as (uN & vN & _ & _ & Hst).
  exists (stamped G e2). split.
  { rewrite Hed. apply elem_of_map_iff. by exists e2. }
  rewrite Hst. simpl. split; [done|]. split; [done|]. by eexists.
Qed.

Lemma convert_path_NoDup id nds tags :
  NoDup (map fst (path_attrs (_convert_path settings id nds tags))).
Proof. simpl. apply copy_tags_NoDup. simpl. apply NoDup_singleton. Qed.

Lemma path_order_ends id nds tags bidirectional u v :
  (u, v) ∈ consecutive (path_order settings bidirectional
                          (_convert_path settings id nds tags)) ->
  u ∈ nds /\ v ∈ nds /\ u <> v.
Proof.
  unfold path_order. cbn [path_nodes _convert_path]. intros Hin.
  assert ((u, v) ∈ consecutive (drop_repeats None nds)
          \/ (v, u) ∈ consecutive (drop_repeats None nds)) as Hc.
  { destruct (_ && _); [right; by apply consecutive_rev | by left]. }
  destruct Hc as [Hc|Hc].
  - pose proof (drop_repeats_consecutive _ _ _ _ Hc).
    apply consecutive_elem_of in Hc as [Hu Hw].
    apply drop_repeats_elem_of in Hu, Hw. done.
  - pose proof (drop_repeats_consecutive _ _ _ _ Hc).
    apply consecutive_elem_of in Hc as [Hu Hw].
    apply drop_repeats_elem_of in Hu, Hw. split; [done|]. split; [done|]. congruence.
Qed.


(** X19: the graph returned by [_create_graph] has exactly one node per
    node id of the responses, carrying the converted attributes of a node
    element with that id; its edges join nodes of the graph; and its
    graph attributes are the creation date, the creator and the default
    CRS. *)
Theorem create_graph_nodes (now : string) (rs : list (list element))
    (bidirectional : bool) (G : graph) :
  _create_graph settings now rs bidirectional = Ok G ->
  wf_graph G
  /\ g_attrs G = [("created_date", VStr now); ("created_with", VStr "Tilerama");
                  ("crs", VStr (default_crs settings))]
  /\ (forall n a, (n, a) ∈ g_nodes G ->
        exists id lat lon tags,
          response_node rs id lat lon tags /\ n = id_key id
          /\ a = _convert_node settings lat lon tags)
  /\ (forall id lat lon tags,
        response_node rs id lat lon tags -> id_key id ∈ nodes G).
Proof.
  intros Hrun.
  destruct (create_graph_inv _ _ _ _ Hrun) as (_ & Ha & Hn & new & Hv & Hed & Hin).
  destruct (collect_keyed settings rs) as [(Hndn & Hfromn & Hton) _].
  rewrite <- Hn in Hndn, Hfromn, Hton.
  split; [split|].
  - exact Hndn.
  - intros e He. rewrite Hed in He. apply elem_of_map_iff in He as (e2 & He2 & ->).
    destruct (stamped_ends G e2) as [-> ->]. destruct (Hin e2 He2).
    by rewrite <- !hasNode_elem_of.
  - split; [done|]. split.
    + intros n a Hna. apply obj_get_In in Hna; [|done].
      destruct (Hfromn _ _ Hna) as (id & (lat & lon & tags & Hr & ->) & ->).
      by exists id, lat, lon, tags.
    + intros id lat lon tags Hr. apply obj_get_elem_of.
      apply (Hton id (_convert_node settings lat lon tags)). by exists lat, lon, tags.
Qed.

(** X20: every edge of the graph returned by [_create_graph] joins two
    different nodes of the graph, both listed by one way of the responses;
    its [length] is the great-circle distance between the coordinates of
    its two ends, its [reversed] flag is a boolean, and so is its [oneway]
    flag unless everything is treated as oneway. *)
Theorem create_graph_edges (now : string) (rs : list (list element))
    (bidirectional : bool) (G : graph) :
  _create_graph settings now rs bidirectional = Ok G ->
  forall e, e ∈ g_edges G ->
    e_src e <> e_tgt e
    /\ (exists id nds tags u v,
          response_way rs id nds tags /\ u ∈ nds /\ v ∈ nds
          /\ e_src e = id_key u /\ e_tgt e = id_key v)
    /\ (exists uNode vNode,
          getNodeAttributes G (e_src e) = Ok uNode
          /\ getNodeAttributes G (e_tgt e) = Ok vNode
          /\ attr (e_attrs e) "length"
             = VNum (great_circle (to_number (attr uNode "y"))
                                  (to_number (attr uNode "x"))
                                  (to_number (attr vNode "y"))
                                  (to_number (attr vNode "x"))))
    /\ (exists b, attr (e_attrs e) "reversed" = VBool b)
    /\ (all_oneway settings = false -> exists b, attr (e_attrs e) "oneway" = VBool b).
Proof.
  intros Hrun e He.
  destruct (create_graph_edge_origin _ _ _ _ _ Hrun He)
    as (id & nds & tags & u & v & a & uNode & vNode & Hway & _ & Huv & Hcase
        & Hgu & Hgv & Ha).
  destruct (path_order_ends _ _ _ _ _ _ Huv) as (Hu & Hw & Hne).
  destruct (path_attr_facts settings bidirectional (_convert_path settings id nds tags)
              (convert_path_NoDup id nds tags)) as (Hf & Hb & Hother & Hone).
  assert ("length" <> "reversed") as Hlr by discriminate.
  assert ("length" <> "oneway") as Hlo by discriminate.
  assert ("oneway" <> "reversed") as Hor by discriminate.
  assert (forall x y : Z, x <> y -> id_key x <> id_key y) as Hinj
    by (intros x y Hxy Hk; by apply id_key_inj in Hk).
  rewrite Ha.
  destruct Hcase as [(Hs & Ht & ->)|(Hone' & Hs & Ht & ->)]; rewrite Hs, Ht.
  - split; [by apply Hinj|]. split; [by exists id, nds, tags, u, v|].
    split; [exists uNode, vNode; rewrite <- Hs, <- Ht; by rewrite attr_set_eq|].
    split; [exists false; by rewrite attr_set_ne|].
    intros Hall. eexists. rewrite attr_set_ne by done.
    rewrite (proj1 (Hother "oneway" Hor)). by apply Hone.
  - split; [apply Hinj; congruence|]. split; [by exists id, nds, tags, v, u|].
    split; [exists uNode, vNode; rewrite <- Hs, <- Ht; by rewrite attr_set_eq|].
    split; [exists true; by rewrite attr_set_ne|].
    intros Hall. eexists. rewrite attr_set_ne by done.
    rewrite (proj2 (Hother "oneway" Hor)). by apply Hone.
Qed.

(** X21: in the graph returned by [_create_graph], unless everything is
    treated as oneway, every edge flagged [oneway = false] has a mirror
    edge: one in the opposite direction between the same two nodes, with
    the opposite [reversed] flag and otherwise the same attributes
    ([length] apart). *)
Theorem create_graph_two_way_mirror (now : string) (rs : list (list element))
    (bidirectional : bool) (G : graph) :
  _create_graph settings now rs bidirectional = Ok G ->
  all_oneway settings = false ->
  forall e, e ∈ g_edges G -> attr (e_attrs e) "oneway" = VBool false ->
    exists e' b,
      e' ∈ g_edges G /\ e_src e' = e_tgt e /\ e_tgt e' = e_src e
      /\ attr (e_attrs e) "reversed" = VBool b
      /\ attr (e_attrs e') "reversed" = VBool (negb b)
      /\ forall k, k <> "reversed" -> k <> "length" ->
           attr (e_attrs e') k = attr (e_attrs e) k.
Proof.
  intros Hrun Hall e He Hflag.
  destruct (create_graph_edge_origin _ _ _ _ _ Hrun He)
    as (id & nds & tags & u & v & a & uNode & vNode & Hway & Hp & Huv & Hcase
        & _ & _ & Ha).
  set (p := _convert_path settings id nds tags) in *.
  destruct (path_attr_facts settings bidirectional p (convert_path_NoDup id nds tags))
    as (Hf & Hb & Hother & Hone).
  assert ("length" <> "reversed") as Hlr by discriminate.
  assert ("length" <> "oneway") as Hlo by discriminate.
  assert ("oneway" <> "reversed") as Hor by discriminate.
  assert (path_one_way settings bidirectional p = false) as Hone'.
  { rewrite Ha, attr_set_ne in Hflag by done.
    destruct Hcase as [(_ & _ & ->)|(_ & _ & _ & ->)].
    - rewrite (proj1 (Hother "oneway" Hor)), (Hone Hall) in Hflag. congruence.
    - rewrite (proj2 (Hother "oneway" Hor)), (Hone Hall) in Hflag. congruence. }
  destruct (path_triples_both settings bidirectional p u v Huv) as [Hfw Hbw].
  specialize (Hbw Hone').
  destruct Hcase as [(Hs & Ht & ->)|(_ & Hs & Ht & ->)].
  - destruct (create_graph_edge_present _ _ _ _ _ _ Hrun Hp Hbw)
      as (e' & He' & Hs' & Ht' & d & Ha').
    exists e', false. simpl in Hs', Ht'. split; [done|].
    split; [congruence|]. split; [congruence|]. rewrite Ha, Ha'. simpl.
    rewrite !attr_set_ne by done. split; [done|]. split; [done|].
    intros k Hk Hl. rewrite !attr_set_ne by done.
    by rewrite (proj1 (Hother k Hk)), (proj2 (Hother k Hk)).
  - destruct (create_graph_edge_present _ _ _ _ _ _ Hrun Hp Hfw)
      as (e' & He' & Hs' & Ht' & d & Ha').
    exists e', true. simpl in Hs', Ht'. split; [done|].
    split; [congruence|]. split; [congruence|]. rewrite Ha, Ha'. simpl.
    rewrite !attr_set_ne by done. split; [done|]. split; [done|].
    intros k Hk Hl. rewrite !attr_set_ne by done.
    by rewrite (proj1 (Hother k Hk)), (proj2 (Hother k Hk)).
Qed.

End CreateFacts.

(** * Truncation by network distance *)


Section DistFacts.
Context `{Runtime}.







End DistFacts.

(** * Further properties of the statistics *)




(** A text without the separator is cut off unambiguously. *)
Lemma bar_split (a a' b b' : string) :
  occurs "|" a = false -> occurs "|" a' = false ->
  a +:+ "|" +:+ b = a' +:+ "|" +:+ b' -> a = a' /\ b = b'.
Proof.
  revert a'. induction a as [|c a IH]; intros [|c' a'] Ha Ha' Heq.
  - change (String "|" b = String "|" b') in Heq. by injection Heq as ->.
  - change (String "|" b = String c' (a' +:+ "|" +:+ b')) in Heq.
    injection Heq as <- _. simpl in Ha'. done.
  - change (String c (a +:+ "|" +:+ b) = String "|" b') in Heq.
    injection Heq as -> _. simpl in Ha. done.
  - change (String c (a +:+ "|" +:+ b) = String c' (a' +:+ "|" +:+ b')) in Heq.
    injection Heq as -> Heq. simpl in Ha, Ha'.
    apply orb_false_iff in Ha as [_ Ha]. apply orb_false_iff in Ha' as [_ Ha'].
    destruct (IH a' Ha Ha' Heq) as [-> ->]. done.
Qed.

Lemma string_ltb_total x y : String.ltb x y = false -> String.ltb y x = false -> x = y.
Proof.
  unfold String.ltb. intros Hxy Hyx. apply String.compare_eq_iff.
  rewrite (String.compare_antisym y x) in Hyx.
  destruct (String.compare x y); simpl in *; congruence.
Qed.

Lemma segment_key_sym u v : segment_key u v = segment_key v u.
Proof.
  unfold segment_key. destruct (String.ltb u v) eqn:Huv.
  - by rewrite (string_ltb_asym _ _ Huv).
  - destruct (String.ltb v u) eqn:Hvu; [done|].
    by rewrite (string_ltb_total _ _ Huv Hvu).
Qed.

Lemma same_segment_key e1 e2 :
  same_segment e1 e2 ->
  segment_key (e_src e1) (e_tgt e1) = segment_key (e_src e2) (e_tgt e2).
Proof.
  intros [[-> ->]|[-> ->]]; [done | apply segment_key_sym].
Qed.

Lemma segment_key_inj e1 e2 :
  occurs "|" (e_src e1) = false -> occurs "|" (e_tgt e1) = false ->
  occurs "|" (e_src e2) = false -> occurs "|" (e_tgt e2) = false ->
  segment_key (e_src e1) (e_tgt e1) = segment_key (e_src e2) (e_tgt e2) ->
  same_segment e1 e2.
Proof.
  intros Hs1 Ht1 Hs2 Ht2. unfold segment_key, same_segment.
  destruct (String.ltb (e_src e1) (e_tgt e1)), (String.ltb (e_src e2) (e_tgt e2));
    intros Heq; apply bar_split in Heq as [-> ->]; auto.
Qed.

(** The scan: the keys seen so far are those of the edges that were
    counted, one edge per key. *)
Lemma segment_scan (es : list edge) :
  forall seen count reps,
  seen = map (fun e => segment_key (e_src e) (e_tgt e)) reps ->
  count = length reps -> NoDup seen ->
  exists reps',
    fold_left (fun (st : list string * nat) e =>
                 let key := segment_key (e_src e) (e_tgt e) in
                 if negb (set_has key (fst st))
                 then (set_add key (fst st), S (snd st))
                 else st) es (seen, count)
    = (map (fun e => segment_key (e_src e) (e_tgt e)) (reps ++ reps'),
       length (reps ++ reps'))
    /\ NoDup (map (fun e => segment_key (e_src e) (e_tgt e)) (reps ++ reps'))
    /\ (forall e, e ∈ reps' -> e ∈ es)
    /\ (forall e, e ∈ es ->
          segment_key (e_src e) (e_tgt e)
            ∈ map (fun e => segment_key (e_src e) (e_tgt e)) (reps ++ reps')).
Proof.
  induction es as [|e es IH]; intros seen count reps Hseen Hcount Hnd.
  - exists []. rewrite app_nil_r. simpl. subst. split; [done|]. split; [done|].
    split; intros e He; inversion He.
  - cbn [fold_left fst snd].
    destruct (set_has (segment_key (e_src e) (e_tgt e)) seen) eqn:Hhas; cbn [negb].
    + destruct (IH seen count reps Hseen Hcount Hnd) as (reps' & Hrun & Hnd' & Hsub & Hcov).
      exists reps'. split; [done|]. split; [done|]. split.
      * intros e' He'. right. by apply Hsub.
      * intros e' He'. apply elem_of_cons in He' as [-> |He']; [|by apply Hcov].
        apply set_has_elem_of in Hhas. rewrite map_app. apply elem_of_app. left.
        by rewrite <- Hseen.
    + pose proof Hhas as Hfresh. apply set_has_false in Hfresh.
      unfold set_add. rewrite Hhas.
      destruct (IH (seen ++ [segment_key (e_src e) (e_tgt e)]) (S count) (reps ++ [e]))
        as (reps' & Hrun & Hnd' & Hsub & Hcov).
      * rewrite map_app. simpl. by rewrite Hseen.
      * rewrite length_app. simpl. lia.
      * apply NoDup_app. split; [done|]. split; [|apply NoDup_singleton].
        intros k Hk Hk'. apply list_elem_of_singleton in Hk' as ->. done.
      * exists (e :: reps'). rewrite <- app_assoc in Hrun, Hnd', Hcov. simpl in *.
        split; [done|]. split; [done|]. split.
        -- intros e' He'. apply elem_of_cons in He' as [-> |He']; [by left|].
           right. by apply Hsub.
        -- intros e' He'. apply elem_of_cons in He' as [-> |He']; [|by apply Hcov].
           rewrite map_app. apply elem_of_app. right. by left.
Qed.

(** X25: [street_segment_count] counts the street segments when no node id
    contains the separator [|]: the count is the length of a selection of
    the edges such that every edge runs between the same two nodes as some
    selected edge (in either direction) and no two selected edges do.  So
    reciprocal and parallel edges count once, and a self-loop counts as a
    segment. *)
Theorem street_segment_count_segments (G : graph) :
  (forall e, e ∈ g_edges G ->
     occurs "|" (e_src e) = false /\ occurs "|" (e_tgt e) = false) ->
  exists reps,
    street_segment_count G = length reps
    /\ (forall r, r ∈ reps -> r ∈ g_edges G)
    /\ (forall e, e ∈ g_edges G -> exists r, r ∈ reps /\ same_segment e r)
    /\ (forall i j r1 r2,
          reps !! i = Some r1 -> reps !! j = Some r2 -> same_segment r1 r2 -> i = j).
Proof.
  intros Hbar. unfold street_segment_count.
  destruct (segment_scan (g_edges G) [] 0 []) as (reps & Hrun & Hnd & Hsub & Hcov);
    [done | done | constructor |].
  simpl in Hrun, Hnd, Hcov. rewrite Hrun. simpl.
  exists reps. split; [done|]. split; [done|]. split.
  - intros e He. pose proof (Hcov e He) as Hk.
    apply elem_of_map_iff in Hk as (r & Hr & Hk).
    exists r. split; [done|].
    destruct (Hbar e He) as [Hs Ht]. destruct (Hbar r (Hsub r Hr)) as [Hs' Ht'].
    by apply segment_key_inj.
  - intros i j r1 r2 Hi Hj Hsame. apply same_segment_key in Hsame.
    eapply NoDup_lookup; [exact Hnd | |].
    + rewrite list_lookup_fmap, Hi. reflexivity.
    + rewrite list_lookup_fmap, Hj. simpl. by rewrite Hsame.
Qed.

(** * Further properties of the simplifier *)




(** The loop of [_build_path]: the path grows along edges without coming
    back on itself, and the loop gives up only on a graph with more nodes
    than the steps it is allowed. *)
Lemma build_path_loop_spec G endpoint endpoints :
  wf_graph G ->
  forall count path successor,
  last path = Some successor -> NoDup path ->
  (forall n, n ∈ path -> n ∈ nodes G) ->
  (forall u v, (u, v) ∈ steps path -> hasEdge G u v = true) ->
  exists r,
    build_path_loop count G endpoint endpoints path successor = Ok r
    /\ match r with
       | Some p =>
           (exists rest, p = path ++ rest)
           /\ (forall u v, (u, v) ∈ steps p -> hasEdge G u v = true)
           /\ (NoDup p \/ exists q, p = q ++ [endpoint] /\ NoDup q)
       | None => length path + count <= order G
       end.
Proof.
  intros Hwf. induction count as [|count IH]; intros path successor Hlast Hnd Hnodes Hsteps.
  - simpl. eexists. split; [reflexivity|]. rewrite Nat.add_0_r.
    assert (path ⊆+ nodes G) as Hsub by (by apply NoDup_submseteq).
    apply submseteq_length in Hsub. unfold order, nodes in *.
    by rewrite length_map in Hsub.
  - pose proof Hlast as Hlast'. apply last_Some in Hlast' as [pre Hpre].
    assert (successor ∈ nodes G) as Hsucc.
    { apply Hnodes. rewrite Hpre. apply elem_of_app. right. constructor. }
    simpl. destruct (outNeighbors_Ok G successor Hwf Hsucc) as (ns & Hns & Hmem).
    rewrite Hns, bind_Ok.
    assert (exists r, Ok (Some path) = Ok r
              /\ match r with
                 | Some p =>
                     (exists rest, p = path ++ rest)
                     /\ (forall u v, (u, v) ∈ steps p -> hasEdge G u v = true)
                     /\ (NoDup p \/ exists q, p = q ++ [endpoint] /\ NoDup q)
                 | None => length path + S count <= order G
                 end) as Hstop.
    { exists (Some path). split; [done|]. split; [exists []; by rewrite app_nil_r|].
      split; [done | by left]. }
    destruct (set_has successor endpoints); [done|].
    assert (forall next, next ∈ ns ->
              forall u v, (u, v) ∈ steps (path ++ [next]) -> hasEdge G u v = true) as Hext.
    { intros next Hnext u v. rewrite Hpre, <- app_assoc. simpl.
      rewrite steps_app_mid, elem_of_app. intros [Hin|Hin].
      - apply Hsteps. by rewrite Hpre.
      - simpl in Hin. apply list_elem_of_singleton in Hin as [= -> ->]. by apply Hmem. }
    destruct (filter _ ns) as [|next [|next2 valid]] eqn:Hvalid; [| |done].
    + destruct (includes endpoint ns) eqn:Hinc; [|done].
      apply set_has_elem_of in Hinc.
      eexists. split; [reflexivity|]. split; [by eexists|]. split; [by apply Hext|].
      right. by exists path.
    + assert (next ∈ filter (fun n => negb (includes n path)) ns) as Hin
        by (rewrite Hvalid; constructor).
      apply list_elem_of_filter in Hin as [Hfresh Hin].
      apply Is_true_true, negb_true_iff, set_has_false in Hfresh.
      destruct (IH (path ++ [next]) next) as (r & Hr & Hres).
      * by rewrite last_snoc.
      * apply NoDup_app. split; [done|]. split; [|apply NoDup_singleton].
        intros x Hx Hx'. by apply list_elem_of_singleton in Hx' as ->.
      * intros n. rewrite elem_of_app, list_elem_of_singleton.
        intros [?| ->]; [auto | by apply Hmem].
      * by apply Hext.
      * exists r. split; [done|]. destruct r as [p|].
        -- destruct Hres as ([rest ->] & He & Hd). split; [|done].
           exists (next :: rest). by rewrite <- app_assoc.
        -- rewrite length_app in Hres. simpl in Hres. lia.
Qed.

(** X27: called on an edge from [endpoint] to a different node, in a graph
    whose edges join existing nodes, [_build_path] returns a path that
    starts with that edge, follows edges of the graph and visits no node
    twice, except that it may end back on [endpoint]; it returns [null] only
    if the graph has more than 10000 nodes. *)
Theorem build_path_follows_edges (G : graph) (endpoint endpoint_successor : string)
    (endpoints : list string) :
  wf_graph G ->
  hasEdge G endpoint endpoint_successor = true ->
  endpoint <> endpoint_successor ->
  exists r,
    _build_path G endpoint endpoint_successor endpoints = Ok r
    /\ match r with
       | Some p =>
           (exists rest, p = endpoint :: endpoint_successor :: rest)
           /\ (forall u v, (u, v) ∈ steps p -> hasEdge G u v = true)
           /\ (NoDup p \/ exists q, p = q ++ [endpoint] /\ NoDup q)
       | None => step_limit + 2 <= order G
       end.
Proof.
  intros Hwf Hedge Hne. unfold _build_path.
  assert (endpoint ∈ nodes G /\ endpoint_successor ∈ nodes G) as [Hn1 Hn2].
  { unfold hasEdge in Hedge. apply existsb_exists in Hedge as (e & He & Hj).
    apply list_elem_of_In in He. destruct Hwf as [_ Hed]. destruct (Hed e He) as [Hs Ht].
    unfold joins in Hj. apply andb_true_iff in Hj as [Hj1 Hj2].
    apply String.eqb_eq in Hj1, Hj2. by subst. }
  destruct (build_path_loop_spec G endpoint endpoints Hwf step_limit
              [endpoint; endpoint_successor] endpoint_successor) as (r & Hr & Hres).
  - done.
  - apply NoDup_cons. split; [|apply NoDup_singleton].
    intros Hin. by apply list_elem_of_singleton in Hin.
  - intros n Hn. repeat (apply elem_of_cons in Hn as [-> |Hn]; [done|]). inversion Hn.
  - intros u v Huv. simpl in Huv. by apply list_elem_of_singleton in Huv as [= -> ->].
  - exists r. split; [done|]. destruct r as [p|].
    + destruct Hres as ([rest ->] & He & Hd). split; [by exists rest | done].
    + simpl in Hres. lia.
Qed.

Section SimplifyMore.
Context `{Runtime}.




End SimplifyMore.




Section SimplifyNodes.
Context `{Runtime}.


End SimplifyNodes.

(** * Conversion to a graph without parallel edges *)


Section DigraphFacts.
Context `{Runtime}.









End DigraphFacts.

(** * The order of numbers, and the lightest of parallel edges *)




Section Lightest.
Context `{Runtime}.




End Lightest.

(** * Validation of a graph built from responses *)

Lemma count_where_none {A} (p : A -> bool) (l : list A) :
  (forall x, x ∈ l -> p x = false) -> count_where p l = 0.
Proof.
  unfold count_where. induction l as [|x l IH]; intros Hp; [done|]. simpl.
  rewrite (Hp x) by constructor. apply IH. intros y Hy. apply Hp. by right.
Qed.

Lemma count_where_some {A} (p : A -> bool) (l : list A) x :
  x ∈ l -> p x = true -> Nat.ltb 0 (count_where p l) = true.
Proof.
  unfold count_where. intros Hin Hp. apply Nat.ltb_lt.
  assert (In x (List.filter p l)) as Hf.
  { apply filter_In. split; [by apply list_elem_of_In | done]. }
  destruct (List.filter p l); [done | simpl; lia].
Qed.

Lemma copy_tags_other useful tags (a : attrs) k :
  k ∉ useful -> obj_get k (copy_tags useful tags a) = obj_get k a.
Proof.
  destruct tags as [t|]; simpl; [|done]. revert a.
  induction useful as [|u r IH]; intros a Hk; simpl; [done|].
  apply not_elem_of_cons in Hk as [Hne Hk]. rewrite IH by done.
  destruct (obj_get u t); [|done]. by rewrite obj_get_set_ne.
Qed.

Section ValidateCreated.
Context `{Runtime} `{MathLib} (settings : Settings).
Variable number_is_integer : float -> bool.

(** X30: a graph built by [_create_graph] never passes the strict
    validation (its nodes have no [street_count] yet, unless that is one
    of the selected node tags), but it passes [validate_graph(G, false)]
    as soon as it has an edge and the default CRS is not the empty text:
    its nodes have coordinates and its edges an [osmid] and a [length]. *)
Theorem validate_created_graph (now : string) (rs : list (list element))
    (bidirectional : bool) (G : graph) :
  _create_graph settings now rs bidirectional = Ok G ->
  ("street_count" ∉ useful_tags_node settings ->
   exists messages, validate_graph number_is_integer G true = Invalid messages)
  /\ (g_edges G <> [] -> default_crs settings <> "" ->
      validate_graph number_is_integer G false = Valid).
Proof.
  intros Hrun.
  destruct (create_graph_nodes settings now rs bidirectional G Hrun)
    as (Hwf & Hattrs & Hfrom & _).
  split.
  - intros Htag. unfold validate_graph. cbv beta iota zeta.
    match goal with |- context [match ?l with [] => Valid | _ :: _ => Invalid _ end] =>
      assert (exists m, m ∈ l) as [m Hm]; [|destruct l; [inversion Hm | by eexists]] end.
    destruct (g_nodes G) as [|[n a] ns] eqn:Hnodes.
    + exists "G must have at least 1 node.". unfold order. rewrite Hnodes. simpl.
      constructor.
    + exists "Nodes should have 'street_count' data attributes.".
      apply elem_of_app. right. apply elem_of_app. left.
      apply elem_of_app. right. apply elem_of_app. left.
      assert (Nat.ltb 0 (order G) = true) as -> by (unfold order; by rewrite Hnodes).
      rewrite (count_where_some _ ((n, a) :: ns) (n, a)); [constructor | constructor |].
      destruct (Hfrom n a) as (id & lat & lon & tags & _ & _ & ->); [constructor|].
      unfold _convert_node, attr. simpl snd. by rewrite copy_tags_other.
  - intros Hedges Hcrs. unfold validate_graph. cbv beta iota zeta.
    assert (Nat.eqb (size G) 0 = false) as ->.
    { unfold size. destruct (g_edges G); [done | done]. }
    assert (Nat.eqb (order G) 0 = false) as ->.
    { destruct (g_edges G) as [|e es] eqn:He; [done|].
      destruct Hwf as [_ Hed]. destruct (Hed e) as [Hs _]; [rewrite He; constructor|].
      unfold order, nodes in *. destruct (g_nodes G); [inversion Hs | done]. }
    assert (negb (truthy (getAttribute G "crs")) = false) as ->.
    { unfold getAttribute. rewrite Hattrs. simpl.
      destruct (String.eqb (default_crs settings) "") eqn:E; [|done].
      by apply String.eqb_eq in E. }
    assert (forall e, e ∈ g_edges G ->
              negb (is_defined (attr (e_attrs e) "length")) = false) as Hlen.
    { intros e He.
      destruct (create_graph_edges settings now rs bidirectional G Hrun e He)
        as (_ & _ & (uN & vN & _ & _ & ->) & _). done. }
    assert (forall e, e ∈ g_edges G ->
              negb (is_defined (attr (e_attrs e) "osmid")) = false) as Hosm.
    { intros e He.
      destruct (create_graph_edge_origin settings now rs bidirectional G e Hrun He)
        as (id & nds & tags & u & v & a & uN & vN & _ & _ & _ & Hcase & _ & _ & ->).
      destruct (path_attr_facts settings bidirectional (_convert_path settings id nds tags)
                  (convert_path_NoDup settings id nds tags)) as (_ & _ & Hother & _).
      assert ("osmid" <> "reversed") as Hor by discriminate.
      assert ("length" <> "osmid") as Hlo by discriminate.
      assert ("oneway" <> "osmid") as Hoo by discriminate.
      rewrite attr_set_ne by done.
      assert (is_defined (attr (path_base settings bidirectional
                                  (_convert_path settings id nds tags)) "osmid") = true)
        as Hbase.
      { unfold path_base. destruct (negb (all_oneway settings));
          [rewrite attr_set_ne by done|]; simpl; by apply copy_tags_defined. }
      destruct Hcase as [(_ & _ & ->)|(_ & _ & _ & ->)].
      * by rewrite (proj1 (Hother "osmid" Hor)), Hbase.
      * by rewrite (proj2 (Hother "osmid" Hor)), Hbase. }
    assert (forall na : string * attrs, na ∈ g_nodes G ->
              negb (is_defined (attr (snd na) "x"))
              || negb (is_defined (attr (snd na) "y")) = false) as Hxy.
    { intros [n a] Hna.
      destruct (Hfrom n a Hna) as (id & lat & lon & tags & _ & _ & ->).
      destruct (convert_node_defined settings lat lon tags) as [Hy Hx].
      simpl snd. by rewrite Hx, Hy. }
    rewrite (count_where_none _ _ Hlen), (count_where_none _ _ Hosm),
      (count_where_none _ _ Hxy).
    change (Nat.ltb 0 0) with false. by rewrite !andb_false_r.
Qed.

End ValidateCreated.

(** * Concrete runs *)

Lemma chain_graph_wf : wf_graph chain_graph.
Proof. apply wf_graphb_sound. vm_compute. reflexivity. Qed.

Lemma is_endpoint_meets_spec_witness :
  hasNode chain_graph "b" = true
  /\ exists b, _is_endpoint chain_graph "b" = Ok b
       /\ (spec_has_self_loop chain_graph "b" \/ spec_in_degree chain_graph "b" = 0
           \/ spec_out_degree chain_graph "b" = 0 -> b = true)
       /\ (~ spec_has_self_loop chain_graph "b" -> spec_in_degree chain_graph "b" <> 0 ->
           spec_out_degree chain_graph "b" <> 0 ->
           (b = false <-> spec_interstitial chain_graph "b")).
Proof.
  split; [reflexivity|].
  apply (is_endpoint_meets_spec chain_graph "b"). reflexivity.
Defined.



Lemma truncate_bbox_survivors_witness :
  wf_graph chain_graph
  /\ exists G',
       @truncate_graph_bbox plain_runtime plain_geometry chain_graph (1, 0, 1, 0)%float
         false false = Ok G'
       /\ forall n a, (n, a) ∈ g_nodes G' ->
            (n, a) ∈ g_nodes chain_graph
            /\ @outside_bbox plain_runtime (1, 0, 1, 0)%float a = false
            /\ let y := @to_number plain_runtime (attr a "y") in
               let x := @to_number plain_runtime (attr a "x") in
               (PrimFloat.is_nan y = false -> PrimFloat.is_nan 1%float = false ->
                PrimFloat.is_nan 0%float = false ->
                js_le 0%float y = true /\ js_le y 1%float = true)
               /\ (PrimFloat.is_nan x = false -> PrimFloat.is_nan 1%float = false ->
                   PrimFloat.is_nan 0%float = false ->
                   js_le 0%float x = true /\ js_le x 1%float = true).
Proof.
  split; [exact chain_graph_wf|].
  exact (@truncate_bbox_survivors plain_runtime plain_geometry chain_graph
           1%float 0%float 1%float 0%float false chain_graph_wf).
Defined.

(** C7 as stated fails: a node without coordinates survives the truncation
    although it does not lie in the box (its [y] is not at least [south]). *)
Lemma truncate_keeps_node_without_coordinates :
  @truncate_graph_bbox plain_runtime plain_geometry no_coordinates (1, 0, 1, 0)%float
    false false = Ok no_coordinates
  /\ ("n1", []) ∈ g_nodes no_coordinates
  /\ js_le 0%float (@to_number plain_runtime (attr [] "y")) = false.
Proof. split; [vm_compute; reflexivity|]. split; [constructor | vm_compute; reflexivity]. Qed.

Lemma no_coordinates_wf : wf_graph no_coordinates.
Proof. apply wf_graphb_sound. vm_compute. reflexivity. Qed.

Lemma truncate_bbox_missing_coordinates_witness :
  wf_graph no_coordinates /\ ("n1", []) ∈ g_nodes no_coordinates
  /\ exists G',
       @truncate_graph_bbox plain_runtime plain_geometry no_coordinates (1, 0, 1, 0)%float
         false true = Ok G'
       /\ (attr [] "x" = VUndefined -> attr [] "y" = VUndefined -> ("n1", []) ∈ g_nodes G')
       /\ (attr [] "y" = VUndefined ->
           (("n1", []) ∈ g_nodes G' <->
            @value_gt plain_runtime (attr [] "x") 1%float = false
            /\ @value_lt plain_runtime (attr [] "x") 0%float = false))
       /\ (attr [] "x" = VUndefined ->
           (("n1", []) ∈ g_nodes G' <->
            @value_gt plain_runtime (attr [] "y") 1%float = false
            /\ @value_lt plain_runtime (attr [] "y") 0%float = false)).
Proof.
  assert (("n1", @nil (string * value)) ∈ g_nodes no_coordinates) as Hin by constructor.
  split; [exact no_coordinates_wf|]. split; [exact Hin|].
  exact (@truncate_bbox_missing_coordinates plain_runtime plain_geometry no_coordinates
           1%float 0%float 1%float 0%float "n1" [] no_coordinates_wf Hin).
Defined.

(** C10 as stated fails: a node whose [x] is missing is removed when its [y]
    lies north of the box. *)
Lemma truncate_drops_node_missing_x_only :
  attr [("y", VNum 5)] "x" = VUndefined
  /\ ("n1", [("y", VNum 5)]) ∈ g_nodes latitude_only
  /\ @truncate_graph_bbox plain_runtime plain_geometry latitude_only (1, 0, 1, 0)%float
       false true = Ok (Graph [] [] [] 0).
Proof. split; [reflexivity|]. split; [constructor | vm_compute; reflexivity]. Qed.

Lemma oneway_reversal_witness :
  "oneway" ∈ useful_tags_way drive_settings
  /\ cache_only_mode drive_settings = false
  /\ (all_oneway drive_settings = true \/ false = false)
  /\ exists G,
       @_create_graph plain_runtime plain_math drive_settings "2026-01-01T00:00:00.000Z"
         [oneway_scenario (0, 0)%float (0, 1)%float (0, 2)%float 7] false = Ok G
       /\ map edge_view (g_edges G) = [("3", "2", VBool false); ("2", "1", VBool false)].
Proof.
  assert ("oneway" ∈ useful_tags_way drive_settings) as Htag
    by (apply list_elem_of_In; vm_compute; tauto).
  split; [exact Htag|]. split; [reflexivity|]. split; [right; reflexivity|].
  exact (proj2 (@oneway_reversal plain_runtime plain_math drive_settings)
           "2026-01-01T00:00:00.000Z" (0, 0)%float (0, 1)%float (0, 2)%float 7%Z false
           Htag eq_refl (or_intror eq_refl)).
Defined.








(** * Concrete runs of the further properties *)

Lemma escapeXML_injective_witness :
  escapeXML "a<b" = escapeXML "a<b" /\ "a<b" = "a<b".
Proof.
  split; [reflexivity|]. exact (escapeXML_injective "a<b" "a<b" eq_refl).
Defined.

Lemma stringify_attributes_map_witness :
  NoDup (map fst [("oneway", VBool true); ("name", VStr "Main")])
  /\ @stringify_attributes plain_runtime [("oneway", VBool true); ("name", VStr "Main")]
     = map (fun kv => (fst kv, VStr (@stringifyValue plain_runtime (snd kv))))
           [("oneway", VBool true); ("name", VStr "Main")].
Proof.
  assert (NoDup (map fst [("oneway", VBool true); ("name", VStr "Main")])) as Hnd.
  { apply NoDup_ListNoDup, (List.NoDup_cons _ (l := ["name"])).
    - intros [Hx|[]]. discriminate.
    - apply List.NoDup_cons; [intros [] | constructor]. }
  split; [exact Hnd|].
  exact (@stringify_attributes_map plain_runtime _ Hnd).
Defined.

Lemma detour_two_paths :
  @k_shortest_paths plain_runtime detour "A" "D" 2 "length"
  = Ok [["A"; "B"; "D"]; ["A"; "C"; "D"]].
Proof. vm_compute. reflexivity. Qed.

Lemma k_shortest_paths_at_most_k_witness :
  @k_shortest_paths plain_runtime detour "A" "D" 2 "length"
  = Ok [["A"; "B"; "D"]; ["A"; "C"; "D"]]
  /\ length [["A"; "B"; "D"]; ["A"; "C"; "D"]] <= 2.
Proof.
  split; [exact detour_two_paths|].
  exact (@k_shortest_paths_at_most_k plain_runtime detour "A" "D" 2 "length" _
           detour_two_paths).
Defined.



Lemma truncate_bbox_exact_witness :
  wf_graph chain_graph
  /\ exists G',
       @truncate_graph_bbox plain_runtime plain_geometry chain_graph (1, 0, 1, 0)%float
         false true = Ok G'
       /\ g_attrs G' = g_attrs chain_graph
       /\ g_nodes G'
          = filter (fun na => @outside_bbox plain_runtime (1, 0, 1, 0)%float (snd na) = false)
                   (g_nodes chain_graph)
       /\ g_edges G'
          = filter (fun e => e_src e ∈ nodes G' /\ e_tgt e ∈ nodes G') (g_edges chain_graph).
Proof.
  split; [exact chain_graph_wf|].
  exact (@truncate_bbox_exact plain_runtime plain_geometry chain_graph (1, 0, 1, 0)%float
           chain_graph_wf).
Defined.

Lemma truncate_by_edge_spares_witness :
  wf_graph chain_graph
  /\ exists G1 G2,
       @truncate_graph_bbox plain_runtime plain_geometry chain_graph (1, 0, 1, 0)%float
         false true = Ok G1
       /\ @truncate_graph_bbox plain_runtime plain_geometry chain_graph (1, 0, 1, 0)%float
            true true = Ok G2
       /\ (forall na, na ∈ g_nodes G1 -> na ∈ g_nodes G2)
       /\ (forall na, na ∈ g_nodes G2 -> na ∈ g_nodes chain_graph)
       /\ (forall n a, (n, a) ∈ g_nodes G2 ->
             @outside_bbox plain_runtime (1, 0, 1, 0)%float a = true ->
             exists e coordinates,
               e ∈ g_edges chain_graph /\ (e_src e = n \/ e_tgt e = n)
               /\ @edge_coordinates plain_runtime plain_geometry chain_graph e
                  = Ok coordinates
               /\ @line_intersects_bbox plain_geometry coordinates (1, 0, 1, 0)%float = true).
Proof.
  split; [exact chain_graph_wf|].
  exact (@truncate_by_edge_spares plain_runtime plain_geometry chain_graph
           (1, 0, 1, 0)%float chain_graph_wf).
Defined.

Lemma weaklyConnectedComponents_partition_witness :
  wf_graph chain_graph
  /\ exists components,
       weaklyConnectedComponents chain_graph = Ok components
       /\ concat components ≡ₚ nodes chain_graph
       /\ forall c, c ∈ components ->
            c <> [] /\ (forall u v, u ∈ c -> v ∈ c -> rtc (linked chain_graph) u v)
            /\ (forall n m, n ∈ c -> linked chain_graph n m -> m ∈ c).
Proof.
  split; [exact chain_graph_wf|].
  exact (weaklyConnectedComponents_partition chain_graph chain_graph_wf).
Defined.

Lemma get_largest_component_keeps_largest_witness :
  wf_graph chain_graph
  /\ exists G',
       get_largest_component chain_graph = Ok G'
       /\ g_attrs G' = g_attrs chain_graph
       /\ (order chain_graph = 0 -> G' = chain_graph)
       /\ (order chain_graph <> 0 ->
           exists components c,
             weaklyConnectedComponents chain_graph = Ok components
             /\ c ∈ components
             /\ (forall c', c' ∈ components -> length c' <= length c)
             /\ g_nodes G' = filter (fun na => fst na ∈ c) (g_nodes chain_graph)
             /\ g_edges G'
                = filter (fun e => e_src e ∈ c /\ e_tgt e ∈ c) (g_edges chain_graph)).
Proof.
  split; [exact chain_graph_wf|].
  exact (get_largest_component_keeps_largest chain_graph chain_graph_wf).
Defined.





Lemma create_graph_nodes_witness :
  exists G,
    @_create_graph plain_runtime plain_math drive_settings "2024-01-01" [two_way_response]
      false = Ok G
    /\ (wf_graph G
        /\ g_attrs G = [("created_date", VStr "2024-01-01"); ("created_with", VStr "Tilerama");
                        ("crs", VStr (default_crs drive_settings))]
        /\ (forall n a, (n, a) ∈ g_nodes G ->
              exists id lat lon tags,
                response_node [two_way_response] id lat lon tags /\ n = id_key id
                /\ a = _convert_node drive_settings lat lon tags)
        /\ (forall id lat lon tags,
              response_node [two_way_response] id lat lon tags -> id_key id ∈ nodes G)).
Proof.
  eexists. split; [vm_compute; reflexivity|].
  apply (@create_graph_nodes plain_runtime plain_math drive_settings "2024-01-01"
           [two_way_response] false).
  vm_compute. reflexivity.
Defined.

Lemma create_graph_edges_witness :
  exists G,
    @_create_graph plain_runtime plain_math drive_settings "2024-01-01" [two_way_response]
      false = Ok G
    /\ forall e, e ∈ g_edges G ->
         e_src e <> e_tgt e
         /\ (exists id nds tags u v,
               response_way [two_way_response] id nds tags /\ u ∈ nds /\ v ∈ nds
               /\ e_src e = id_key u /\ e_tgt e = id_key v)
         /\ (exists uNode vNode,
               getNodeAttributes G (e_src e) = Ok uNode
               /\ getNodeAttributes G (e_tgt e) = Ok vNode
               /\ attr (e_attrs e) "length"
                  = VNum (@great_circle plain_math
                            (@to_number plain_runtime (attr uNode "y"))
                            (@to_number plain_runtime (attr uNode "x"))
                            (@to_number plain_runtime (attr vNode "y"))
                            (@to_number plain_runtime (attr vNode "x"))))
         /\ (exists b, attr (e_attrs e) "reversed" = VBool b)
         /\ (all_oneway drive_settings = false ->
             exists b, attr (e_attrs e) "oneway" = VBool b).
Proof.
  eexists. split; [vm_compute; reflexivity|].
  apply (@create_graph_edges plain_runtime plain_math drive_settings "2024-01-01"
           [two_way_response] false).
  vm_compute. reflexivity.
Defined.

Lemma create_graph_two_way_mirror_witness :
  exists G,
    @_create_graph plain_runtime plain_math drive_settings "2024-01-01" [two_way_response]
      false = Ok G
    /\ all_oneway drive_settings = false
    /\ forall e, e ∈ g_edges G -> attr (e_attrs e) "oneway" = VBool false ->
         exists e' b,
           e' ∈ g_edges G /\ e_src e' = e_tgt e /\ e_tgt e' = e_src e
           /\ attr (e_attrs e) "reversed" = VBool b
           /\ attr (e_attrs e') "reversed" = VBool (negb b)
           /\ forall k, k <> "reversed" -> k <> "length" ->
                attr (e_attrs e') k = attr (e_attrs e) k.
Proof.
  eexists. split; [vm_compute; reflexivity|]. split; [reflexivity|].
  apply (@create_graph_two_way_mirror plain_runtime plain_math drive_settings "2024-01-01"
           [two_way_response] false); [|reflexivity].
  vm_compute. reflexivity.
Defined.

Lemma chain_graph_keys : NoDup (map e_key (g_edges chain_graph)).
Proof.
  simpl. apply NoDup_cons. split; [|apply NoDup_singleton].
  intros Hin. apply list_elem_of_singleton in Hin. discriminate.
Qed.

Lemma add_edge_lengths_stamps_witness :
  wf_graph chain_graph /\ NoDup (map e_key (g_edges chain_graph))
  /\ exists G',
       @add_edge_lengths plain_runtime plain_math chain_graph = Ok G'
       /\ g_nodes G' = g_nodes chain_graph /\ g_attrs G' = g_attrs chain_graph
       /\ Forall2 (fun e e' =>
                     e_key e' = e_key e /\ e_src e' = e_src e /\ e_tgt e' = e_tgt e
                     /\ exists uNode vNode,
                          getNodeAttributes chain_graph (e_src e) = Ok uNode
                          /\ getNodeAttributes chain_graph (e_tgt e) = Ok vNode
                          /\ e_attrs e'
                             = if is_defined (attr uNode "y") && is_defined (attr uNode "x")
                                  && is_defined (attr vNode "y") && is_defined (attr vNode "x")
                               then obj_set "length"
                                      (VNum (@great_circle plain_math
                                               (@to_number plain_runtime (attr uNode "y"))
                                               (@to_number plain_runtime (attr uNode "x"))
                                               (@to_number plain_runtime (attr vNode "y"))
                                               (@to_number plain_runtime (attr vNode "x"))))
                                      (e_attrs e)
                               else e_attrs e)
                  (g_edges chain_graph) (g_edges G').
Proof.
  split; [exact chain_graph_wf|]. split; [exact chain_graph_keys|].
  exact (@add_edge_lengths_stamps plain_runtime plain_math chain_graph chain_graph_wf
           chain_graph_keys).
Defined.





Lemma two_way_street_ids :
  forall e, e ∈ g_edges two_way_street ->
    occurs "|" (e_src e) = false /\ occurs "|" (e_tgt e) = false.
Proof.
  intros e He. simpl in He.
  repeat (apply elem_of_cons in He as [-> |He]; [split; reflexivity|]).
  inversion He.
Qed.

Lemma street_segment_count_segments_witness :
  (forall e, e ∈ g_edges two_way_street ->
     occurs "|" (e_src e) = false /\ occurs "|" (e_tgt e) = false)
  /\ exists reps,
       street_segment_count two_way_street = length reps
       /\ (forall r, r ∈ reps -> r ∈ g_edges two_way_street)
       /\ (forall e, e ∈ g_edges two_way_street ->
             exists r, r ∈ reps /\ same_segment e r)
       /\ (forall i j r1 r2,
             reps !! i = Some r1 -> reps !! j = Some r2 -> same_segment r1 r2 -> i = j).
Proof.
  split; [exact two_way_street_ids|].
  exact (street_segment_count_segments two_way_street two_way_street_ids).
Defined.


Lemma build_path_follows_edges_witness :
  wf_graph chain_graph /\ hasEdge chain_graph "a" "b" = true /\ "a" <> "b"
  /\ exists r,
       _build_path chain_graph "a" "b" ["a"; "c"] = Ok r
       /\ match r with
          | Some p =>
              (exists rest, p = "a" :: "b" :: rest)
              /\ (forall u v, (u, v) ∈ steps p -> hasEdge chain_graph u v = true)
              /\ (NoDup p \/ exists q, p = q ++ ["a"] /\ NoDup q)
          | None => step_limit + 2 <= order chain_graph
          end.
Proof.
  assert ("a" <> "b") as Hne by discriminate.
  split; [exact chain_graph_wf|]. split; [reflexivity|]. split; [exact Hne|].
  exact (build_path_follows_edges chain_graph "a" "b" ["a"; "c"] chain_graph_wf eq_refl Hne).
Defined.






Lemma validate_created_graph_witness :
  exists G,
    @_create_graph plain_runtime plain_math drive_settings "2024-01-01" [two_way_response]
      false = Ok G
    /\ ("street_count" ∉ useful_tags_node drive_settings)
    /\ g_edges G <> []
    /\ default_crs drive_settings <> ""
    /\ (exists messages,
          @validate_graph plain_runtime (fun _ => true) G true = Invalid messages)
    /\ @validate_graph plain_runtime (fun _ => true) G false = Valid.
Proof.
  eexists. split; [vm_compute; reflexivity|].
  assert ("street_count" ∉ useful_tags_node drive_settings) as Htag.
  { intros Hin. apply list_elem_of_In in Hin. vm_compute in Hin.
    repeat (destruct Hin as [Hin|Hin]; [discriminate|]). exact Hin. }
  split; [exact Htag|]. split; [discriminate|]. split; [discriminate|].
  destruct (@validate_created_graph plain_runtime plain_math drive_settings (fun _ => true)
              "2024-01-01" [two_way_response] false _ ltac:(vm_compute; reflexivity))
    as [Hstrict Hloose].
  split; [exact (Hstrict Htag) | apply Hloose; discriminate].
Defined.
